(** * Noise scheduler with grid-based noise adaptation

    A shallow embedding of the [NoiseScheduler] class of
    [example_papers/grid_based_noise_adaptation/run_4.py] and the properties
    its specification states about it.

    Number model.  The program computes on float32 tensors; here every
    tensor entry is a real number ([R]) and the arithmetic is exact.  What
    is proved is therefore the behaviour of the formulas of the program in
    exact arithmetic: rounding, overflow, underflow and NaN are outside the
    model.  Python integers (sizes, timesteps, cell indices) are [Z].

    Tensor model.  A one-dimensional tensor is a [list R], a batch of 2D
    points (shape (N, 2)) a [list (R * R)], a grid (shape (T, n, n)) a
    [list (list (list R))], an index tensor a [list Z].  Operations that
    PyTorch can refuse (an index out of range, shapes that do not broadcast,
    a negative size) return an exception in the [result] type. *)

From Stdlib Require Import String Reals Lra Lia ZArith Bool List.
Import ListNotations.
Open Scope R_scope.

(** ** Exceptions and the two monads of the model *)

Inductive exn : Type :=
| ValueError (msg : string)
| RuntimeError (msg : string)
| IndexError (msg : string).

Inductive result (A : Type) : Type :=
| Ok (a : A)
| Raise (e : exn).

Arguments Ok {A} a.
Arguments Raise {A} e.

Definition rbind {A B} (c : result A) (k : A -> result B) : result B :=
  match c with
  | Ok a => k a
  | Raise e => Raise e
  end.

Declare Scope result_scope.
Delimit Scope result_scope with result.
Notation "x <- c ;; k" := (rbind c (fun x => k))
  (at level 61, c at next level, right associativity) : result_scope.

Fixpoint mapM {A B} (f : A -> result B) (l : list A) : result (list B) :=
  match l with
  | [] => Ok []
  | a :: l' =>
      (b <- f a ;;
       bs <- mapM f l' ;;
       Ok (b :: bs))%result
  end.

(** ** The part of PyTorch the scheduler uses *)

Module Torch.

Definition tensor1 := list R.
Definition points := list (R * R).
Definition tensor3 := list (list (list R)).
Definition index_tensor := list Z.

(** [a[i]] for a Python integer [i]: a negative index counts from the
    end, anything outside [-len, len) raises [IndexError]. *)
Definition getitem {A} (a : list A) (i : Z) : result A :=
  let n := Z.of_nat (length a) in
  let j := if (i <? 0)%Z then (i + n)%Z else i in
  if ((0 <=? j) && (j <? n))%Z then
    match nth_error a (Z.to_nat j) with
    | Some v => Ok v
    | None => Raise (IndexError "index out of range")
    end
  else Raise (IndexError "index out of range").

(** [a[idx]] for an index tensor [idx]: one lookup per entry. *)
Definition gather {A} (a : list A) (idx : index_tensor) : result (list A) :=
  mapM (getitem a) idx.

Fixpoint zip_with {A B C} (f : A -> B -> C) (xs : list A) (ys : list B) : list C :=
  match xs, ys with
  | x :: xs', y :: ys' => f x y :: zip_with f xs' ys'
  | _, _ => []
  end.

(** Broadcasting of a binary elementwise operation along the leading
    dimension: equal sizes pair up, a size of one is repeated, any other
    combination is a shape error. *)
Definition broadcast {A B C} (f : A -> B -> C) (xs : list A) (ys : list B)
  : result (list C) :=
  if (length xs =? length ys)%nat then Ok (zip_with f xs ys)
  else match xs, ys with
       | [x], _ => Ok (map (f x) ys)
       | _, [y] => Ok (map (fun x => f x y) xs)
       | _, _ => Raise (RuntimeError "The size of tensor a must match the size of tensor b")
       end.

(** [torch.linspace(start, end, steps)]: [steps] points, the i-th being
    [start + i * (end - start) / (steps - 1)]; a negative [steps] is
    refused. For [steps = 1] the only point is [start]. *)
Definition linspace (start end_ : R) (steps : Z) : result tensor1 :=
  if (steps <? 0)%Z then Raise (RuntimeError "number of steps must be non-negative")
  else
    let n := Z.to_nat steps in
    Ok (map (fun i => start + INR i * ((end_ - start) / (INR n - 1))) (seq 0 n)).

(** [torch.cumprod(a, axis=0)]: running products. *)
Fixpoint cumprod_from (acc : R) (a : tensor1) : tensor1 :=
  match a with
  | [] => []
  | x :: a' => acc * x :: cumprod_from (acc * x) a'
  end.

Definition cumprod (a : tensor1) : tensor1 := cumprod_from 1 a.

(** [a[:-1]] *)
Definition drop_last (a : tensor1) : tensor1 := removelast a.

(** [F.pad(a, (1, 0), value=v)]: one entry [v] in front. *)
Definition pad_left (v : R) (a : tensor1) : tensor1 := v :: a.

(** [torch.ones(d0, d1, d2)]; a negative dimension is refused. *)
Definition ones (d0 d1 d2 : Z) : result tensor3 :=
  if ((d0 <? 0) || (d1 <? 0) || (d2 <? 0))%Z
  then Raise (RuntimeError "Trying to create tensor with negative dimension")
  else Ok (repeat (repeat (repeat 1 (Z.to_nat d2)) (Z.to_nat d1)) (Z.to_nat d0)).

(** [torch.clamp(v, lo, hi)] on one entry: [min(max(v, lo), hi)]. *)
Definition clamp (v lo hi : R) : R := Rmin (Rmax v lo) hi.

(** [.long()] on one entry: conversion to an integer truncates toward
    zero. *)
Definition long (v : R) : Z := if Rle_dec 0 v then Zfloor v else Zceil v.

(** [v.clip(lo)] on one entry. *)
Definition clip_min (v lo : R) : R := Rmax v lo.

(** [g[t, i, j]] with three index tensors: they are broadcast to one
    shape and one entry is read per position. Index tensors that do not
    broadcast are an [IndexError]. *)
Definition getitem3 (g : tensor3) (tij : Z * Z * Z) : result R :=
  let '(t, i, j) := tij in
  (plane <- getitem g t ;;
   row <- getitem plane i ;;
   getitem row j)%result.

Definition broadcast_indices {A B} (xs : list A) (ys : list B) : result (list (A * B)) :=
  match broadcast pair xs ys with
  | Ok l => Ok l
  | Raise _ =>
      Raise (IndexError "shape mismatch: indexing tensors could not be broadcast together")
  end.

Definition gather3 (g : tensor3) (t i j : index_tensor) : result tensor1 :=
  (ti <- broadcast_indices t i ;;
   tij <- broadcast_indices ti j ;;
   mapM (getitem3 g) tij)%result.

(** Elementwise arithmetic between tensors of the shapes the scheduler
    combines: (N,1) with (N,2), (N,2) with (N,1) and (N,2) with (N,2). *)
Definition mul_col_points (s : tensor1) (x : points) : result points :=
  broadcast (fun c p => (c * fst p, c * snd p)) s x.

Definition mul_points_col (x : points) (s : tensor1) : result points :=
  broadcast (fun p c => (fst p * c, snd p * c)) x s.

Definition add_points (x y : points) : result points :=
  broadcast (fun p q => (fst p + fst q, snd p + snd q)) x y.

Definition sub_points (x y : points) : result points :=
  broadcast (fun p q => (fst p - fst q, snd p - snd q)) x y.

(** Elementwise arithmetic between one-dimensional tensors. *)
Definition mul1 (a b : tensor1) : result tensor1 := broadcast Rmult a b.
Definition div1 (a b : tensor1) : result tensor1 := broadcast Rdiv a b.

(** A zero-dimensional tensor (one number) times a batch of points. *)
Definition scale_points (c : R) (x : points) : points :=
  map (fun p => (c * fst p, c * snd p)) x.

(** The global random generator: an infinite supply of standard-normal
    draws and the position of the next one. *)
Record Generator : Type := {
  draws : nat -> R;
  offset : nat
}.

(** [torch.randn_like(x)] for a batch of points: [2 * N] fresh draws in
    row-major order, and the generator advanced past them. *)
Definition randn_like (x : points) (g : Generator) : points * Generator :=
  (map (fun i => (draws g (offset g + 2 * i)%nat, draws g (offset g + 2 * i + 1)%nat))
       (seq 0 (length x)),
   {| draws := draws g; offset := (offset g + 2 * length x)%nat |}).

End Torch.

Import Torch.

(** ** The scheduler object *)

(** The keyword arguments of the constructor. *)
Record Config : Type := {
  cfg_num_timesteps : Z;
  cfg_beta_start : R;
  cfg_beta_end : R;
  cfg_beta_schedule : string;
  cfg_coarse_grid_size : Z;
  cfg_fine_grid_size : Z
}.

(** The attributes of a [NoiseScheduler] instance. *)
Record NoiseScheduler : Type := {
  num_timesteps : Z;
  coarse_grid_size : Z;
  fine_grid_size : Z;
  betas : tensor1;
  alphas : tensor1;
  alphas_cumprod : tensor1;
  alphas_cumprod_prev : tensor1;
  sqrt_alphas_cumprod : tensor1;
  sqrt_one_minus_alphas_cumprod : tensor1;
  sqrt_inv_alphas_cumprod : tensor1;
  sqrt_inv_alphas_cumprod_minus_one : tensor1;
  posterior_mean_coef1 : tensor1;
  posterior_mean_coef2 : tensor1;
  coarse_noise_grid : tensor3;
  fine_noise_grid : tensor3
}.

(** [x ** 0.5]: the square root (on the non-negative numbers, where the
    program uses it). *)
Definition pow_half (x : R) : R := sqrt x.

(** [NoiseScheduler.__init__]. *)
Definition __init__ (cfg : Config) : result NoiseScheduler :=
  let num_timesteps := cfg_num_timesteps cfg in
  let beta_start := cfg_beta_start cfg in
  let beta_end := cfg_beta_end cfg in
  let beta_schedule := cfg_beta_schedule cfg in
  let coarse_grid_size := cfg_coarse_grid_size cfg in
  let fine_grid_size := cfg_fine_grid_size cfg in
  (betas <-
     (if String.eqb beta_schedule "linear" then
        linspace beta_start beta_end num_timesteps
      else if String.eqb beta_schedule "quadratic" then
        (l <- linspace (pow_half beta_start) (pow_half beta_end) num_timesteps ;;
         Ok (map (fun b => b ^ 2) l))
      else Raise (ValueError ("Unknown beta schedule: " ++ beta_schedule))) ;;
   let alphas := map (fun b => 1 - b) betas in
   let alphas_cumprod := cumprod alphas in
   let alphas_cumprod_prev := pad_left 1 (drop_last alphas_cumprod) in
   let sqrt_alphas_cumprod := map pow_half alphas_cumprod in
   let sqrt_one_minus_alphas_cumprod := map (fun a => pow_half (1 - a)) alphas_cumprod in
   let sqrt_inv_alphas_cumprod := map (fun a => sqrt (1 / a)) alphas_cumprod in
   let sqrt_inv_alphas_cumprod_minus_one := map (fun a => sqrt (1 / a - 1)) alphas_cumprod in
   num1 <- mul1 betas (map sqrt alphas_cumprod_prev) ;;
   posterior_mean_coef1 <- div1 num1 (map (fun a => 1 - a) alphas_cumprod) ;;
   num2 <- mul1 (map (fun a => 1 - a) alphas_cumprod_prev) (map sqrt alphas) ;;
   posterior_mean_coef2 <- div1 num2 (map (fun a => 1 - a) alphas_cumprod) ;;
   coarse_noise_grid <- ones num_timesteps coarse_grid_size coarse_grid_size ;;
   fine_noise_grid <- ones num_timesteps fine_grid_size fine_grid_size ;;
   Ok {| num_timesteps := num_timesteps;
         coarse_grid_size := coarse_grid_size;
         fine_grid_size := fine_grid_size;
         betas := betas;
         alphas := alphas;
         alphas_cumprod := alphas_cumprod;
         alphas_cumprod_prev := alphas_cumprod_prev;
         sqrt_alphas_cumprod := sqrt_alphas_cumprod;
         sqrt_one_minus_alphas_cumprod := sqrt_one_minus_alphas_cumprod;
         sqrt_inv_alphas_cumprod := sqrt_inv_alphas_cumprod;
         sqrt_inv_alphas_cumprod_minus_one := sqrt_inv_alphas_cumprod_minus_one;
         posterior_mean_coef1 := posterior_mean_coef1;
         posterior_mean_coef2 := posterior_mean_coef2;
         coarse_noise_grid := coarse_noise_grid;
         fine_noise_grid := fine_noise_grid |})%result.

(** ** Methods

    A method runs in a world made of the scheduler object it is called on
    ([self]) and the global random generator. It returns a value or raises,
    and in both cases leaves a world behind: an exception does not roll
    back what was written before it. *)

Record World : Type := {
  self : NoiseScheduler;
  generator : Generator
}.

Definition M (A : Type) : Type := World -> result A * World.

Definition ret {A} (a : A) : M A := fun w => (Ok a, w).

Definition bind {A B} (c : M A) (k : A -> M B) : M B :=
  fun w =>
    match c w with
    | (Ok a, w') => k a w'
    | (Raise e, w') => (Raise e, w')
    end.

Definition lift {A} (r : result A) : M A := fun w => (r, w).

(** Reading an attribute of [self]. *)
Definition attr {A} (field : NoiseScheduler -> A) : M A :=
  fun w => (Ok (field (self w)), w).

(** Drawing from the global generator. *)
Definition randn_like_m (x : points) : M points :=
  fun w =>
    let '(z, g) := randn_like x (generator w) in
    (Ok z, {| self := self w; generator := g |}).

Declare Scope method_scope.
Delimit Scope method_scope with method.
Notation "x <- c ;; k" := (bind c (fun x => k))
  (at level 61, c at next level, right associativity) : method_scope.

(** The cell of a grid with [size] cells per axis that the coordinate [c]
    falls in: the entrywise computation
    [torch.clamp((c + 1) / 2 * size, 0, size - 1).long()]. *)
Definition grid_cell (c : R) (size : Z) : Z :=
  long (clamp ((c + 1) / 2 * IZR size) 0 (IZR (size - 1))).

Definition get_grid_noise_adjustment (t : index_tensor) (x : points) : M tensor1 :=
  (coarse_size <- attr coarse_grid_size ;;
   let coarse_grid_x := map (fun p => grid_cell (fst p) coarse_size) x in
   let coarse_grid_y := map (fun p => grid_cell (snd p) coarse_size) x in
   coarse_grid <- attr coarse_noise_grid ;;
   coarse_adjustment <- lift (gather3 coarse_grid t coarse_grid_x coarse_grid_y) ;;
   fine_size <- attr fine_grid_size ;;
   let fine_grid_x := map (fun p => grid_cell (fst p) fine_size) x in
   let fine_grid_y := map (fun p => grid_cell (snd p) fine_size) x in
   fine_grid <- attr fine_noise_grid ;;
   fine_adjustment <- lift (gather3 fine_grid t fine_grid_x fine_grid_y) ;;
   lift (mul1 coarse_adjustment fine_adjustment))%method.

(** In the three methods below [t] is an index tensor. A scalar timestep
    and a batch of one timestep give the same (1, 1) tensor after
    [reshape(-1, 1)], so a scalar is passed as a one-element list. *)
Definition reconstruct_x0 (x_t : points) (t : index_tensor) (noise : points) : M points :=
  (coef1 <- attr sqrt_inv_alphas_cumprod ;;
   s1 <- lift (gather coef1 t) ;;
   coef2 <- attr sqrt_inv_alphas_cumprod_minus_one ;;
   s2 <- lift (gather coef2 t) ;;
   a <- lift (mul_col_points s1 x_t) ;;
   b <- lift (mul_col_points s2 noise) ;;
   lift (sub_points a b))%method.

Definition q_posterior (x_0 x_t : points) (t : index_tensor) : M points :=
  (coef1 <- attr posterior_mean_coef1 ;;
   s1 <- lift (gather coef1 t) ;;
   coef2 <- attr posterior_mean_coef2 ;;
   s2 <- lift (gather coef2 t) ;;
   a <- lift (mul_col_points s1 x_0) ;;
   b <- lift (mul_col_points s2 x_t) ;;
   mu <- lift (add_points a b) ;;
   ret mu)%method.

Definition get_variance (t : Z) : M R :=
  if (t =? 0)%Z then ret 0
  else
    (b <- attr betas ;;
     beta_t <- lift (getitem b t) ;;
     acp <- attr alphas_cumprod_prev ;;
     acp_t <- lift (getitem acp t) ;;
     ac <- attr alphas_cumprod ;;
     ac_t <- lift (getitem ac t) ;;
     let variance := beta_t * (1 - acp_t) / (1 - ac_t) in
     let variance := clip_min variance 1e-20 in
     ret variance)%method.

(** The local [variance] of [step] is the integer 0 or a tensor. *)
Inductive number_or_points : Type :=
| Number (c : R)
| Points (x : points).

Definition add_any (x : points) (v : number_or_points) : result points :=
  match v with
  | Number c => Ok (map (fun p => (fst p + c, snd p + c)) x)
  | Points y => add_points x y
  end.

Definition step (model_output : points) (timestep : Z) (sample : points) : M points :=
  let t := timestep in
  (pred_original_sample <- reconstruct_x0 sample [t] model_output ;;
   pred_prev_sample <- q_posterior pred_original_sample sample [t] ;;
   variance <-
     (if (0 <? t)%Z then
        (noise <- randn_like_m model_output ;;
         v <- get_variance t ;;
         ret (Points (scale_points (pow_half v) noise)))
      else ret (Number 0)) ;;
   pred_prev_sample <- lift (add_any pred_prev_sample variance) ;;
   ret pred_prev_sample)%method.

Definition add_noise (x_start x_noise : points) (timesteps : index_tensor) : M points :=
  (coef1 <- attr sqrt_alphas_cumprod ;;
   s1 <- lift (gather coef1 timesteps) ;;
   coef2 <- attr sqrt_one_minus_alphas_cumprod ;;
   s2 <- lift (gather coef2 timesteps) ;;
   noise_adjustment <- get_grid_noise_adjustment timesteps x_start ;;
   a <- lift (mul_col_points s1 x_start) ;;
   b <- lift (mul_col_points s2 x_noise) ;;
   c <- lift (mul_points_col b noise_adjustment) ;;
   lift (add_points a c))%method.

(** [NoiseScheduler.__len__]. *)
Definition __len__ : M Z := attr num_timesteps.

(** ** Vocabulary of the properties *)

(** A grid of shape (d0, d1, d2). *)
Definition has_shape (g : tensor3) (d0 d1 d2 : nat) : Prop :=
  length g = d0 /\
  Forall (fun plane => length plane = d1 /\ Forall (fun row => length row = d2) plane) g.

Definition all_ones (g : tensor3) : Prop :=
  Forall (Forall (Forall (fun v => v = 1))) g.

(** A timestep that indexes the tables of [s] from the front. *)
Definition in_range (s : NoiseScheduler) (t : Z) : Prop :=
  (0 <= t < num_timesteps s)%Z.

(** The shape of a scheduler object: every coefficient table has one
    entry per timestep, the grid sizes are positive and each grid has one
    square plane per timestep. Gradient updates of the grids change their
    entries, never their shape, so an object stays well formed. *)
Definition well_formed (s : NoiseScheduler) : Prop :=
  let T := Z.to_nat (num_timesteps s) in
  (0 < coarse_grid_size s)%Z /\ (0 < fine_grid_size s)%Z /\
  length (betas s) = T /\
  length (alphas s) = T /\
  length (alphas_cumprod s) = T /\
  length (alphas_cumprod_prev s) = T /\
  length (sqrt_alphas_cumprod s) = T /\
  length (sqrt_one_minus_alphas_cumprod s) = T /\
  length (sqrt_inv_alphas_cumprod s) = T /\
  length (sqrt_inv_alphas_cumprod_minus_one s) = T /\
  length (posterior_mean_coef1 s) = T /\
  length (posterior_mean_coef2 s) = T /\
  has_shape (coarse_noise_grid s) T
    (Z.to_nat (coarse_grid_size s)) (Z.to_nat (coarse_grid_size s)) /\
  has_shape (fine_noise_grid s) T
    (Z.to_nat (fine_grid_size s)) (Z.to_nat (fine_grid_size s)).

(** The documented domain of the constructor's arguments. *)
Definition known_schedule (name : string) : Prop :=
  name = "linear"%string \/ name = "quadratic"%string.

Definition valid_config (cfg : Config) : Prop :=
  (0 < cfg_num_timesteps cfg)%Z /\
  0 < cfg_beta_start cfg < cfg_beta_end cfg /\ cfg_beta_end cfg < 1 /\
  known_schedule (cfg_beta_schedule cfg) /\
  (0 < cfg_coarse_grid_size cfg)%Z /\
  (0 < cfg_fine_grid_size cfg)%Z.

(** The same configuration with another fine grid size. *)
Definition with_fine_grid_size (cfg : Config) (n : Z) : Config :=
  {| cfg_num_timesteps := cfg_num_timesteps cfg;
     cfg_beta_start := cfg_beta_start cfg;
     cfg_beta_end := cfg_beta_end cfg;
     cfg_beta_schedule := cfg_beta_schedule cfg;
     cfg_coarse_grid_size := cfg_coarse_grid_size cfg;
     cfg_fine_grid_size := n |}.

(** The same scheduler after the optimizer has written other grids. *)
Definition with_grids (s : NoiseScheduler) (coarse fine : tensor3) : NoiseScheduler :=
  {| num_timesteps := num_timesteps s;
     coarse_grid_size := coarse_grid_size s;
     fine_grid_size := fine_grid_size s;
     betas := betas s;
     alphas := alphas s;
     alphas_cumprod := alphas_cumprod s;
     alphas_cumprod_prev := alphas_cumprod_prev s;
     sqrt_alphas_cumprod := sqrt_alphas_cumprod s;
     sqrt_one_minus_alphas_cumprod := sqrt_one_minus_alphas_cumprod s;
     sqrt_inv_alphas_cumprod := sqrt_inv_alphas_cumprod s;
     sqrt_inv_alphas_cumprod_minus_one := sqrt_inv_alphas_cumprod_minus_one s;
     posterior_mean_coef1 := posterior_mean_coef1 s;
     posterior_mean_coef2 := posterior_mean_coef2 s;
     coarse_noise_grid := coarse;
     fine_noise_grid := fine |}.

Definition world (s : NoiseScheduler) (g : Generator) : World :=
  {| self := s; generator := g |}.

(** What a caller observes of a call: the value or exception, and the
    generator. *)
Definition outcome {A} (r : result A * World) : result A * Generator :=
  (fst r, generator (snd r)).

(** A call leaves the scheduler object as it found it, whether it returns
    or raises. *)
Definition keeps_self {A} (c : M A) : Prop :=
  forall w, self (snd (c w)) = self w.

(** A call that behaves the same whatever the two grids hold: from two
    worlds that differ in the grids only it gives the same value or
    exception and the same generator, and leaves both objects alone. *)
Definition grid_blind {A} (c : M A) : Prop :=
  forall s coarse fine g, exists r g',
    c (world s g) = (r, world s g') /\
    c (world (with_grids s coarse fine) g) = (r, world (with_grids s coarse fine) g').

(** Entry [t] of a coefficient table. *)
Definition coef (table : tensor1) (t : Z) : R := nth (Z.to_nat t) table 0.

(** Entry [(t, i, j)] of a grid. *)
Definition grid_entry (g : tensor3) (t i j : Z) : R :=
  nth (Z.to_nat j) (nth (Z.to_nat i) (nth (Z.to_nat t) g []) []) 0.

(** The product of the coarse and the fine grid entry that timestep [t]
    and point [p] select. *)
Definition adjustment_at (s : NoiseScheduler) (t : Z) (p : R * R) : R :=
  grid_entry (coarse_noise_grid s) t
    (grid_cell (fst p) (coarse_grid_size s)) (grid_cell (snd p) (coarse_grid_size s)) *
  grid_entry (fine_noise_grid s) t
    (grid_cell (fst p) (fine_grid_size s)) (grid_cell (snd p) (fine_grid_size s)).

(** Three lists combined entry by entry. *)
Fixpoint zip3_with {A B C D} (f : A -> B -> C -> D)
    (xs : list A) (ys : list B) (zs : list C) : list D :=
  match xs, ys, zs with
  | x :: xs', y :: ys', z :: zs' => f x y z :: zip3_with f xs' ys' zs'
  | _, _, _ => []
  end.

(** Clamping of an integer. *)
Definition clampZ (i lo hi : Z) : Z := Z.min (Z.max i lo) hi.

(** Objects for concrete runs: two timesteps, a 1 x 1 and a 2 x 2 grid. *)
Definition demo_config : Config :=
  {| cfg_num_timesteps := 2;
     cfg_beta_start := 1 / 4;
     cfg_beta_end := 1 / 2;
     cfg_beta_schedule := "linear";
     cfg_coarse_grid_size := 1;
     cfg_fine_grid_size := 2 |}.

(** A configuration with a known schedule and a coarse grid of size 0. *)
Definition zero_grid_config : Config :=
  {| cfg_num_timesteps := 2;
     cfg_beta_start := 1 / 4;
     cfg_beta_end := 1 / 2;
     cfg_beta_schedule := "linear";
     cfg_coarse_grid_size := 0;
     cfg_fine_grid_size := 2 |}.

(** The configuration of the end-to-end scenario: 100 timesteps, linear
    schedule from 0.0001 to 0.02, grids of 5 and 20 cells per axis. *)
Definition scenario_config : Config :=
  {| cfg_num_timesteps := 100;
     cfg_beta_start := 0.0001;
     cfg_beta_end := 0.02;
     cfg_beta_schedule := "linear";
     cfg_coarse_grid_size := 5;
     cfg_fine_grid_size := 20 |}.

(** The scheduler without timesteps and without grid cells. *)
Definition empty_scheduler : NoiseScheduler :=
  {| num_timesteps := 0;
     coarse_grid_size := 0;
     fine_grid_size := 0;
     betas := [];
     alphas := [];
     alphas_cumprod := [];
     alphas_cumprod_prev := [];
     sqrt_alphas_cumprod := [];
     sqrt_one_minus_alphas_cumprod := [];
     sqrt_inv_alphas_cumprod := [];
     sqrt_inv_alphas_cumprod_minus_one := [];
     posterior_mean_coef1 := [];
     posterior_mean_coef2 := [];
     coarse_noise_grid := [];
     fine_noise_grid := [] |}.

(** The scheduler that the constructor returns for [demo_config]. *)
Definition demo_scheduler : NoiseScheduler :=
  match __init__ demo_config with
  | Ok s => s
  | Raise _ => empty_scheduler
  end.

(** The scheduler that the constructor returns for [zero_grid_config]. *)
Definition zero_grid_scheduler : NoiseScheduler :=
  match __init__ zero_grid_config with
  | Ok s => s
  | Raise _ => empty_scheduler
  end.

Definition demo_generator : Generator := {| draws := fun n => INR n; offset := 0 |}.

(** ** The denoiser and the code around the scheduler

    The rest of the file [run_4.py]: the sinusoidal embedding, the residual
    block and the denoiser network, the grid metric, the loss of a training
    step and the sampling loop. A two-dimensional tensor is a list of rows
    ([matrix]). *)

Module TorchNN.

Definition matrix := list tensor1.

(** [torch.arange(n)]: the numbers 0 .. n - 1; a negative [n] is refused. *)
Definition arange (n : Z) : result tensor1 :=
  if (n <? 0)%Z
  then Raise (RuntimeError "upper bound and larger bound inconsistent with step sign")
  else Ok (map INR (seq 0 (Z.to_nat n))).

(** An [nn.Linear] module: a weight of shape (out_features, in_features)
    and a bias of shape (out_features). *)
Record Linear : Type := {
  in_features : nat;
  out_features : nat;
  weight : matrix;
  bias : tensor1
}.

(** [nn.Linear(in_f, out_f)]. The entries the random initialiser writes
    are a parameter: [w j i] for the weight, [b j] for the bias. A negative
    size is refused. *)
Definition Linear_init (in_f out_f : Z) (w : nat -> nat -> R) (b : nat -> R)
  : result Linear :=
  if ((in_f <? 0) || (out_f <? 0))%Z
  then Raise (RuntimeError "Trying to create tensor with negative dimension")
  else Ok {| in_features := Z.to_nat in_f;
             out_features := Z.to_nat out_f;
             weight := map (fun j => map (w j) (seq 0 (Z.to_nat in_f)))
                         (seq 0 (Z.to_nat out_f));
             bias := map b (seq 0 (Z.to_nat out_f)) |}.

Definition tensor_sum (a : tensor1) : R := fold_right Rplus 0 a.

Definition dot (x w : tensor1) : R := tensor_sum (zip_with Rmult x w).

(** [F.linear(input, weight, bias)] on a batch of rows: every row must
    have [in_features] entries. (A batch without rows has no width in this
    model and passes.) *)
Definition Linear_forward (l : Linear) (input : matrix) : result matrix :=
  mapM (fun row =>
          if (length row =? in_features l)%nat
          then Ok (zip_with (fun w b => dot row w + b) (weight l) (bias l))
          else Raise (RuntimeError "mat1 and mat2 shapes cannot be multiplied"))
       input.

(** [nn.ReLU()]. *)
Definition relu (input : matrix) : matrix := map (map (fun v => Rmax v 0)) input.

(** [a + b] for two-dimensional tensors, broadcasting in both dimensions. *)
Definition add2 (a b : matrix) : result matrix :=
  (rows <- broadcast (fun r s => broadcast Rplus r s) a b ;;
   mapM (fun r => r) rows)%result.

(** [torch.cat([a, b], dim=-1)] for two-dimensional tensors: the numbers
    of rows must agree. *)
Definition cat_last (a b : matrix) : result matrix :=
  if (length a =? length b)%nat then Ok (zip_with (@app R) a b)
  else Raise (RuntimeError "Sizes of tensors must match except in dimension 1").

(** [a.unsqueeze(1)]. *)
Definition unsqueeze1 (a : tensor1) : matrix := map (fun v => [v]) a.

(** [torch.mean], and [torch.var] with its default (unbiased) estimator.
    On fewer than two entries PyTorch's variance is NaN, which the reals do
    not have: statements about [var] assume two entries or more. *)
Definition mean (a : tensor1) : R := tensor_sum a / INR (length a).

Definition var (a : tensor1) : R :=
  tensor_sum (map (fun v => (v - mean a) ^ 2) a) / (INR (length a) - 1).

(** All entries of a three-dimensional tensor, in storage order. *)
Definition flatten (g : tensor3) : tensor1 := concat (concat g).

(** [torch.ones_like(g)]. *)
Definition ones_like (g : tensor3) : tensor3 := map (map (map (fun _ => 1))) g.

(** [torch.nn.L1Loss(reduction='sum')] on two tensors of one shape. *)
Definition l1_loss_sum (a b : tensor3) : R :=
  tensor_sum (zip_with (fun x y => Rabs (x - y)) (flatten a) (flatten b)).

(** [F.mse_loss] on two batches of points: the mean of the squared
    differences over all entries. (NaN on an empty batch, as for [var].) *)
Definition mse_loss (input target : points) : result R :=
  (d <- broadcast (fun p q => (fst p - fst q) ^ 2 + (snd p - snd q) ^ 2) input target ;;
   Ok (tensor_sum d / INR (2 * length d)))%result.

(** [torch.randn(n, 2)]: a negative [n] is refused. *)
Definition randn (n : Z) (g : Generator) : result points * Generator :=
  if (n <? 0)%Z
  then (Raise (RuntimeError "Trying to create tensor with negative dimension"), g)
  else let '(z, g') := randn_like (repeat (0, 0) (Z.to_nat n)) g in (Ok z, g').

End TorchNN.

Import TorchNN.

(** [calculate_grid_variance]. *)
Definition calculate_grid_variance (grid : tensor3) : R := var (flatten grid).

Module SinusoidalEmbedding.

Record t : Type := {
  dim : Z;
  scale : R
}.

Definition forward (m : t) (x : tensor1) : result matrix :=
  let x := map (fun v => v * scale m) x in
  let half_dim := (dim m / 2)%Z in
  let emb := ln 10000 / IZR (half_dim - 1) in
  (steps <- arange half_dim ;;
   let emb := map (fun k => exp (- emb * k)) steps in
   let emb := map (fun v => map (fun e => v * e) emb) x in
   let emb := map (fun row => map sin row ++ map cos row) emb in
   Ok emb)%result.

End SinusoidalEmbedding.

Module ResidualBlock.

Record t : Type := {
  ff : Linear
}.

Definition __init__ (width : Z) (w : nat -> nat -> R) (b : nat -> R) : result t :=
  (ff <- Linear_init width width w b ;;
   Ok {| ff := ff |})%result.

Definition forward (m : t) (x : matrix) : result matrix :=
  (y <- Linear_forward (ff m) (relu x) ;;
   add2 x y)%result.

End ResidualBlock.

Module MLPDenoiser.

(** The modules an [nn.Sequential] of this network holds. *)
Inductive Layer : Type :=
| LinearLayer (l : Linear)
| ResidualLayer (b : ResidualBlock.t)
| ReLULayer.

Definition Layer_forward (layer : Layer) (x : matrix) : result matrix :=
  match layer with
  | LinearLayer l => Linear_forward l x
  | ResidualLayer b => ResidualBlock.forward b x
  | ReLULayer => Ok (relu x)
  end.

Fixpoint Sequential_forward (layers : list Layer) (x : matrix) : result matrix :=
  match layers with
  | [] => Ok x
  | layer :: rest =>
      (y <- Layer_forward layer x ;;
       Sequential_forward rest y)%result
  end.

Record t : Type := {
  time_mlp : SinusoidalEmbedding.t;
  input_mlp1 : SinusoidalEmbedding.t;
  input_mlp2 : SinusoidalEmbedding.t;
  network : list Layer
}.

(** What the random initialiser writes into the k-th linear map created,
    counted from 0. *)
Definition Initializer : Type := nat -> (nat -> nat -> R) * (nat -> R).

Definition __init__ (embedding_dim hidden_dim hidden_layers : Z) (init : Initializer)
  : result t :=
  let time_mlp := {| SinusoidalEmbedding.dim := embedding_dim;
                     SinusoidalEmbedding.scale := 1 |} in
  let input_mlp1 := {| SinusoidalEmbedding.dim := embedding_dim;
                       SinusoidalEmbedding.scale := 25 |} in
  let input_mlp2 := {| SinusoidalEmbedding.dim := embedding_dim;
                       SinusoidalEmbedding.scale := 25 |} in
  let n := Z.to_nat hidden_layers in
  (first <- Linear_init (embedding_dim * 3 + 1) hidden_dim (fst (init 0%nat)) (snd (init 0%nat)) ;;
   blocks <- mapM (fun k => ResidualBlock.__init__ hidden_dim (fst (init (S k))) (snd (init (S k))))
                  (seq 0 n) ;;
   last <- Linear_init hidden_dim 2 (fst (init (S n))) (snd (init (S n))) ;;
   Ok {| time_mlp := time_mlp;
         input_mlp1 := input_mlp1;
         input_mlp2 := input_mlp2;
         network := LinearLayer first :: map ResidualLayer blocks ++
                    [ReLULayer; LinearLayer last] |})%result.

Definition forward (m : t) (x : points) (t_ : index_tensor) (noise_adjustment : tensor1)
  : result matrix :=
  (x1_emb <- SinusoidalEmbedding.forward (input_mlp1 m) (map fst x) ;;
   x2_emb <- SinusoidalEmbedding.forward (input_mlp2 m) (map snd x) ;;
   t_emb <- SinusoidalEmbedding.forward (time_mlp m) (map IZR t_) ;;
   e12 <- cat_last x1_emb x2_emb ;;
   e123 <- cat_last e12 t_emb ;;
   emb <- cat_last e123 (unsqueeze1 noise_adjustment) ;;
   Sequential_forward (network m) emb)%result.

End MLPDenoiser.

(** ** The loops of the main program *)

(** The denoiser as the loops call it: [model(x, t, noise_adjustment)]. *)
Definition Denoiser : Type := points -> index_tensor -> tensor1 -> result points.

(** A tensor of shape (N, 2) read as a batch of points. *)
Definition as_points (rows : matrix) : result points :=
  mapM (fun row =>
          match row with
          | [a; b] => Ok (a, b)
          | _ => Raise (RuntimeError "The size of tensor a must match the size of tensor b")
          end)
       rows.

Definition mlp_denoiser (m : MLPDenoiser.t) : Denoiser :=
  fun x t_ noise_adjustment =>
    (rows <- MLPDenoiser.forward m x t_ noise_adjustment ;;
     as_points rows)%result.

Definition randn_m (n : Z) : M points :=
  fun w =>
    let '(r, g) := randn n (generator w) in
    (r, {| self := self w; generator := g |}).

(** [len(noise_scheduler)]: Python refuses a negative [__len__]. *)
Definition len : M Z :=
  (n <- __len__ ;;
   if (n <? 0)%Z then lift (Raise (ValueError "__len__() should return >= 0"))
   else ret n)%method.

(** [list(range(n))[::-1]]. *)
Definition reversed_range (n : Z) : list Z :=
  rev (map Z.of_nat (seq 0 (Z.to_nat n))).

(** [np.repeat(t, n)] as a tensor. *)
Definition np_repeat (t : Z) (n : Z) : result index_tensor :=
  if (n <? 0)%Z then Raise (ValueError "negative dimensions are not allowed")
  else Ok (repeat t (Z.to_nat n)).

(** The body of the sampling loop, for the timesteps still to visit. *)
Fixpoint sampling_loop (ema_model : Denoiser) (eval_batch_size : Z)
    (timesteps : list Z) (sample : points) : M points :=
  match timesteps with
  | [] => ret sample
  | t :: rest =>
      (t <- lift (np_repeat t eval_batch_size) ;;
       noise_adjustment <- get_grid_noise_adjustment t sample ;;
       residual <- lift (ema_model sample t noise_adjustment) ;;
       t0 <- lift (getitem t 0) ;;
       sample <- step residual t0 sample ;;
       sampling_loop ema_model eval_batch_size rest sample)%method
  end.

(** Sampling: a batch of standard-normal points pushed through [step] for
    every timestep from the last to 0. *)
Definition sample_points (ema_model : Denoiser) (eval_batch_size : Z) : M points :=
  (sample <- randn_m eval_batch_size ;;
   n <- len ;;
   let timesteps := reversed_range n in
   sampling_loop ema_model eval_batch_size timesteps sample)%method.

(** The loss of one training step, for the batch, the noise and the
    timesteps drawn for it. *)
Definition training_loss (model : Denoiser) (fine_grid_l1_weight : R)
    (batch noise : points) (timesteps : index_tensor) : M R :=
  (noisy <- add_noise batch noise timesteps ;;
   noise_adjustment <- get_grid_noise_adjustment timesteps batch ;;
   noise_pred <- lift (model noisy timesteps noise_adjustment) ;;
   mse_loss <- lift (mse_loss noise_pred noise) ;;
   fine <- attr fine_noise_grid ;;
   let fine_grid_l1 := l1_loss_sum fine (ones_like fine) in
   let loss := mse_loss + fine_grid_l1_weight * fine_grid_l1 in
   ret loss)%method.

(** ** Shapes of the denoiser *)

(** A two-dimensional tensor with [w] columns. *)
Definition has_width (x : matrix) (w : nat) : Prop :=
  Forall (fun row => length row = w) x.

(** A linear map from [i] to [o] features. *)
Definition linear_shape (l : Linear) (i o : nat) : Prop :=
  in_features l = i /\ out_features l = o /\
  length (weight l) = o /\ has_width (weight l) i /\ length (bias l) = o.

Definition layer_shape (layer : MLPDenoiser.Layer) (i o : nat) : Prop :=
  match layer with
  | MLPDenoiser.LinearLayer l => linear_shape l i o
  | MLPDenoiser.ResidualLayer b => i = o /\ linear_shape (ResidualBlock.ff b) i i
  | MLPDenoiser.ReLULayer => i = o
  end.

Fixpoint network_shape (layers : list MLPDenoiser.Layer) (i o : nat) : Prop :=
  match layers with
  | [] => i = o
  | layer :: rest => exists mid, layer_shape layer i mid /\ network_shape rest mid o
  end.

(** The shape the constructor gives a denoiser for [embedding_dim], which
    training does not change: three embeddings of that dimension and a
    network that starts with a linear map on [3 * embedding_dim + 1]
    features and ends with 2 features. *)
Definition denoiser_shape (m : MLPDenoiser.t) (embedding_dim : Z) : Prop :=
  SinusoidalEmbedding.dim (MLPDenoiser.time_mlp m) = embedding_dim /\
  SinusoidalEmbedding.dim (MLPDenoiser.input_mlp1 m) = embedding_dim /\
  SinusoidalEmbedding.dim (MLPDenoiser.input_mlp2 m) = embedding_dim /\
  exists first rest hidden,
    MLPDenoiser.network m = MLPDenoiser.LinearLayer first :: rest /\
    linear_shape first (Z.to_nat (embedding_dim * 3 + 1)) hidden /\
    network_shape rest hidden 2.

(** A denoiser that accepts every batch and returns one point per sample. *)
Definition batch_preserving (model : Denoiser) : Prop :=
  forall x t_ a,
    length t_ = length x -> length a = length x ->
    exists r, model x t_ a = Ok r /\ length r = length x.

(** An initialiser for concrete runs. *)
Definition demo_initializer : MLPDenoiser.Initializer :=
  fun k => (fun j i => INR (k + j + i), fun j => INR j).

(** The denoiser the constructor returns for an embedding dimension of 4,
    3 hidden features and one residual block. *)
Definition demo_denoiser : MLPDenoiser.t :=
  match MLPDenoiser.__init__ 4 3 1 demo_initializer with
  | Ok m => m
  | Raise _ =>
      {| MLPDenoiser.time_mlp := {| SinusoidalEmbedding.dim := 0; SinusoidalEmbedding.scale := 0 |};
         MLPDenoiser.input_mlp1 := {| SinusoidalEmbedding.dim := 0; SinusoidalEmbedding.scale := 0 |};
         MLPDenoiser.input_mlp2 := {| SinusoidalEmbedding.dim := 0; SinusoidalEmbedding.scale := 0 |};
         MLPDenoiser.network := [] |}
  end.

(** The denoiser the constructor returns for an odd embedding dimension,
    5, with 3 hidden features and no residual block. *)
Definition odd_denoiser : MLPDenoiser.t :=
  match MLPDenoiser.__init__ 5 3 0 demo_initializer with
  | Ok m => m
  | Raise _ => demo_denoiser
  end.

(** ** Lemmas on the tensor primitives *)

Lemma getitem_in_range {A} (a : list A) (i : Z) (d : A) :
  (0 <= i < Z.of_nat (length a))%Z ->
  getitem a i = Ok (nth (Z.to_nat i) a d).
Proof.
  intros Hi. unfold getitem.
  destruct (Z.ltb_spec i 0) as [Hneg | _]; [lia |].
  destruct (Z.leb_spec 0 i) as [_ | Hneg]; [| lia].
  destruct (Z.ltb_spec i (Z.of_nat (length a))) as [_ | Hbig]; [| lia].
  cbn [andb].
  destruct (nth_error a (Z.to_nat i)) as [v |] eqn:E.
  - f_equal. symmetry. now apply nth_error_nth.
  - apply nth_error_None in E. lia.
Qed.

Lemma mapM_pointwise {A B} (f : A -> result B) (g : A -> B) (l : list A) :
  Forall (fun a => f a = Ok (g a)) l ->
  mapM f l = Ok (map g l).
Proof.
  induction 1 as [| a l Ha _ IH]; cbn.
  - reflexivity.
  - rewrite Ha. cbn. rewrite IH. reflexivity.
Qed.

Lemma gather_in_range (a : tensor1) (idx : index_tensor) :
  Forall (fun i => (0 <= i < Z.of_nat (length a))%Z) idx ->
  gather a idx = Ok (map (coef a) idx).
Proof.
  intros H. unfold gather. apply mapM_pointwise.
  eapply Forall_impl; [| exact H].
  intros i Hi. cbn beta. unfold coef. now apply getitem_in_range.
Qed.

Lemma length_zip_with {A B C} (f : A -> B -> C) xs ys :
  length xs = length ys -> length (zip_with f xs ys) = length xs.
Proof.
  revert ys. induction xs as [| x xs IH]; intros [| y ys] H; cbn in *;
    try discriminate; [reflexivity |].
  f_equal. apply IH. now injection H.
Qed.

Lemma nth_zip_with {A B C} (f : A -> B -> C) xs ys i da db dc :
  (i < length xs)%nat -> length xs = length ys ->
  nth i (zip_with f xs ys) dc = f (nth i xs da) (nth i ys db).
Proof.
  revert ys i. induction xs as [| x xs IH]; intros [| y ys] i Hi H; cbn in *;
    try discriminate; try lia.
  destruct i as [| i]; [reflexivity |].
  apply IH; [lia | now injection H].
Qed.

Lemma zip_with_map_l {A A' B C} (f : A' -> B -> C) (h : A -> A') xs ys :
  zip_with f (map h xs) ys = zip_with (fun a b => f (h a) b) xs ys.
Proof.
  revert ys. induction xs as [| x xs IH]; intros [| y ys]; cbn; try reflexivity.
  now rewrite IH.
Qed.

Lemma broadcast_same_length {A B C} (f : A -> B -> C) xs ys :
  length xs = length ys ->
  broadcast f xs ys = Ok (zip_with f xs ys).
Proof.
  intros H. unfold broadcast. rewrite H, Nat.eqb_refl. reflexivity.
Qed.

Lemma broadcast_one_left {A B C} (f : A -> B -> C) x ys :
  broadcast f [x] ys = Ok (map (f x) ys).
Proof.
  unfold broadcast.
  destruct (Nat.eqb_spec (length [x]) (length ys)) as [E | _]; [| reflexivity].
  destruct ys as [| y [| y' ys]]; cbn in E; try discriminate. reflexivity.
Qed.

(** ** The cell of a coordinate *)

Lemma long_nonneg (v : R) : 0 <= v -> long v = Zfloor v.
Proof.
  intros H. unfold long. destruct (Rle_dec 0 v); [reflexivity | contradiction].
Qed.

Lemma Zfloor_clamp (v : R) (n : Z) :
  (0 <= n)%Z ->
  Zfloor (clamp v 0 (IZR n)) = clampZ (Zfloor v) 0 n.
Proof.
  intros Hn. unfold clamp, clampZ.
  pose proof (Zfloor_bound v) as [Hlo Hhi].
  apply Zfloor_eq.
  assert (Hn' : 0 <= IZR n) by now apply IZR_le.
  destruct (Rle_dec v 0) as [Hv | Hv].
  - rewrite Rmax_right by exact Hv. rewrite Rmin_left by exact Hn'.
    assert (Zfloor v <= 0)%Z by (apply le_IZR; lra).
    replace (Z.min (Z.max (Zfloor v) 0) n) with 0%Z by lia. lra.
  - apply Rnot_le_lt in Hv. rewrite Rmax_left by lra.
    assert (0 <= Zfloor v)%Z by (apply Zfloor_lub; simpl; lra).
    destruct (Rle_dec v (IZR n)) as [Hvn | Hvn].
    + rewrite Rmin_left by exact Hvn.
      assert (Zfloor v <= n)%Z.
      { apply le_IZR. lra. }
      replace (Z.min (Z.max (Zfloor v) 0) n) with (Zfloor v) by lia. lra.
    + apply Rnot_le_lt in Hvn. rewrite Rmin_right by lra.
      assert (n <= Zfloor v)%Z by (apply Zfloor_lub; lra).
      replace (Z.min (Z.max (Zfloor v) 0) n) with n by lia.
      lra.
Qed.

Lemma grid_cell_clamped (c : R) (size : Z) :
  (0 < size)%Z ->
  grid_cell c size = clampZ (Zfloor ((c + 1) / 2 * IZR size)) 0 (size - 1).
Proof.
  intros Hsize. unfold grid_cell.
  assert (H0 : 0 <= IZR (size - 1)) by (apply IZR_le; lia).
  rewrite long_nonneg.
  - apply Zfloor_clamp. lia.
  - unfold clamp. apply Rmin_glb; [apply Rmax_r | exact H0].
Qed.

Lemma grid_cell_bounds (c : R) (size : Z) :
  (0 < size)%Z -> (0 <= grid_cell c size <= size - 1)%Z.
Proof.
  intros Hsize. rewrite grid_cell_clamped by exact Hsize. unfold clampZ. lia.
Qed.

Lemma getitem_some {A} (a : list A) (i : Z) :
  (0 <= i < Z.of_nat (length a))%Z ->
  exists v, getitem a i = Ok v /\ In v a.
Proof.
  intros Hi. destruct a as [| d a'] eqn:E; [cbn in Hi; lia |].
  rewrite <- E in *. exists (nth (Z.to_nat i) a d). split.
  - now apply getitem_in_range.
  - apply nth_In. lia.
Qed.

Lemma getitem3_in_shape (g : tensor3) (d0 d1 d2 : nat) (t i j : Z) :
  has_shape g d0 d1 d2 ->
  (0 <= t < Z.of_nat d0)%Z -> (0 <= i < Z.of_nat d1)%Z -> (0 <= j < Z.of_nat d2)%Z ->
  exists v, getitem3 g (t, i, j) = Ok v.
Proof.
  intros [Hlen Hplanes] Ht Hi Hj. unfold getitem3.
  destruct (getitem_some g t) as (plane & -> & Hin); [lia |].
  rewrite Forall_forall in Hplanes. destruct (Hplanes _ Hin) as [Hl1 Hrows].
  cbn. destruct (getitem_some plane i) as (row & -> & Hin'); [lia |].
  rewrite Forall_forall in Hrows. specialize (Hrows _ Hin').
  cbn. destruct (getitem_some row j) as (v & -> & _); [lia |].
  now exists v.
Qed.

(** C5. For a positive grid size the cell of a coordinate is
    [floor((c + 1) / 2 * size)] clamped to [0, size - 1]: it is 0 at
    [c = -1], [size - 1] for every [c >= 1], and within [0, size - 1] for
    every real coordinate, so that a lookup at the cells of any two
    coordinates in a grid of that size, at a timestep it has a plane for,
    returns an entry. *)
Theorem grid_cell_floor_clamp (size : Z) (c : R) :
  (0 < size)%Z ->
  grid_cell c size = clampZ (Zfloor ((c + 1) / 2 * IZR size)) 0 (size - 1) /\
  (c = -1 -> grid_cell c size = 0%Z) /\
  (1 <= c -> grid_cell c size = (size - 1)%Z) /\
  (0 <= grid_cell c size <= size - 1)%Z /\
  (forall (g : tensor3) (T : nat) (t : Z) (c' : R),
      has_shape g T (Z.to_nat size) (Z.to_nat size) ->
      (0 <= t < Z.of_nat T)%Z ->
      exists v, getitem3 g (t, grid_cell c size, grid_cell c' size) = Ok v).
Proof.
  intros Hsize.
  assert (Hs : 0 < IZR size) by now apply IZR_lt.
  repeat split.
  - now apply grid_cell_clamped.
  - intros ->. rewrite grid_cell_clamped by exact Hsize.
    replace ((-1 + 1) / 2 * IZR size) with (IZR 0) by (simpl; lra).
    rewrite ZfloorZ. unfold clampZ. lia.
  - intros Hc. rewrite grid_cell_clamped by exact Hsize.
    assert (size <= Zfloor ((c + 1) / 2 * IZR size))%Z.
    { apply Zfloor_lub. nra. }
    unfold clampZ. lia.
  - apply grid_cell_bounds, Hsize.
  - apply grid_cell_bounds, Hsize.
  - intros g T t c' Hshape Ht.
    pose proof (grid_cell_bounds c size Hsize).
    pose proof (grid_cell_bounds c' size Hsize).
    eapply getitem3_in_shape; eauto; lia.
Qed.

Lemma grid_cell_floor_clamp_witness :
  grid_cell (1 / 2) 4 = clampZ (Zfloor ((1 / 2 + 1) / 2 * IZR 4)) 0 (4 - 1) /\
  (0 <= grid_cell (1 / 2) 4 <= 4 - 1)%Z.
Proof.
  destruct (grid_cell_floor_clamp 4 (1 / 2)) as (H1 & _ & _ & H4 & _); [lia |].
  split; [exact H1 | exact H4].
Defined.

(** ** Frame rules of the method monad *)

Lemma bind_returns {A B} (c : M A) (k : A -> M B) w a w' :
  c w = (Ok a, w') -> bind c k w = k a w'.
Proof. intros H. unfold bind. now rewrite H. Qed.

Lemma bind_raises {A B} (c : M A) (k : A -> M B) w e w' :
  c w = (Raise e, w') -> bind c k w = (Raise e, w').
Proof. intros H. unfold bind. now rewrite H. Qed.

Lemma keeps_self_ret {A} (a : A) : keeps_self (ret a).
Proof. intros w. reflexivity. Qed.

Lemma keeps_self_lift {A} (r : result A) : keeps_self (lift r).
Proof. intros w. reflexivity. Qed.

Lemma keeps_self_attr {A} (field : NoiseScheduler -> A) : keeps_self (attr field).
Proof. intros w. reflexivity. Qed.

Lemma keeps_self_randn (x : points) : keeps_self (randn_like_m x).
Proof. intros w. reflexivity. Qed.

Lemma keeps_self_bind {A B} (c : M A) (k : A -> M B) :
  keeps_self c -> (forall a, keeps_self (k a)) -> keeps_self (bind c k).
Proof.
  intros Hc Hk w. unfold bind. specialize (Hc w).
  destruct (c w) as [[a | e] w']; cbn in *.
  - now rewrite Hk.
  - exact Hc.
Qed.

Lemma keeps_self_if {A} (b : bool) (c1 c2 : M A) :
  keeps_self c1 -> keeps_self c2 -> keeps_self (if b then c1 else c2).
Proof. now destruct b. Qed.

Create HintDb frame.
#[export] Hint Resolve keeps_self_ret keeps_self_lift keeps_self_attr
  keeps_self_randn keeps_self_bind keeps_self_if : frame.

Lemma keeps_self_get_grid_noise_adjustment t x :
  keeps_self (get_grid_noise_adjustment t x).
Proof. unfold get_grid_noise_adjustment. auto 20 with frame. Qed.

Lemma keeps_self_reconstruct_x0 x_t t noise : keeps_self (reconstruct_x0 x_t t noise).
Proof. unfold reconstruct_x0. auto 20 with frame. Qed.

Lemma keeps_self_q_posterior x_0 x_t t : keeps_self (q_posterior x_0 x_t t).
Proof. unfold q_posterior. auto 20 with frame. Qed.

Lemma keeps_self_get_variance t : keeps_self (get_variance t).
Proof. unfold get_variance. auto 20 with frame. Qed.

#[export] Hint Resolve keeps_self_get_grid_noise_adjustment
  keeps_self_reconstruct_x0 keeps_self_q_posterior keeps_self_get_variance : frame.

(** C9. A call of [add_noise], [step] or [get_grid_noise_adjustment]
    leaves the scheduler object, hence both grids and every coefficient
    table, exactly as it found it, whether the call returns or raises. *)
Theorem methods_keep_scheduler_state (w : World) :
  (forall x_start x_noise timesteps,
      self (snd (add_noise x_start x_noise timesteps w)) = self w) /\
  (forall model_output timestep sample,
      self (snd (step model_output timestep sample w)) = self w) /\
  (forall t x,
      self (snd (get_grid_noise_adjustment t x w)) = self w).
Proof.
  repeat split; intros.
  - assert (H : keeps_self (add_noise x_start x_noise timesteps))
      by (unfold add_noise; auto 20 with frame).
    apply H.
  - assert (H : keeps_self (step model_output timestep sample))
      by (unfold step; auto 20 with frame).
    apply H.
  - apply keeps_self_get_grid_noise_adjustment.
Qed.

(** ** Calls that do not look at the grids *)

Lemma grid_blind_ret {A} (a : A) : grid_blind (ret a).
Proof. intros s cg fg g. now exists (Ok a), g. Qed.

Lemma grid_blind_lift {A} (r : result A) : grid_blind (lift r).
Proof. intros s cg fg g. now exists r, g. Qed.

Lemma grid_blind_attr {A} (field : NoiseScheduler -> A) :
  (forall s coarse fine, field (with_grids s coarse fine) = field s) ->
  grid_blind (attr field).
Proof.
  intros H s cg fg g. exists (Ok (field s)), g. unfold attr. cbn. now rewrite H.
Qed.

Lemma grid_blind_randn (x : points) : grid_blind (randn_like_m x).
Proof.
  intros s cg fg g. unfold randn_like_m, world. cbn.
  eexists _, _. split; reflexivity.
Qed.

Lemma grid_blind_bind {A B} (c : M A) (k : A -> M B) :
  grid_blind c -> (forall a, grid_blind (k a)) -> grid_blind (bind c k).
Proof.
  intros Hc Hk s cg fg g. destruct (Hc s cg fg g) as (r & g' & H1 & H2).
  unfold bind. rewrite H1, H2. destruct r as [a | e].
  - apply Hk.
  - now exists (Raise e), g'.
Qed.

Lemma grid_blind_if {A} (b : bool) (c1 c2 : M A) :
  grid_blind c1 -> grid_blind c2 -> grid_blind (if b then c1 else c2).
Proof. now destruct b. Qed.

Create HintDb blind.
#[export] Hint Resolve grid_blind_ret grid_blind_lift grid_blind_randn
  grid_blind_bind grid_blind_if : blind.
#[export] Hint Extern 1 (grid_blind (attr _)) =>
  (apply grid_blind_attr; reflexivity) : blind.

Lemma grid_blind_step model_output timestep sample :
  grid_blind (step model_output timestep sample).
Proof.
  unfold step, reconstruct_x0, q_posterior, get_variance. auto 30 with blind.
Qed.

(** C10. [step] does not look at the grids: on two schedulers that differ
    only in the contents of the coarse and the fine grid, with the same
    generator (hence the same injected noise), the same predicted noise,
    timestep and sample, it gives the same value or exception and leaves
    the same generator. *)
Theorem step_independent_of_grids
    (s : NoiseScheduler) (coarse1 fine1 coarse2 fine2 : tensor3) (g : Generator)
    (model_output : points) (timestep : Z) (sample : points) :
  outcome (step model_output timestep sample (world (with_grids s coarse1 fine1) g)) =
  outcome (step model_output timestep sample (world (with_grids s coarse2 fine2) g)).
Proof.
  destruct (grid_blind_step model_output timestep sample s coarse1 fine1 g)
    as (r & g' & H1 & H2).
  destruct (grid_blind_step model_output timestep sample s coarse2 fine2 g)
    as (r' & g'' & H1' & H2').
  rewrite H2, H2'. rewrite H1 in H1'. injection H1' as <- <-. reflexivity.
Qed.

(** ** Running the methods on a well-formed scheduler *)

Lemma getitem3_entry (g : tensor3) (d0 d1 d2 : nat) (t i j : Z) :
  has_shape g d0 d1 d2 ->
  (0 <= t < Z.of_nat d0)%Z -> (0 <= i < Z.of_nat d1)%Z -> (0 <= j < Z.of_nat d2)%Z ->
  getitem3 g (t, i, j) = Ok (grid_entry g t i j).
Proof.
  intros [Hlen Hplanes] Ht Hi Hj. unfold getitem3, grid_entry.
  rewrite Forall_forall in Hplanes.
  assert (Hin : In (nth (Z.to_nat t) g []) g) by (apply nth_In; lia).
  destruct (Hplanes _ Hin) as [Hl1 Hrows]. rewrite Forall_forall in Hrows.
  assert (Hin' : In (nth (Z.to_nat i) (nth (Z.to_nat t) g []) []) (nth (Z.to_nat t) g []))
    by (apply nth_In; lia).
  specialize (Hrows _ Hin').
  rewrite (getitem_in_range g t []) by lia. cbn.
  rewrite (getitem_in_range _ i []) by lia. cbn.
  apply getitem_in_range. lia.
Qed.

Lemma mapM_zip_with {A B C D} (f : C -> result D) (h : A -> B -> C) (k : A -> B -> D)
    (P : A -> Prop) xs ys :
  (forall a b, P a -> f (h a b) = Ok (k a b)) ->
  Forall P xs ->
  mapM f (zip_with h xs ys) = Ok (zip_with k xs ys).
Proof.
  intros Hf Hxs. revert ys.
  induction Hxs as [| x xs Hx _ IH]; intros [| y ys]; cbn; try reflexivity.
  rewrite Hf by exact Hx. cbn. rewrite IH. reflexivity.
Qed.

Lemma zip_with_map_r {A B B' C} (f : A -> B' -> C) (h : B -> B') xs ys :
  zip_with f xs (map h ys) = zip_with (fun a b => f a (h b)) xs ys.
Proof.
  revert ys. induction xs as [| x xs IH]; intros [| y ys]; cbn; try reflexivity.
  now rewrite IH.
Qed.

Lemma zip_with_zip_with_same_r {A B C D} (f : C -> B -> D) (h : A -> B -> C) xs ys :
  zip_with f (zip_with h xs ys) ys = zip_with (fun a b => f (h a b) b) xs ys.
Proof.
  revert ys. induction xs as [| x xs IH]; intros [| y ys]; cbn; try reflexivity.
  now rewrite IH.
Qed.

Lemma zip_with_zip_with_both {A B C D E} (f : C -> D -> E) (h : A -> B -> C)
    (k : A -> B -> D) xs ys :
  zip_with f (zip_with h xs ys) (zip_with k xs ys) =
  zip_with (fun a b => f (h a b) (k a b)) xs ys.
Proof.
  revert ys. induction xs as [| x xs IH]; intros [| y ys]; cbn; try reflexivity.
  now rewrite IH.
Qed.

Lemma gather3_cells (g : tensor3) (T n : nat) (ts : index_tensor) (x : points)
    (fi fj : R * R -> Z) :
  has_shape g T n n ->
  length ts = length x ->
  Forall (fun t => (0 <= t < Z.of_nat T)%Z) ts ->
  (forall p, (0 <= fi p < Z.of_nat n)%Z) ->
  (forall p, (0 <= fj p < Z.of_nat n)%Z) ->
  gather3 g ts (map fi x) (map fj x) =
  Ok (zip_with (fun t p => grid_entry g t (fi p) (fj p)) ts x).
Proof.
  intros Hg Hlen Hts Hfi Hfj. unfold gather3, broadcast_indices.
  rewrite broadcast_same_length by now rewrite length_map.
  cbn [rbind].
  rewrite broadcast_same_length
    by (rewrite length_zip_with, length_map; [exact Hlen | now rewrite length_map]).
  cbn [rbind].
  rewrite !zip_with_map_r, zip_with_zip_with_same_r.
  apply mapM_zip_with with (P := fun t => (0 <= t < Z.of_nat T)%Z); [| exact Hts].
  intros t p Ht. eapply getitem3_entry; eauto.
Qed.

Lemma get_grid_noise_adjustment_runs (s : NoiseScheduler) (ts : index_tensor)
    (x : points) (g : Generator) :
  well_formed s ->
  length ts = length x ->
  Forall (in_range s) ts ->
  get_grid_noise_adjustment ts x (world s g) =
  (Ok (zip_with (adjustment_at s) ts x), world s g).
Proof.
  intros (Hc & Hf & _ & _ & _ & _ & _ & _ & _ & _ & _ & _ & Hcg & Hfg) Hlen Hts.
  assert (Hts' : Forall (fun t => (0 <= t < Z.of_nat (Z.to_nat (num_timesteps s)))%Z) ts).
  { eapply Forall_impl; [| exact Hts]. unfold in_range. intros; lia. }
  unfold get_grid_noise_adjustment, bind, attr, lift. cbn.
  erewrite gather3_cells; eauto;
    try (intros p; pose proof (grid_cell_bounds (fst p) _ Hc);
         pose proof (grid_cell_bounds (snd p) _ Hc); lia).
  erewrite gather3_cells; eauto;
    try (intros p; pose proof (grid_cell_bounds (fst p) _ Hf);
         pose proof (grid_cell_bounds (snd p) _ Hf); lia).
  unfold mul1. rewrite broadcast_same_length
    by (rewrite !length_zip_with; auto).
  rewrite zip_with_zip_with_both. reflexivity.
Qed.

Lemma length_zip3_with {A B C D} (f : A -> B -> C -> D) xs ys zs :
  length xs = length ys -> length xs = length zs ->
  length (zip3_with f xs ys zs) = length xs.
Proof.
  revert ys zs. induction xs as [| x xs IH]; intros [| y ys] [| z zs] H1 H2;
    cbn in *; try discriminate; [reflexivity |].
  f_equal. apply IH; congruence.
Qed.

Lemma nth_zip3_with {A B C D} (f : A -> B -> C -> D) xs ys zs i da db dc dd :
  (i < length xs)%nat -> length xs = length ys -> length xs = length zs ->
  nth i (zip3_with f xs ys zs) dd = f (nth i xs da) (nth i ys db) (nth i zs dc).
Proof.
  revert ys zs i. induction xs as [| x xs IH]; intros [| y ys] [| z zs] i Hi H1 H2;
    cbn in *; try discriminate; try lia.
  destruct i as [| i]; [reflexivity |].
  apply IH; [lia | congruence | congruence].
Qed.

Lemma zip_with_nest3 {A B C D E F} (f : D -> E -> F) (h : A -> B -> D) (k : A -> C -> E)
    xs ys zs :
  length xs = length ys -> length xs = length zs ->
  zip_with f (zip_with h xs ys) (zip_with k xs zs) =
  zip3_with (fun a b c => f (h a b) (k a c)) xs ys zs.
Proof.
  revert ys zs. induction xs as [| x xs IH]; intros [| y ys] [| z zs] H1 H2;
    cbn in *; try discriminate; [reflexivity |].
  f_equal. apply IH; congruence.
Qed.

Lemma mul_col_points_batch (h : Z -> R) (ts : index_tensor) (x : points) :
  length ts = length x ->
  mul_col_points (map h ts) x =
  Ok (zip_with (fun t p => (h t * fst p, h t * snd p)) ts x).
Proof.
  intros H. unfold mul_col_points.
  rewrite broadcast_same_length by now rewrite length_map.
  now rewrite zip_with_map_l.
Qed.

Lemma mul_col_points_scalar (c : R) (x : points) :
  mul_col_points [c] x = Ok (scale_points c x).
Proof. unfold mul_col_points. now rewrite broadcast_one_left. Qed.

Lemma in_range_table (s : NoiseScheduler) (table : tensor1) (ts : index_tensor) :
  length table = Z.to_nat (num_timesteps s) ->
  Forall (in_range s) ts ->
  Forall (fun i => (0 <= i < Z.of_nat (length table))%Z) ts.
Proof.
  intros Hlen Hts. eapply Forall_impl; [| exact Hts].
  unfold in_range. intros t Ht. cbn beta. lia.
Qed.

Lemma gather_table (s : NoiseScheduler) (table : tensor1) (ts : index_tensor) :
  length table = Z.to_nat (num_timesteps s) ->
  Forall (in_range s) ts ->
  gather table ts = Ok (map (coef table) ts).
Proof. intros. apply gather_in_range. eapply in_range_table; eauto. Qed.

Ltac run_method :=
  unfold bind, attr, lift, ret; cbn [self generator world fst snd].

Lemma add_noise_runs (s : NoiseScheduler) (x_start x_noise : points)
    (timesteps : index_tensor) (g : Generator) :
  well_formed s ->
  length timesteps = length x_start ->
  length timesteps = length x_noise ->
  Forall (in_range s) timesteps ->
  add_noise x_start x_noise timesteps (world s g) =
  (Ok (zip3_with
         (fun t p n =>
            (coef (sqrt_alphas_cumprod s) t * fst p +
               coef (sqrt_one_minus_alphas_cumprod s) t * fst n * adjustment_at s t p,
             coef (sqrt_alphas_cumprod s) t * snd p +
               coef (sqrt_one_minus_alphas_cumprod s) t * snd n * adjustment_at s t p))
         timesteps x_start x_noise),
   world s g).
Proof.
  intros Hwf Hx Hn Hts.
  pose proof Hwf as (_ & _ & _ & _ & _ & _ & H1 & H2 & _).
  unfold add_noise. run_method.
  rewrite (gather_table s) by assumption. run_method.
  rewrite (gather_table s) by assumption. run_method.
  rewrite (get_grid_noise_adjustment_runs s timesteps x_start g Hwf Hx Hts).
  rewrite !mul_col_points_batch by assumption.
  unfold mul_points_col, add_points.
  rewrite broadcast_same_length by (rewrite !length_zip_with; congruence).
  rewrite broadcast_same_length
    by (rewrite !length_zip_with; try congruence; rewrite !length_zip_with; congruence).
  do 2 f_equal.
  clear. revert x_start x_noise.
  induction timesteps as [| t ts IH]; intros [| p x] [| n xn]; cbn; try reflexivity.
  now rewrite IH.
Qed.

Lemma reconstruct_x0_runs_batch (s : NoiseScheduler) (x_t : points)
    (t : index_tensor) (noise : points) (g : Generator) :
  well_formed s ->
  length t = length x_t ->
  length t = length noise ->
  Forall (in_range s) t ->
  reconstruct_x0 x_t t noise (world s g) =
  (Ok (zip3_with
         (fun t p n =>
            (coef (sqrt_inv_alphas_cumprod s) t * fst p -
               coef (sqrt_inv_alphas_cumprod_minus_one s) t * fst n,
             coef (sqrt_inv_alphas_cumprod s) t * snd p -
               coef (sqrt_inv_alphas_cumprod_minus_one s) t * snd n))
         t x_t noise),
   world s g).
Proof.
  intros Hwf Hx Hn Hts.
  pose proof Hwf as (_ & _ & _ & _ & _ & _ & _ & _ & H1 & H2 & _).
  unfold reconstruct_x0. run_method.
  rewrite (gather_table s) by assumption. run_method.
  rewrite (gather_table s) by assumption. run_method.
  rewrite !mul_col_points_batch by assumption.
  unfold sub_points.
  rewrite broadcast_same_length by (rewrite !length_zip_with; congruence).
  now rewrite zip_with_nest3.
Qed.

Lemma gather_scalar (s : NoiseScheduler) (table : tensor1) (t : Z) :
  length table = Z.to_nat (num_timesteps s) ->
  in_range s t ->
  gather table [t] = Ok [coef table t].
Proof.
  intros Hlen Ht. apply (gather_table s table [t] Hlen). now constructor.
Qed.

Lemma zip_with_scale_points (f : R * R -> R * R -> R * R) (c1 c2 : R) (x y : points) :
  zip_with f (scale_points c1 x) (scale_points c2 y) =
  zip_with (fun p q => f (c1 * fst p, c1 * snd p) (c2 * fst q, c2 * snd q)) x y.
Proof.
  unfold scale_points. now rewrite zip_with_map_l, zip_with_map_r.
Qed.

Lemma reconstruct_x0_runs_scalar (s : NoiseScheduler) (x_t : points) (t : Z)
    (noise : points) (g : Generator) :
  well_formed s ->
  in_range s t ->
  length x_t = length noise ->
  reconstruct_x0 x_t [t] noise (world s g) =
  (Ok (zip_with
         (fun p n =>
            (coef (sqrt_inv_alphas_cumprod s) t * fst p -
               coef (sqrt_inv_alphas_cumprod_minus_one s) t * fst n,
             coef (sqrt_inv_alphas_cumprod s) t * snd p -
               coef (sqrt_inv_alphas_cumprod_minus_one s) t * snd n))
         x_t noise),
   world s g).
Proof.
  intros Hwf Ht Hlen.
  pose proof Hwf as (_ & _ & _ & _ & _ & _ & _ & _ & H1 & H2 & _).
  unfold reconstruct_x0. run_method.
  rewrite (gather_scalar s) by assumption. run_method.
  rewrite (gather_scalar s) by assumption. run_method.
  rewrite !mul_col_points_scalar.
  unfold sub_points.
  rewrite broadcast_same_length by (unfold scale_points; now rewrite !length_map).
  now rewrite zip_with_scale_points.
Qed.

Lemma q_posterior_runs_scalar (s : NoiseScheduler) (x_0 x_t : points) (t : Z)
    (g : Generator) :
  well_formed s ->
  in_range s t ->
  length x_0 = length x_t ->
  q_posterior x_0 x_t [t] (world s g) =
  (Ok (zip_with
         (fun p q =>
            (coef (posterior_mean_coef1 s) t * fst p +
               coef (posterior_mean_coef2 s) t * fst q,
             coef (posterior_mean_coef1 s) t * snd p +
               coef (posterior_mean_coef2 s) t * snd q))
         x_0 x_t),
   world s g).
Proof.
  intros Hwf Ht Hlen.
  pose proof Hwf as (_ & _ & _ & _ & _ & _ & _ & _ & _ & _ & H1 & H2 & _).
  unfold q_posterior. run_method.
  rewrite (gather_scalar s) by assumption. run_method.
  rewrite (gather_scalar s) by assumption. run_method.
  rewrite !mul_col_points_scalar.
  unfold add_points.
  rewrite broadcast_same_length by (unfold scale_points; now rewrite !length_map).
  now rewrite zip_with_scale_points.
Qed.

Lemma get_variance_runs (s : NoiseScheduler) (t : Z) (g : Generator) :
  well_formed s ->
  in_range s t ->
  t <> 0%Z ->
  get_variance t (world s g) =
  (Ok (Rmax (coef (betas s) t * (1 - coef (alphas_cumprod_prev s) t) /
               (1 - coef (alphas_cumprod s) t)) 1e-20),
   world s g).
Proof.
  intros Hwf Ht Hnz.
  pose proof Hwf as (_ & _ & H1 & _ & H2 & H3 & _).
  unfold in_range in Ht.
  unfold get_variance. destruct (Z.eqb_spec t 0) as [E | _]; [contradiction |].
  run_method.
  rewrite (getitem_in_range (betas s) t 0) by lia. run_method.
  rewrite (getitem_in_range (alphas_cumprod_prev s) t 0) by lia. run_method.
  rewrite (getitem_in_range (alphas_cumprod s) t 0) by lia.
  reflexivity.
Qed.

Lemma add_zero_points (x : points) :
  map (fun p => (fst p + 0, snd p + 0)) x = x.
Proof.
  induction x as [| [a b] x IH]; cbn; [reflexivity |].
  now rewrite IH, !Rplus_0_r.
Qed.

Lemma length_randn_like (x : points) (g : Generator) :
  length (fst (randn_like x g)) = length x.
Proof. unfold randn_like. cbn. now rewrite length_map, length_seq. Qed.

Lemma posterior_of_reconstruction_runs (s : NoiseScheduler) (model_output : points)
    (t : Z) (sample : points) :
  well_formed s ->
  in_range s t ->
  length model_output = length sample ->
  exists mu,
    length mu = length sample /\
    forall g,
      bind (reconstruct_x0 sample [t] model_output)
           (fun x_0 => q_posterior x_0 sample [t]) (world s g) = (Ok mu, world s g).
Proof.
  intros Hwf Ht Hlen. eexists. split; cycle 1.
  - intros g.
    erewrite bind_returns
      by (apply reconstruct_x0_runs_scalar; [assumption | assumption | congruence]).
    apply q_posterior_runs_scalar; [assumption | assumption |].
    rewrite length_zip_with; congruence.
  - rewrite !length_zip_with; try congruence.
    rewrite length_zip_with; congruence.
Qed.

Lemma step_runs (s : NoiseScheduler) (model_output : points) (t : Z)
    (sample mu : points) (g : Generator) :
  well_formed s ->
  in_range s t ->
  length model_output = length sample ->
  bind (reconstruct_x0 sample [t] model_output)
       (fun x_0 => q_posterior x_0 sample [t]) (world s g) = (Ok mu, world s g) ->
  step model_output t sample (world s g) =
  if (0 <? t)%Z then
    (Ok (zip_with (fun m z => (fst m + fst z, snd m + snd z)) mu
           (scale_points
              (sqrt (Rmax (coef (betas s) t * (1 - coef (alphas_cumprod_prev s) t) /
                             (1 - coef (alphas_cumprod s) t)) 1e-20))
              (fst (randn_like model_output g)))),
     world s (snd (randn_like model_output g)))
  else (Ok mu, world s g).
Proof.
  intros Hwf Ht Hlen Hmu.
  destruct (posterior_of_reconstruction_runs s model_output t sample Hwf Ht Hlen)
    as (mu' & Hlmu & Hmu').
  specialize (Hmu' g). rewrite Hmu in Hmu'. injection Hmu' as <-.
  unfold step. cbv zeta.
  unfold bind in Hmu. unfold bind at 1.
  destruct (reconstruct_x0 sample [t] model_output (world s g)) as [[x_0 | e] w1];
    [| discriminate].
  unfold bind at 1. rewrite Hmu.
  destruct (Z.ltb_spec 0 t) as [Hpos | Hzero].
  - unfold bind at 1. unfold bind at 1.
    unfold randn_like_m at 1. cbn [self generator world].
    change (randn_like model_output g)
      with (fst (randn_like model_output g), snd (randn_like model_output g)).
    cbv iota beta.
    unfold bind at 1.
    change {| self := s; generator := snd (randn_like model_output g) |}
      with (world s (snd (randn_like model_output g))).
    rewrite get_variance_runs by (try assumption; lia).
    unfold ret at 1. unfold bind at 1, lift, add_any, add_points, pow_half.
    rewrite broadcast_same_length.
    + reflexivity.
    + unfold scale_points. rewrite length_map, length_randn_like. congruence.
  - unfold bind, ret, lift, add_any. now rewrite add_zero_points.
Qed.

(** ** The forward and the reverse transition *)

(** C1. On a well-formed scheduler, for clean samples, noise samples and
    in-range timesteps of one batch size, [add_noise] returns, sample by
    sample, [s1 * x0 + s2 * noise * a] with [s1 = sqrt_alphas_cumprod[t]],
    [s2 = sqrt_one_minus_alphas_cumprod[t]] and [a] the entry of
    [get_grid_noise_adjustment(t, x0)] for that sample, computed on the
    clean point. The result is a function of the inputs, the tables and
    the grids: the generator plays no part and is left as it was. *)
Theorem add_noise_formula (s : NoiseScheduler) (x0 noise : points) (ts : index_tensor) :
  well_formed s ->
  length ts = length x0 ->
  length ts = length noise ->
  Forall (in_range s) ts ->
  exists (a : tensor1) (xt : points),
    length a = length x0 /\ length xt = length x0 /\
    (forall g, get_grid_noise_adjustment ts x0 (world s g) = (Ok a, world s g)) /\
    (forall g, add_noise x0 noise ts (world s g) = (Ok xt, world s g)) /\
    forall i, (i < length x0)%nat ->
      let t := nth i ts 0%Z in
      let s1 := coef (sqrt_alphas_cumprod s) t in
      let s2 := coef (sqrt_one_minus_alphas_cumprod s) t in
      nth i xt (0, 0) =
        (s1 * fst (nth i x0 (0, 0)) + s2 * fst (nth i noise (0, 0)) * nth i a 0,
         s1 * snd (nth i x0 (0, 0)) + s2 * snd (nth i noise (0, 0)) * nth i a 0).
Proof.
  intros Hwf Hx Hn Hts.
  eexists. eexists. split; [| split; [| split; [| split]]].
  3: { intros g. now apply get_grid_noise_adjustment_runs. }
  3: { intros g. now apply add_noise_runs. }
  - rewrite length_zip_with; congruence.
  - rewrite length_zip3_with; congruence.
  - intros i Hi. cbv zeta.
    rewrite (nth_zip3_with _ ts x0 noise i 0%Z (0, 0) (0, 0)) by congruence.
    rewrite (nth_zip_with _ ts x0 i 0%Z (0, 0)) by congruence.
    reflexivity.
Qed.

(** C3. On a well-formed scheduler, for an in-range timestep [t] and a
    predicted noise and a sample of one batch size, let [mu] be
    [q_posterior(reconstruct_x0(xt, t, predictedNoise), xt, t)]. For
    [t = 0], [step] returns exactly [mu] and draws nothing. For [t > 0] it
    returns [mu + sqrt(get_variance(t)) * z], where [z] is the next
    standard-normal draw of the shape of the predicted noise, and leaves
    the generator advanced past that draw. *)
Theorem step_composition (s : NoiseScheduler) (predicted_noise : points) (t : Z)
    (xt : points) :
  well_formed s ->
  in_range s t ->
  length predicted_noise = length xt ->
  exists mu : points,
    (forall g,
        bind (reconstruct_x0 xt [t] predicted_noise)
             (fun x_0 => q_posterior x_0 xt [t]) (world s g) = (Ok mu, world s g)) /\
    (t = 0%Z ->
       forall g, step predicted_noise t xt (world s g) = (Ok mu, world s g)) /\
    ((0 < t)%Z ->
       exists variance : R,
         (forall g, get_variance t (world s g) = (Ok variance, world s g)) /\
         forall g,
           let z := fst (randn_like predicted_noise g) in
           step predicted_noise t xt (world s g) =
           (Ok (zip_with (fun m n => (fst m + fst n, snd m + snd n)) mu
                  (scale_points (sqrt variance) z)),
            world s (snd (randn_like predicted_noise g)))).
Proof.
  intros Hwf Ht Hlen.
  destruct (posterior_of_reconstruction_runs s predicted_noise t xt Hwf Ht Hlen)
    as (mu & Hlmu & Hmu).
  exists mu. split; [exact Hmu | split].
  - intros -> g. rewrite (step_runs s predicted_noise 0 xt mu g); auto.
  - intros Hpos. eexists. split.
    + intros g. apply get_variance_runs; [assumption | assumption | lia].
    + intros g. cbv zeta.
      rewrite (step_runs s predicted_noise t xt mu g); auto.
      destruct (Z.ltb_spec 0 t); [reflexivity | lia].
Qed.

(** ** Construction *)

Tactic Notation "invert_rbind" hyp(H) ident(E) :=
  match type of H with
  | rbind ?c _ = Ok _ =>
      let v := fresh "v" in
      let e := fresh "e" in
      destruct c as [v | e] eqn:E; cbn [rbind] in H; [| discriminate H]
  end.

Lemma init_inversion (cfg : Config) (s : NoiseScheduler) :
  __init__ cfg = Ok s ->
  ((cfg_beta_schedule cfg = "linear"%string /\
    linspace (cfg_beta_start cfg) (cfg_beta_end cfg) (cfg_num_timesteps cfg) =
      Ok (betas s)) \/
   (cfg_beta_schedule cfg = "quadratic"%string /\
    exists l,
      linspace (sqrt (cfg_beta_start cfg)) (sqrt (cfg_beta_end cfg))
        (cfg_num_timesteps cfg) = Ok l /\
      betas s = map (fun b => b ^ 2) l)) /\
  num_timesteps s = cfg_num_timesteps cfg /\
  coarse_grid_size s = cfg_coarse_grid_size cfg /\
  fine_grid_size s = cfg_fine_grid_size cfg /\
  alphas s = map (fun b => 1 - b) (betas s) /\
  alphas_cumprod s = cumprod (alphas s) /\
  alphas_cumprod_prev s = 1 :: removelast (alphas_cumprod s) /\
  sqrt_alphas_cumprod s = map sqrt (alphas_cumprod s) /\
  sqrt_one_minus_alphas_cumprod s = map (fun a => sqrt (1 - a)) (alphas_cumprod s) /\
  sqrt_inv_alphas_cumprod s = map (fun a => sqrt (1 / a)) (alphas_cumprod s) /\
  sqrt_inv_alphas_cumprod_minus_one s =
    map (fun a => sqrt (1 / a - 1)) (alphas_cumprod s) /\
  (exists num,
      mul1 (betas s) (map sqrt (alphas_cumprod_prev s)) = Ok num /\
      div1 num (map (fun a => 1 - a) (alphas_cumprod s)) = Ok (posterior_mean_coef1 s)) /\
  (exists num,
      mul1 (map (fun a => 1 - a) (alphas_cumprod_prev s)) (map sqrt (alphas s)) = Ok num /\
      div1 num (map (fun a => 1 - a) (alphas_cumprod s)) = Ok (posterior_mean_coef2 s)) /\
  ones (cfg_num_timesteps cfg) (cfg_coarse_grid_size cfg) (cfg_coarse_grid_size cfg) =
    Ok (coarse_noise_grid s) /\
  ones (cfg_num_timesteps cfg) (cfg_fine_grid_size cfg) (cfg_fine_grid_size cfg) =
    Ok (fine_noise_grid s).
Proof.
  intros H. unfold __init__ in H. cbv zeta in H.
  invert_rbind H Eb. invert_rbind H E1. invert_rbind H E2.
  invert_rbind H E3. invert_rbind H E4. invert_rbind H E5. invert_rbind H E6.
  injection H as <-. cbn.
  unfold pad_left, drop_last, pow_half in *.
  repeat split; eauto.
  destruct (String.eqb_spec (cfg_beta_schedule cfg) "linear") as [El | _].
  - left. now split.
  - destruct (String.eqb_spec (cfg_beta_schedule cfg) "quadratic") as [Eq | _];
      [| discriminate Eb].
    right. split; [exact Eq |].
    destruct (linspace _ _ _) as [l | e]; cbn in Eb; [| discriminate Eb].
    injection Eb as <-. now exists l.
Qed.

Lemma linspace_inversion (a b : R) (T : Z) (l : tensor1) :
  linspace a b T = Ok l ->
  (0 <= T)%Z /\
  l = map (fun i => a + INR i * ((b - a) / (INR (Z.to_nat T) - 1))) (seq 0 (Z.to_nat T)).
Proof.
  unfold linspace. destruct (Z.ltb_spec T 0) as [Hneg | Hpos]; [discriminate |].
  intros H. injection H as <-. now split.
Qed.

Lemma linspace_length (a b : R) (T : Z) (l : tensor1) :
  linspace a b T = Ok l -> length l = Z.to_nat T.
Proof.
  intros H. apply linspace_inversion in H as [_ ->].
  now rewrite length_map, length_seq.
Qed.

Lemma linspace_bounds (a b : R) (T : Z) (l : tensor1) :
  a <= b -> linspace a b T = Ok l -> Forall (fun x => a <= x <= b) l.
Proof.
  intros Hab H. apply linspace_inversion in H as [_ ->].
  set (n := Z.to_nat T). apply Forall_forall. intros x Hx.
  apply in_map_iff in Hx as (i & <- & Hi). apply in_seq in Hi.
  destruct (Nat.eq_dec n 1) as [-> | Hn].
  - replace i with 0%nat by lia. cbn. lra.
  - assert (Hn2 : (2 <= n)%nat) by lia.
    assert (Hi' : INR i <= INR n - 1).
    { replace (INR n - 1) with (INR (n - 1)) by (rewrite minus_INR by lia; cbn; lra).
      apply le_INR. lia. }
    assert (Hden : 0 < INR n - 1).
    { apply le_INR in Hn2. cbn in Hn2. lra. }
    pose proof (pos_INR i) as Hi0.
    set (d := (b - a) / (INR n - 1)).
    assert (Hd : 0 <= d).
    { unfold d. apply Rmult_le_pos; [lra |]. left. now apply Rinv_0_lt_compat. }
    assert (Hfull : (INR n - 1) * d = b - a) by (unfold d; field; lra).
    split; nra.
Qed.

Lemma init_betas_bounds (cfg : Config) (s : NoiseScheduler) :
  __init__ cfg = Ok s ->
  0 < cfg_beta_start cfg -> cfg_beta_start cfg <= cfg_beta_end cfg ->
  length (betas s) = Z.to_nat (cfg_num_timesteps cfg) /\
  Forall (fun b => cfg_beta_start cfg <= b <= cfg_beta_end cfg) (betas s).
Proof.
  intros H H0 Hle.
  apply init_inversion in H as ([[_ Hlin] | (_ & l & Hlin & Hq)] & _).
  - split; [eapply linspace_length | eapply linspace_bounds]; eauto.
  - rewrite Hq. split.
    + rewrite length_map. eapply linspace_length; eauto.
    + assert (Hs : sqrt (cfg_beta_start cfg) <= sqrt (cfg_beta_end cfg))
        by now apply sqrt_le_1_alt.
      pose proof (linspace_bounds _ _ _ _ Hs Hlin) as Hb.
      apply Forall_map. eapply Forall_impl; [| exact Hb].
      intros x [Hx1 Hx2]. cbn beta.
      pose proof (sqrt_lt_R0 _ H0) as Hpos.
      pose proof (sqrt_sqrt (cfg_beta_start cfg)) as E1.
      pose proof (sqrt_sqrt (cfg_beta_end cfg)) as E2.
      split; nra.
Qed.

Lemma length_cumprod_from (acc : R) (a : tensor1) :
  length (cumprod_from acc a) = length a.
Proof.
  revert acc. induction a as [| x a IH]; intros acc; cbn; [reflexivity |].
  now rewrite IH.
Qed.

Lemma cumprod_from_bounds (acc : R) (a : tensor1) :
  0 < acc ->
  Forall (fun x => 0 < x < 1) a ->
  Forall (fun c => 0 < c < acc) (cumprod_from acc a).
Proof.
  intros Hacc Ha. revert acc Hacc.
  induction Ha as [| x a Hx _ IH]; intros acc Hacc; cbn; constructor.
  - nra.
  - assert (Hprod : 0 < acc * x) by nra.
    eapply Forall_impl; [| apply (IH _ Hprod)].
    intros c Hc. cbn beta in *. nra.
Qed.

Lemma cumprod_from_antitone (acc : R) (a : tensor1) (i j : nat) :
  0 < acc ->
  Forall (fun x => 0 < x < 1) a ->
  (i <= j < length a)%nat ->
  nth j (cumprod_from acc a) 0 <= nth i (cumprod_from acc a) 0.
Proof.
  intros Hacc Ha. revert acc Hacc i j.
  induction Ha as [| x a Hx Ha IH]; intros acc Hacc i j Hij; cbn in Hij; [lia |].
  assert (Hprod : 0 < acc * x) by nra.
  destruct j as [| j].
  - replace i with 0%nat by lia. lra.
  - destruct i as [| i]; cbn.
    + pose proof (cumprod_from_bounds _ _ Hprod Ha) as Hb.
      rewrite Forall_forall in Hb.
      assert (Hin : In (nth j (cumprod_from (acc * x) a) 0) (cumprod_from (acc * x) a)).
      { apply nth_In. rewrite length_cumprod_from. lia. }
      apply Hb in Hin. lra.
    + apply IH; [exact Hprod | lia].
Qed.

Lemma coef_map (f : R -> R) (table : tensor1) (t : Z) :
  (0 <= t < Z.of_nat (length table))%Z ->
  coef (map f table) t = f (coef table t).
Proof.
  intros Ht. unfold coef.
  rewrite (nth_indep _ 0 (f 0)) by (rewrite length_map; lia).
  apply map_nth.
Qed.

Lemma length_ones (d0 d1 d2 : Z) (g : tensor3) :
  ones d0 d1 d2 = Ok g ->
  has_shape g (Z.to_nat d0) (Z.to_nat d1) (Z.to_nat d2) /\ all_ones g /\
  g = repeat (repeat (repeat 1 (Z.to_nat d2)) (Z.to_nat d1)) (Z.to_nat d0).
Proof.
  unfold ones. destruct ((d0 <? 0)%Z || (d1 <? 0)%Z || (d2 <? 0)%Z); [discriminate |].
  intros H. injection H as <-. split; [| split]; [| | reflexivity].
  - split; [apply repeat_length |].
    apply Forall_forall. intros plane Hp. apply repeat_spec in Hp as ->.
    split; [apply repeat_length |].
    apply Forall_forall. intros row Hr. apply repeat_spec in Hr as ->.
    apply repeat_length.
  - apply Forall_forall. intros plane Hp. apply repeat_spec in Hp as ->.
    apply Forall_forall. intros row Hr. apply repeat_spec in Hr as ->.
    apply Forall_forall. intros v Hv. now apply repeat_spec in Hv.
Qed.

Lemma length_removelast_pred {A} (l : list A) :
  length (removelast l) = pred (length l).
Proof. rewrite removelast_firstn_len, length_firstn. lia. Qed.

Lemma broadcast_length_same {A B C} (f : A -> B -> C) xs ys l :
  length xs = length ys ->
  broadcast f xs ys = Ok l ->
  length l = length xs.
Proof.
  intros Hlen H. rewrite broadcast_same_length in H by exact Hlen.
  injection H as <-. now apply length_zip_with.
Qed.

Lemma init_betas_length (cfg : Config) (s : NoiseScheduler) :
  __init__ cfg = Ok s -> length (betas s) = Z.to_nat (cfg_num_timesteps cfg).
Proof.
  intros H.
  apply init_inversion in H as ([[_ Hlin] | (_ & l & Hlin & Hq)] & _).
  - eapply linspace_length; eauto.
  - rewrite Hq, length_map. eapply linspace_length; eauto.
Qed.

Lemma init_table_lengths (cfg : Config) (s : NoiseScheduler) :
  __init__ cfg = Ok s ->
  (0 < cfg_num_timesteps cfg)%Z ->
  let T := Z.to_nat (cfg_num_timesteps cfg) in
  length (betas s) = T /\
  length (alphas s) = T /\
  length (alphas_cumprod s) = T /\
  length (alphas_cumprod_prev s) = T /\
  length (sqrt_alphas_cumprod s) = T /\
  length (sqrt_one_minus_alphas_cumprod s) = T /\
  length (sqrt_inv_alphas_cumprod s) = T /\
  length (sqrt_inv_alphas_cumprod_minus_one s) = T /\
  length (posterior_mean_coef1 s) = T /\
  length (posterior_mean_coef2 s) = T.
Proof.
  intros H HT T.
  pose proof (init_betas_length cfg s H) as Hb. fold T in Hb.
  apply init_inversion in H
    as (_ & _ & _ & _ & Ha & Hac & Hacp & H1 & H2 & H3 & H4 &
        (n1 & Hn1 & Hc1) & (n2 & Hn2 & Hc2) & _).
  assert (La : length (alphas s) = T) by now rewrite Ha, length_map.
  assert (Lac : length (alphas_cumprod s) = T).
  { rewrite Hac. unfold cumprod. now rewrite length_cumprod_from. }
  assert (Lacp : length (alphas_cumprod_prev s) = T).
  { rewrite Hacp. cbn. rewrite length_removelast_pred, Lac. unfold T. lia. }
  assert (Ln1 : length n1 = T).
  { unfold mul1 in Hn1. apply broadcast_length_same in Hn1.
    - congruence.
    - rewrite length_map. congruence. }
  assert (Ln2 : length n2 = T).
  { unfold mul1 in Hn2. apply broadcast_length_same in Hn2.
    - rewrite Hn2, length_map. exact Lacp.
    - rewrite !length_map. congruence. }
  unfold div1 in Hc1, Hc2.
  apply broadcast_length_same in Hc1; [| rewrite length_map; congruence].
  apply broadcast_length_same in Hc2; [| rewrite length_map; congruence].
  rewrite H1, H2, H3, H4, !length_map.
  repeat split; congruence.
Qed.

Lemma init_well_formed (cfg : Config) (s : NoiseScheduler) :
  __init__ cfg = Ok s ->
  (0 < cfg_num_timesteps cfg)%Z ->
  (0 < cfg_coarse_grid_size cfg)%Z ->
  (0 < cfg_fine_grid_size cfg)%Z ->
  well_formed s.
Proof.
  intros H HT Hc Hf.
  pose proof (init_table_lengths cfg s H HT) as HL. cbv zeta in HL.
  apply init_inversion in H
    as (_ & ET & Ec & Ef & _ & _ & _ & _ & _ & _ & _ & _ & _ & Hcg & Hfg).
  apply length_ones in Hcg as (Hcg & _). apply length_ones in Hfg as (Hfg & _).
  unfold well_formed. rewrite ET, Ec, Ef.
  destruct HL as (? & ? & ? & ? & ? & ? & ? & ? & ? & ?).
  repeat split; try assumption; try apply Hcg; try apply Hfg.
Qed.

Lemma init_alphas_cumprod_bounds (cfg : Config) (s : NoiseScheduler) :
  __init__ cfg = Ok s ->
  0 < cfg_beta_start cfg -> cfg_beta_start cfg <= cfg_beta_end cfg ->
  cfg_beta_end cfg < 1 ->
  Forall (fun x => 0 < x < 1) (alphas s) /\
  Forall (fun a => 0 < a < 1) (alphas_cumprod s).
Proof.
  intros H H0 Hle H1.
  pose proof (init_betas_bounds cfg s H H0 Hle) as [_ Hb].
  apply init_inversion in H as (_ & _ & _ & _ & Ha & Hac & _).
  assert (Halpha : Forall (fun x => 0 < x < 1) (alphas s)).
  { rewrite Ha. apply Forall_map. eapply Forall_impl; [| exact Hb].
    intros b Hbb. cbn beta in *. lra. }
  split; [exact Halpha |].
  rewrite Hac. unfold cumprod. apply cumprod_from_bounds; [lra | exact Halpha].
Qed.

(** C4. [get_variance(0)] returns exactly 0. On a well-formed scheduler,
    for [0 < t < T], [get_variance(t)] returns
    [beta[t] * (1 - alphas_cumprod_prev[t]) / (1 - alphas_cumprod[t])]
    floored at [1e-20], so that the value returned is at least [1e-20].
    On a scheduler constructed from a valid configuration the divisor
    [1 - alphas_cumprod[t]] is positive. *)
Theorem get_variance_cases :
  (forall w, get_variance 0 w = (Ok 0, w)) /\
  (forall s t g,
      well_formed s ->
      (0 < t < num_timesteps s)%Z ->
      exists v,
        get_variance t (world s g) = (Ok v, world s g) /\
        v = Rmax (coef (betas s) t * (1 - coef (alphas_cumprod_prev s) t) /
                    (1 - coef (alphas_cumprod s) t)) 1e-20 /\
        1e-20 <= v) /\
  (forall cfg s t,
      __init__ cfg = Ok s ->
      valid_config cfg ->
      (0 < t < num_timesteps s)%Z ->
      well_formed s /\ 0 < 1 - coef (alphas_cumprod s) t).
Proof.
  split; [| split].
  - intros w. reflexivity.
  - intros s t g Hwf Ht. eexists. split; [| split].
    + apply get_variance_runs; [assumption | unfold in_range; lia | lia].
    + reflexivity.
    + apply Rmax_r.
  - intros cfg s t H (HT & [Hb0 Hb1] & Hb2 & _ & Hc & Hf) Ht.
    split; [eapply init_well_formed; eauto |].
    pose proof (init_alphas_cumprod_bounds cfg s H Hb0 (Rlt_le _ _ Hb1) Hb2) as [_ Hac].
    pose proof (init_table_lengths cfg s H HT) as (_ & _ & Lac & _). cbv zeta in Lac.
    pose proof (init_inversion cfg s H) as (_ & ET & _).
    rewrite Forall_forall in Hac.
    assert (Hin : In (coef (alphas_cumprod s) t) (alphas_cumprod s)).
    { unfold coef. apply nth_In. lia. }
    apply Hac in Hin. lra.
Qed.

(** C6. For a configuration with a positive number of timesteps [T] and
    [0 < beta_start < beta_end < 1], the tables of the scheduler that the
    constructor returns all have length [T] (betas, alphas, alphas_cumprod,
    alphas_cumprod_prev and the six derived tables), [alphas_cumprod] is
    non-increasing with every entry in (0, 1], and
    [alphas_cumprod_prev[0]] is 1. *)
Theorem coefficient_table_invariants (cfg : Config) (s : NoiseScheduler) :
  __init__ cfg = Ok s ->
  (0 < cfg_num_timesteps cfg)%Z ->
  0 < cfg_beta_start cfg < cfg_beta_end cfg ->
  cfg_beta_end cfg < 1 ->
  let T := Z.to_nat (cfg_num_timesteps cfg) in
  (length (betas s) = T /\
   length (alphas s) = T /\
   length (alphas_cumprod s) = T /\
   length (alphas_cumprod_prev s) = T /\
   length (sqrt_alphas_cumprod s) = T /\
   length (sqrt_one_minus_alphas_cumprod s) = T /\
   length (sqrt_inv_alphas_cumprod s) = T /\
   length (sqrt_inv_alphas_cumprod_minus_one s) = T /\
   length (posterior_mean_coef1 s) = T /\
   length (posterior_mean_coef2 s) = T) /\
  (forall i j, (i <= j < T)%nat ->
     nth j (alphas_cumprod s) 0 <= nth i (alphas_cumprod s) 0) /\
  Forall (fun a => 0 < a <= 1) (alphas_cumprod s) /\
  nth 0 (alphas_cumprod_prev s) 0 = 1.
Proof.
  intros H HT [H0 Hlt] H1 T.
  pose proof (init_table_lengths cfg s H HT) as HL.
  pose proof (init_alphas_cumprod_bounds cfg s H H0 (Rlt_le _ _ Hlt) H1) as [Ha Hac].
  split; [exact HL | split; [| split]].
  - intros i j Hij.
    pose proof (init_inversion cfg s H) as (_ & _ & _ & _ & _ & E & _).
    rewrite E. unfold cumprod. apply cumprod_from_antitone; [lra | exact Ha |].
    destruct HL as (_ & -> & _). exact Hij.
  - eapply Forall_impl; [| exact Hac]. intros a Hq. cbn beta in *. lra.
  - pose proof (init_inversion cfg s H) as (_ & _ & _ & _ & _ & _ & -> & _).
    reflexivity.
Qed.

(** C8. Two constructions from configurations that differ at most in
    [fine_grid_size] give the same coarse grid: it has shape
    (T, coarse_grid_size, coarse_grid_size) and every entry is 1. *)
Theorem coarse_grid_ignores_fine_grid_size
    (cfg : Config) (fine_grid_size' : Z) (s1 s2 : NoiseScheduler) :
  __init__ cfg = Ok s1 ->
  __init__ (with_fine_grid_size cfg fine_grid_size') = Ok s2 ->
  coarse_noise_grid s1 = coarse_noise_grid s2 /\
  has_shape (coarse_noise_grid s1) (Z.to_nat (cfg_num_timesteps cfg))
    (Z.to_nat (cfg_coarse_grid_size cfg)) (Z.to_nat (cfg_coarse_grid_size cfg)) /\
  has_shape (coarse_noise_grid s2) (Z.to_nat (cfg_num_timesteps cfg))
    (Z.to_nat (cfg_coarse_grid_size cfg)) (Z.to_nat (cfg_coarse_grid_size cfg)) /\
  all_ones (coarse_noise_grid s1) /\
  all_ones (coarse_noise_grid s2).
Proof.
  intros H1 H2.
  apply init_inversion in H1
    as (_ & _ & _ & _ & _ & _ & _ & _ & _ & _ & _ & _ & _ & Hg1 & _).
  apply init_inversion in H2
    as (_ & _ & _ & _ & _ & _ & _ & _ & _ & _ & _ & _ & _ & Hg2 & _).
  cbn in Hg2.
  assert (E : coarse_noise_grid s1 = coarse_noise_grid s2) by congruence.
  apply length_ones in Hg1 as (Hs & Ho & _).
  rewrite <- E. repeat split; try apply Hs; exact Ho.
Qed.

(** ** The untrained scheduler *)

Lemma grid_entry_all_ones (g : tensor3) (d0 d1 d2 : nat) (t i j : Z) :
  has_shape g d0 d1 d2 -> all_ones g ->
  (0 <= t < Z.of_nat d0)%Z -> (0 <= i < Z.of_nat d1)%Z -> (0 <= j < Z.of_nat d2)%Z ->
  grid_entry g t i j = 1.
Proof.
  intros [Hlen Hplanes] Hones Ht Hi Hj. unfold grid_entry.
  unfold all_ones in Hones. rewrite Forall_forall in Hplanes, Hones.
  assert (Hin : In (nth (Z.to_nat t) g []) g) by (apply nth_In; lia).
  destruct (Hplanes _ Hin) as [Hl1 Hrows]. specialize (Hones _ Hin).
  rewrite Forall_forall in Hrows, Hones.
  assert (Hin' : In (nth (Z.to_nat i) (nth (Z.to_nat t) g []) []) (nth (Z.to_nat t) g []))
    by (apply nth_In; lia).
  specialize (Hrows _ Hin'). specialize (Hones _ Hin').
  rewrite Forall_forall in Hones. apply Hones. apply nth_In. lia.
Qed.

Lemma init_adjustment_is_one (cfg : Config) (s : NoiseScheduler) (t : Z) (p : R * R) :
  __init__ cfg = Ok s ->
  (0 < cfg_coarse_grid_size cfg)%Z ->
  (0 < cfg_fine_grid_size cfg)%Z ->
  in_range s t ->
  adjustment_at s t p = 1.
Proof.
  intros H Hc Hf Ht. unfold in_range in Ht.
  apply init_inversion in H
    as (_ & ET & Ec & Ef & _ & _ & _ & _ & _ & _ & _ & _ & _ & Hcg & Hfg).
  apply length_ones in Hcg as (Hcs & Hco & _).
  apply length_ones in Hfg as (Hfs & Hfo & _).
  unfold adjustment_at. rewrite Ec, Ef.
  pose proof (grid_cell_bounds (fst p) _ Hc). pose proof (grid_cell_bounds (snd p) _ Hc).
  pose proof (grid_cell_bounds (fst p) _ Hf). pose proof (grid_cell_bounds (snd p) _ Hf).
  rewrite (grid_entry_all_ones _ _ _ _ _ _ _ Hcs Hco) by lia.
  rewrite (grid_entry_all_ones _ _ _ _ _ _ _ Hfs Hfo) by lia.
  lra.
Qed.

Lemma inverse_scalings (a x n : R) :
  0 < a < 1 ->
  sqrt (1 / a) * (sqrt a * x + sqrt (1 - a) * n * 1) - sqrt (1 / a - 1) * n = x.
Proof.
  intros [Ha0 Ha1].
  assert (E1 : sqrt (1 / a) * sqrt a = 1).
  { rewrite <- sqrt_mult_alt by (apply Rlt_le, Rdiv_lt_0_compat; lra).
    replace (1 / a * a) with 1 by (field; lra). apply sqrt_1. }
  assert (E2 : sqrt (1 / a) * sqrt (1 - a) = sqrt (1 / a - 1)).
  { rewrite <- sqrt_mult_alt by (apply Rlt_le, Rdiv_lt_0_compat; lra).
    f_equal. field. lra. }
  replace (sqrt (1 / a) * (sqrt a * x + sqrt (1 - a) * n * 1))
    with (sqrt (1 / a) * sqrt a * x + sqrt (1 / a) * sqrt (1 - a) * n) by ring.
  rewrite E1, E2. ring.
Qed.

(** C2. On the scheduler that the constructor returns for a valid
    configuration (both grids all ones, so that the adjustment factor is 1
    at every timestep and point), for clean samples, noise samples and
    in-range timesteps of one batch size, [reconstruct_x0] applied to the
    result of [add_noise], the same timesteps and the same noise returns
    the clean samples. *)
Theorem reconstruct_x0_inverts_add_noise
    (cfg : Config) (s : NoiseScheduler) (x0 noise : points) (ts : index_tensor) :
  __init__ cfg = Ok s ->
  valid_config cfg ->
  length ts = length x0 ->
  length ts = length noise ->
  Forall (in_range s) ts ->
  forall g,
    get_grid_noise_adjustment ts x0 (world s g) = (Ok (map (fun _ => 1) x0), world s g) /\
    bind (add_noise x0 noise ts) (fun xt => reconstruct_x0 xt ts noise) (world s g) =
    (Ok x0, world s g).
Proof.
  intros H (HT & [Hb0 Hb1] & Hb2 & _ & Hc & Hf) Hx Hn Hts g.
  pose proof (init_well_formed cfg s H HT Hc Hf) as Hwf.
  pose proof (init_alphas_cumprod_bounds cfg s H Hb0 (Rlt_le _ _ Hb1) Hb2) as [_ Hac].
  pose proof (init_adjustment_is_one cfg s) as Hadj.
  pose proof (init_table_lengths cfg s H HT) as (_ & _ & Lac & _). cbv zeta in Lac.
  pose proof (init_inversion cfg s H)
    as (_ & ET & _ & _ & _ & _ & _ & E1 & E2 & E3 & E4 & _).
  split.
  - rewrite get_grid_noise_adjustment_runs by assumption. do 2 f_equal.
    clear Hn. revert x0 Hx.
    induction Hts as [| t ts Ht _ IH]; intros [| p x0] Hx; cbn in *;
      try discriminate; [reflexivity |].
    rewrite (Hadj t p H Hc Hf Ht). f_equal. apply IH. congruence.
  - erewrite bind_returns by (now apply add_noise_runs).
    rewrite reconstruct_x0_runs_batch;
      try assumption; [| rewrite length_zip3_with; congruence].
    do 2 f_equal.
    revert x0 noise Hx Hn.
    induction Hts as [| t ts Ht _ IH]; intros [| [x y] x0] [| [n m] noise] Hx Hn;
      cbn in *; try discriminate; [reflexivity |].
    rewrite IH by congruence. f_equal.
    rewrite (Hadj t (x, y) H Hc Hf Ht).
    unfold in_range in Ht. rewrite ET in Ht.
    assert (Hin : (0 <= t < Z.of_nat (length (alphas_cumprod s)))%Z) by lia.
    rewrite E1, E2, E3, E4.
    rewrite !coef_map by exact Hin.
    assert (Ha : 0 < coef (alphas_cumprod s) t < 1).
    { rewrite Forall_forall in Hac. apply Hac. unfold coef. apply nth_In. lia. }
    f_equal; now apply inverse_scalings.
Qed.

(** ** Which constructions raise *)

Lemma posterior_coefs_defined (bl : tensor1) :
  let al := map (fun b => 1 - b) bl in
  let ac := cumprod al in
  let acp := pad_left 1 (drop_last ac) in
  exists n1 c1 n2 c2,
    mul1 bl (map sqrt acp) = Ok n1 /\
    div1 n1 (map (fun a => 1 - a) ac) = Ok c1 /\
    mul1 (map (fun a => 1 - a) acp) (map sqrt al) = Ok n2 /\
    div1 n2 (map (fun a => 1 - a) ac) = Ok c2.
Proof.
  intros al ac acp.
  destruct (Nat.eq_dec (length bl) 0) as [E | E].
  - apply length_zero_iff_nil in E. subst bl. cbn. now exists [], [], [], [].
  - assert (Lal : length al = length bl) by (unfold al; now rewrite length_map).
    assert (Lac : length ac = length bl)
      by (unfold ac, cumprod; now rewrite length_cumprod_from).
    assert (Lacp : length acp = length bl).
    { unfold acp, pad_left, drop_last. cbn [length].
      rewrite length_removelast_pred, Lac. lia. }
    unfold mul1, div1.
    do 4 eexists.
    rewrite broadcast_same_length by (rewrite length_map; congruence).
    split; [reflexivity |].
    rewrite broadcast_same_length
      by (rewrite length_zip_with, length_map; rewrite ?length_map; congruence).
    split; [reflexivity |].
    rewrite broadcast_same_length by (rewrite !length_map; congruence).
    split; [reflexivity |].
    rewrite broadcast_same_length
      by (rewrite length_zip_with, !length_map; rewrite ?length_map; congruence).
    reflexivity.
Qed.

Lemma ones_defined (d0 d1 d2 : Z) :
  (0 <= d0)%Z -> (0 <= d1)%Z -> (0 <= d2)%Z -> exists g, ones d0 d1 d2 = Ok g.
Proof.
  intros H0 H1 H2. unfold ones.
  destruct (Z.ltb_spec d0 0); [lia |].
  destruct (Z.ltb_spec d1 0); [lia |].
  destruct (Z.ltb_spec d2 0); [lia |].
  cbn. eauto.
Qed.

Lemma ones_refused (d0 d1 d2 : Z) :
  (d0 < 0 \/ d1 < 0 \/ d2 < 0)%Z -> exists msg, ones d0 d1 d2 = Raise (RuntimeError msg).
Proof.
  intros H. unfold ones.
  destruct (Z.ltb_spec d0 0); destruct (Z.ltb_spec d1 0); destruct (Z.ltb_spec d2 0);
    cbn; eauto; lia.
Qed.

Lemma schedule_betas_defined (cfg : Config) :
  known_schedule (cfg_beta_schedule cfg) ->
  (0 <= cfg_num_timesteps cfg)%Z ->
  exists bl,
    (if String.eqb (cfg_beta_schedule cfg) "linear" then
       linspace (cfg_beta_start cfg) (cfg_beta_end cfg) (cfg_num_timesteps cfg)
     else if String.eqb (cfg_beta_schedule cfg) "quadratic" then
       (l <- linspace (pow_half (cfg_beta_start cfg)) (pow_half (cfg_beta_end cfg))
              (cfg_num_timesteps cfg) ;;
        Ok (map (fun b => b ^ 2) l))%result
     else Raise (ValueError ("Unknown beta schedule: " ++ cfg_beta_schedule cfg))) = Ok bl.
Proof.
  intros [-> | ->] HT; cbn; unfold linspace;
    destruct (Z.ltb_spec (cfg_num_timesteps cfg) 0); try lia; cbn; eauto.
Qed.

Lemma schedule_betas_refused (cfg : Config) :
  known_schedule (cfg_beta_schedule cfg) ->
  (cfg_num_timesteps cfg < 0)%Z ->
  exists msg,
    (if String.eqb (cfg_beta_schedule cfg) "linear" then
       linspace (cfg_beta_start cfg) (cfg_beta_end cfg) (cfg_num_timesteps cfg)
     else if String.eqb (cfg_beta_schedule cfg) "quadratic" then
       (l <- linspace (pow_half (cfg_beta_start cfg)) (pow_half (cfg_beta_end cfg))
              (cfg_num_timesteps cfg) ;;
        Ok (map (fun b => b ^ 2) l))%result
     else Raise (ValueError ("Unknown beta schedule: " ++ cfg_beta_schedule cfg))) =
    Raise (RuntimeError msg).
Proof.
  intros [-> | ->] HT; cbn; unfold linspace;
    destruct (Z.ltb_spec (cfg_num_timesteps cfg) 0); try lia; cbn; eauto.
Qed.

Lemma init_defined (cfg : Config) :
  known_schedule (cfg_beta_schedule cfg) ->
  (0 <= cfg_num_timesteps cfg)%Z ->
  (0 <= cfg_coarse_grid_size cfg)%Z ->
  (0 <= cfg_fine_grid_size cfg)%Z ->
  exists s, __init__ cfg = Ok s.
Proof.
  intros Hk HT Hc Hf. unfold __init__. cbv zeta.
  destruct (schedule_betas_defined cfg Hk HT) as (bl & ->). cbn [rbind].
  destruct (posterior_coefs_defined bl) as (n1 & c1 & n2 & c2 & -> & E1 & -> & E2).
  cbn [rbind]. rewrite E1. cbn [rbind]. rewrite E2. cbn [rbind].
  destruct (ones_defined _ _ _ HT Hc Hc) as (cg & ->).
  destruct (ones_defined _ _ _ HT Hf Hf) as (fg & ->).
  cbn [rbind]. eauto.
Qed.

Lemma init_refused (cfg : Config) :
  known_schedule (cfg_beta_schedule cfg) ->
  (cfg_num_timesteps cfg < 0 \/ cfg_coarse_grid_size cfg < 0 \/
   cfg_fine_grid_size cfg < 0)%Z ->
  exists msg, __init__ cfg = Raise (RuntimeError msg).
Proof.
  intros Hk Hneg. unfold __init__. cbv zeta.
  destruct (Z.ltb_spec (cfg_num_timesteps cfg) 0) as [HT | HT].
  - destruct (schedule_betas_refused cfg Hk HT) as (msg & ->). cbn. eauto.
  - destruct (schedule_betas_defined cfg Hk HT) as (bl & ->). cbn [rbind].
    destruct (posterior_coefs_defined bl) as (n1 & c1 & n2 & c2 & -> & E1 & -> & E2).
    cbn [rbind]. rewrite E1. cbn [rbind]. rewrite E2. cbn [rbind].
    destruct (Z.ltb_spec (cfg_coarse_grid_size cfg) 0) as [Hc | Hc].
    + destruct (ones_refused (cfg_num_timesteps cfg) (cfg_coarse_grid_size cfg)
                  (cfg_coarse_grid_size cfg)) as (msg & ->); [lia |].
      cbn. eauto.
    + destruct (ones_defined _ _ _ HT Hc Hc) as (cg & ->). cbn [rbind].
      destruct (ones_refused (cfg_num_timesteps cfg) (cfg_fine_grid_size cfg)
                  (cfg_fine_grid_size cfg)) as (msg & ->); [lia |].
      cbn. eauto.
Qed.

Lemma init_unknown_schedule (cfg : Config) :
  ~ known_schedule (cfg_beta_schedule cfg) ->
  __init__ cfg =
  Raise (ValueError ("Unknown beta schedule: " ++ cfg_beta_schedule cfg)).
Proof.
  intros Hk. unfold __init__. cbv zeta.
  destruct (String.eqb_spec (cfg_beta_schedule cfg) "linear") as [E | _].
  - exfalso. apply Hk. now left.
  - destruct (String.eqb_spec (cfg_beta_schedule cfg) "quadratic") as [E | _].
    + exfalso. apply Hk. now right.
    + reflexivity.
Qed.

(** ** Concrete runs *)

Lemma demo_init : __init__ demo_config = Ok demo_scheduler.
Proof. reflexivity. Qed.

Lemma demo_valid_config : valid_config demo_config.
Proof.
  unfold valid_config, known_schedule, demo_config. cbn.
  repeat split; try lia; try lra. now left.
Qed.

Lemma demo_well_formed : well_formed demo_scheduler.
Proof.
  destruct demo_valid_config as (HT & _ & _ & _ & Hc & Hf).
  exact (init_well_formed demo_config demo_scheduler demo_init HT Hc Hf).
Qed.

Lemma demo_num_timesteps : num_timesteps demo_scheduler = 2%Z.
Proof. reflexivity. Qed.

Lemma demo_in_range_1 : in_range demo_scheduler 1.
Proof. unfold in_range. rewrite demo_num_timesteps. lia. Qed.

Lemma demo_in_range_0 : in_range demo_scheduler 0.
Proof. unfold in_range. rewrite demo_num_timesteps. lia. Qed.

Lemma step_returns (s : NoiseScheduler) (model_output : points) (t : Z)
    (sample : points) (g : Generator) :
  well_formed s ->
  in_range s t ->
  length model_output = length sample ->
  exists r g', step model_output t sample (world s g) = (Ok r, world s g').
Proof.
  intros Hwf Ht Hlen.
  destruct (posterior_of_reconstruction_runs s model_output t sample Hwf Ht Hlen)
    as (mu & _ & Hmu).
  rewrite (step_runs s model_output t sample mu g Hwf Ht Hlen (Hmu g)).
  destruct (0 <? t)%Z; eauto.
Qed.

(** C7, as the constructor behaves. Construction raises its configuration
    error, the [ValueError] on the schedule name, exactly when
    [beta_schedule] is neither "linear" nor "quadratic". The timestep count
    and the grid sizes are not validated by the constructor: with a known
    schedule and non-negative [beta_start] and [beta_end] it returns a
    scheduler whenever the three sizes are non-negative (zero included),
    and a negative size is refused by the tensor library with a
    [RuntimeError]. For a valid configuration the
    scheduler returned is well formed, and on a well-formed scheduler
    [add_noise], [step] and [get_grid_noise_adjustment] return a value for
    all inputs of one batch size with in-range timesteps. *)
Theorem construction_errors_and_total_methods :
  (forall cfg,
      (exists msg, __init__ cfg = Raise (ValueError msg)) <->
      ~ known_schedule (cfg_beta_schedule cfg)) /\
  (forall cfg,
      known_schedule (cfg_beta_schedule cfg) ->
      0 <= cfg_beta_start cfg -> 0 <= cfg_beta_end cfg ->
      ((0 <= cfg_num_timesteps cfg /\ 0 <= cfg_coarse_grid_size cfg /\
        0 <= cfg_fine_grid_size cfg)%Z ->
       exists s, __init__ cfg = Ok s) /\
      ((cfg_num_timesteps cfg < 0 \/ cfg_coarse_grid_size cfg < 0 \/
        cfg_fine_grid_size cfg < 0)%Z ->
       exists msg, __init__ cfg = Raise (RuntimeError msg))) /\
  (forall cfg,
      valid_config cfg -> exists s, __init__ cfg = Ok s /\ well_formed s) /\
  (forall s g,
      well_formed s ->
      (forall x0 noise ts,
          length ts = length x0 -> length ts = length noise ->
          Forall (in_range s) ts ->
          exists xt, add_noise x0 noise ts (world s g) = (Ok xt, world s g)) /\
      (forall predicted_noise t xt,
          in_range s t -> length predicted_noise = length xt ->
          exists r g', step predicted_noise t xt (world s g) = (Ok r, world s g')) /\
      (forall ts x,
          length ts = length x -> Forall (in_range s) ts ->
          exists a, get_grid_noise_adjustment ts x (world s g) = (Ok a, world s g))).
Proof.
  split; [| split; [| split]].
  - intros cfg. split.
    + intros (msg & Hraise) Hk.
      destruct (Z.ltb_spec (cfg_num_timesteps cfg) 0) as [HT | HT];
        [destruct (init_refused cfg Hk) as (m & Hm); [lia | congruence] |].
      destruct (Z.ltb_spec (cfg_coarse_grid_size cfg) 0) as [Hc | Hc];
        [destruct (init_refused cfg Hk) as (m & Hm); [lia | congruence] |].
      destruct (Z.ltb_spec (cfg_fine_grid_size cfg) 0) as [Hf | Hf];
        [destruct (init_refused cfg Hk) as (m & Hm); [lia | congruence] |].
      destruct (init_defined cfg Hk HT Hc Hf) as (s & Hs). congruence.
    + intros Hk. eexists. now apply init_unknown_schedule.
  - intros cfg Hk _ _. split.
    + intros (HT & Hc & Hf). now apply init_defined.
    + now apply init_refused.
  - intros cfg (HT & _ & _ & Hk & Hc & Hf).
    destruct (init_defined cfg Hk) as (s & Hs); try lia.
    exists s. split; [exact Hs |]. eapply init_well_formed; eauto.
  - intros s g Hwf. split; [| split].
    + intros x0 noise ts Hx Hn Hts. eexists. now apply add_noise_runs.
    + intros mo t xt Ht Hlen. now apply step_returns.
    + intros ts x Hx Hts. eexists. now apply get_grid_noise_adjustment_runs.
Qed.

(** C7, as stated, fails: [zero_grid_config] has a known schedule and a
    grid size that is not positive, and the constructor returns a
    scheduler for it instead of raising. *)
Lemma zero_grid_size_constructs :
  (exists s, __init__ zero_grid_config = Ok s) /\
  ~ ((~ known_schedule (cfg_beta_schedule zero_grid_config) \/
      (cfg_num_timesteps zero_grid_config <= 0)%Z \/
      (cfg_coarse_grid_size zero_grid_config <= 0)%Z \/
      (cfg_fine_grid_size zero_grid_config <= 0)%Z) ->
     exists e, __init__ zero_grid_config = Raise e).
Proof.
  assert (Hok : exists s, __init__ zero_grid_config = Ok s) by (eexists; reflexivity).
  split; [exact Hok |].
  intros Hclaim. destruct Hok as (s & Hs).
  destruct Hclaim as (e & He).
  - right. right. left. cbn. lia.
  - rewrite Hs in He. discriminate He.
Qed.

Lemma construction_errors_and_total_methods_witness :
  (exists s, __init__ demo_config = Ok s /\ well_formed s) /\
  (exists xt,
      add_noise [(0, 0)] [(1, 1)] [1%Z] (world demo_scheduler demo_generator) =
      (Ok xt, world demo_scheduler demo_generator)) /\
  (exists r g',
      step [(1, 1)] 1 [(0, 0)] (world demo_scheduler demo_generator) =
      (Ok r, world demo_scheduler g')).
Proof.
  destruct construction_errors_and_total_methods as (_ & _ & Hinit & Hrun).
  destruct (Hrun demo_scheduler demo_generator demo_well_formed) as (Hadd & Hstep & _).
  split; [| split].
  - apply Hinit. exact demo_valid_config.
  - apply Hadd; [reflexivity | reflexivity |].
    constructor; [exact demo_in_range_1 | constructor].
  - apply Hstep; [exact demo_in_range_1 | reflexivity].
Defined.

Lemma add_noise_formula_witness :
  exists xt : points,
    length xt = 1%nat /\
    forall g,
      add_noise [(0, 0)] [(1, 1)] [1%Z] (world demo_scheduler g) =
      (Ok xt, world demo_scheduler g).
Proof.
  destruct (add_noise_formula demo_scheduler [(0, 0)] [(1, 1)] [1%Z])
    as (a & xt & _ & Hlen & _ & Hrun & _).
  - exact demo_well_formed.
  - reflexivity.
  - reflexivity.
  - constructor; [exact demo_in_range_1 | constructor].
  - exists xt. split; [exact Hlen | exact Hrun].
Defined.

Lemma reconstruct_x0_inverts_add_noise_witness :
  bind (add_noise [(0, 0)] [(1, 1)] [1%Z])
       (fun xt => reconstruct_x0 xt [1%Z] [(1, 1)]) (world demo_scheduler demo_generator) =
  (Ok [(0, 0)], world demo_scheduler demo_generator).
Proof.
  apply (reconstruct_x0_inverts_add_noise demo_config demo_scheduler
           [(0, 0)] [(1, 1)] [1%Z]).
  - exact demo_init.
  - exact demo_valid_config.
  - reflexivity.
  - reflexivity.
  - constructor; [exact demo_in_range_1 | constructor].
Defined.

Lemma step_composition_witness :
  exists mu : points,
    forall g, step [(1, 1)] 0 [(0, 0)] (world demo_scheduler g) =
              (Ok mu, world demo_scheduler g).
Proof.
  destruct (step_composition demo_scheduler [(1, 1)] 0 [(0, 0)])
    as (mu & _ & Hzero & _).
  - exact demo_well_formed.
  - exact demo_in_range_0.
  - reflexivity.
  - exists mu. apply Hzero. reflexivity.
Defined.

Lemma get_variance_cases_witness :
  exists v,
    get_variance 1 (world demo_scheduler demo_generator) =
    (Ok v, world demo_scheduler demo_generator) /\ 1e-20 <= v.
Proof.
  destruct get_variance_cases as (_ & H & _).
  destruct (H demo_scheduler 1%Z demo_generator) as (v & Hrun & _ & Hlow).
  - exact demo_well_formed.
  - rewrite demo_num_timesteps. lia.
  - exists v. split; [exact Hrun | exact Hlow].
Defined.

Lemma coefficient_table_invariants_witness :
  length (alphas_cumprod demo_scheduler) = 2%nat /\
  nth 1 (alphas_cumprod demo_scheduler) 0 <= nth 0 (alphas_cumprod demo_scheduler) 0 /\
  nth 0 (alphas_cumprod_prev demo_scheduler) 0 = 1.
Proof.
  destruct (coefficient_table_invariants demo_config demo_scheduler)
    as ((_ & _ & Hlen & _) & Hmono & _ & Hprev).
  - exact demo_init.
  - cbn. lia.
  - cbn. lra.
  - cbn. lra.
  - split; [exact Hlen | split; [| exact Hprev]].
    apply Hmono. cbn. lia.
Defined.

Lemma coarse_grid_ignores_fine_grid_size_witness :
  coarse_noise_grid demo_scheduler =
  coarse_noise_grid
    (match __init__ (with_fine_grid_size demo_config 7) with
     | Ok s => s
     | Raise _ => empty_scheduler
     end).
Proof.
  apply (coarse_grid_ignores_fine_grid_size demo_config 7).
  - exact demo_init.
  - reflexivity.
Defined.

(** The end-to-end scenario: on the untrained scheduler of
    [scenario_config] the point (0, 0) falls in the centre cells, and
    noising it at timestep 50 with noise (1, 1) gives
    [sqrt_one_minus_alphas_cumprod[50]] in both coordinates. *)
Example scenario_centre_cells : grid_cell 0 5 = 2%Z /\ grid_cell 0 20 = 10%Z.
Proof.
  rewrite !grid_cell_clamped by lia. unfold clampZ.
  rewrite (Zfloor_eq 2) by (split; simpl; lra).
  rewrite (Zfloor_eq 10) by (split; simpl; lra).
  split; reflexivity.
Qed.

Example scenario_add_noise (s : NoiseScheduler) (g : Generator) :
  __init__ scenario_config = Ok s ->
  add_noise [(0, 0)] [(1, 1)] [50%Z] (world s g) =
  (Ok [(coef (sqrt_one_minus_alphas_cumprod s) 50,
        coef (sqrt_one_minus_alphas_cumprod s) 50)],
   world s g).
Proof.
  intros H.
  assert (Hwf : well_formed s) by (eapply init_well_formed; eauto; cbn; lia).
  assert (Ht : in_range s 50).
  { unfold in_range.
    pose proof (init_inversion _ _ H) as (_ & -> & _). cbn. lia. }
  rewrite add_noise_runs;
    [| exact Hwf | reflexivity | reflexivity | constructor; [exact Ht | constructor]].
  cbn [zip3_with fst snd].
  rewrite (init_adjustment_is_one scenario_config s 50 (0, 0) H)
    by (try exact Ht; cbn; lia).
  assert (E : forall a b : R, a * 0 + b * 1 * 1 = b) by (intros; ring).
  now rewrite E.
Qed.

(** ** More on the coefficient tables *)

Lemma nth_map_seq (f : nat -> R) (n i : nat) :
  (i < n)%nat -> nth i (map f (seq 0 n)) 0 = f i.
Proof.
  intros Hi.
  rewrite (nth_indep _ 0 (f 0%nat)) by (now rewrite length_map, length_seq).
  rewrite map_nth, seq_nth by exact Hi. reflexivity.
Qed.

Lemma linspace_first (a b : R) (T : Z) (l : tensor1) :
  linspace a b T = Ok l -> (0 < T)%Z -> nth 0 l 0 = a.
Proof.
  intros H HT. apply linspace_inversion in H as [_ ->].
  rewrite nth_map_seq by lia. cbn. lra.
Qed.

Lemma linspace_last (a b : R) (T : Z) (l : tensor1) :
  linspace a b T = Ok l -> (2 <= T)%Z -> nth (Z.to_nat (T - 1)) l 0 = b.
Proof.
  intros H HT. apply linspace_inversion in H as [_ ->].
  rewrite nth_map_seq by lia.
  replace (INR (Z.to_nat (T - 1))) with (INR (Z.to_nat T) - 1).
  - assert (Hn : (2 <= Z.to_nat T)%nat) by lia.
    apply le_INR in Hn. cbn in Hn. field. lra.
  - replace (Z.to_nat (T - 1)) with (Z.to_nat T - 1)%nat by lia.
    rewrite minus_INR by lia. cbn. lra.
Qed.

(** X1. The schedule starts at [beta_start] and, with two timesteps or
    more, ends at [beta_end], for the linear and (with non-negative
    endpoints) the quadratic schedule; with one timestep the only beta is
    [beta_start]. *)
Theorem betas_endpoints (cfg : Config) (s : NoiseScheduler) :
  __init__ cfg = Ok s ->
  0 <= cfg_beta_start cfg -> 0 <= cfg_beta_end cfg ->
  (0 < cfg_num_timesteps cfg)%Z ->
  coef (betas s) 0 = cfg_beta_start cfg /\
  ((2 <= cfg_num_timesteps cfg)%Z ->
   coef (betas s) (cfg_num_timesteps cfg - 1) = cfg_beta_end cfg) /\
  (cfg_num_timesteps cfg = 1%Z -> betas s = [cfg_beta_start cfg]).
Proof.
  intros H Hs He HT.
  pose proof (init_betas_length cfg s H) as Hlen.
  assert (Hfirst : coef (betas s) 0 = cfg_beta_start cfg).
  { apply init_inversion in H as ([[_ Hlin] | (_ & l & Hlin & Hq)] & _).
    - unfold coef. cbn. eapply linspace_first; eauto.
    - rewrite Hq. rewrite coef_map
        by (apply linspace_length in Hlin; lia).
      unfold coef. cbn. rewrite (linspace_first _ _ _ _ Hlin HT).
      cbn. rewrite Rmult_1_r. now apply sqrt_sqrt. }
  split; [exact Hfirst | split].
  - intros H2.
    apply init_inversion in H as ([[_ Hlin] | (_ & l & Hlin & Hq)] & _).
    + unfold coef. eapply linspace_last; eauto.
    + rewrite Hq. rewrite coef_map
        by (apply linspace_length in Hlin; lia).
      unfold coef. rewrite (linspace_last _ _ _ _ Hlin H2).
      cbn. rewrite Rmult_1_r. now apply sqrt_sqrt.
  - intros H1. rewrite H1 in Hlen. cbn in Hlen.
    destruct (betas s) as [| b [| b' l]]; try discriminate.
    unfold coef in Hfirst. cbn in Hfirst. now subst.
Qed.

Lemma betas_endpoints_witness :
  coef (betas demo_scheduler) 0 = 1 / 4 /\ coef (betas demo_scheduler) 1 = 1 / 2.
Proof.
  destruct (betas_endpoints demo_config demo_scheduler) as (H0 & H1 & _).
  - exact demo_init.
  - cbn. lra.
  - cbn. lra.
  - cbn. lia.
  - split; [exact H0 | apply H1; cbn; lia].
Defined.

Lemma cumprod_from_step (acc : R) (a : tensor1) (i : nat) :
  (i < length a)%nat ->
  nth i (cumprod_from acc a) 0 =
  nth i a 0 * nth i (acc :: removelast (cumprod_from acc a)) 0.
Proof.
  revert acc i. induction a as [| x a IH]; intros acc i Hi; cbn in Hi; [lia |].
  destruct i as [| i]; [cbn; ring |].
  cbn [cumprod_from]. cbn [nth].
  destruct a as [| y a'] eqn:E; [cbn in Hi; lia |].
  rewrite <- E in *.
  assert (Hne : cumprod_from (acc * x) a <> []).
  { rewrite E. cbn. discriminate. }
  replace (removelast (acc * x :: cumprod_from (acc * x) a))
    with (acc * x :: removelast (cumprod_from (acc * x) a)).
  - apply IH. lia.
  - cbn. destruct (cumprod_from (acc * x) a); [contradiction | reflexivity].
Qed.

Lemma alphas_cumprod_step (cfg : Config) (s : NoiseScheduler) (t : Z) :
  __init__ cfg = Ok s ->
  (0 <= t < cfg_num_timesteps cfg)%Z ->
  coef (alphas_cumprod s) t = coef (alphas s) t * coef (alphas_cumprod_prev s) t.
Proof.
  intros H Ht.
  pose proof (init_table_lengths cfg s H ltac:(lia)) as (_ & La & _). cbv zeta in La.
  apply init_inversion in H as (_ & _ & _ & _ & _ & -> & -> & _).
  unfold coef, cumprod. apply cumprod_from_step. lia.
Qed.

(** X3. The running product satisfies its recurrence at every timestep:
    [alphas_cumprod[t] = alphas[t] * alphas_cumprod_prev[t]]. *)
Theorem alphas_cumprod_recurrence (cfg : Config) (s : NoiseScheduler) (t : Z) :
  __init__ cfg = Ok s ->
  (0 <= t < cfg_num_timesteps cfg)%Z ->
  coef (alphas_cumprod s) t = coef (alphas s) t * coef (alphas_cumprod_prev s) t.
Proof.
  intros H Ht.
  pose proof (init_table_lengths cfg s H ltac:(lia)) as (_ & La & _). cbv zeta in La.
  apply init_inversion in H as (_ & _ & _ & _ & _ & -> & -> & _).
  unfold coef, cumprod. apply cumprod_from_step. lia.
Qed.

Lemma alphas_cumprod_recurrence_witness :
  coef (alphas_cumprod demo_scheduler) 1 =
  coef (alphas demo_scheduler) 1 * coef (alphas_cumprod_prev demo_scheduler) 1.
Proof.
  apply (alphas_cumprod_recurrence demo_config demo_scheduler 1).
  - exact demo_init.
  - cbn. lia.
Defined.

Lemma init_coef_values (cfg : Config) (s : NoiseScheduler) (t : Z) :
  __init__ cfg = Ok s ->
  (0 <= t < cfg_num_timesteps cfg)%Z ->
  coef (alphas s) t = 1 - coef (betas s) t /\
  coef (sqrt_alphas_cumprod s) t = sqrt (coef (alphas_cumprod s) t) /\
  coef (sqrt_one_minus_alphas_cumprod s) t = sqrt (1 - coef (alphas_cumprod s) t) /\
  coef (posterior_mean_coef1 s) t =
    coef (betas s) t * sqrt (coef (alphas_cumprod_prev s) t) /
    (1 - coef (alphas_cumprod s) t) /\
  coef (posterior_mean_coef2 s) t =
    (1 - coef (alphas_cumprod_prev s) t) * sqrt (coef (alphas s) t) /
    (1 - coef (alphas_cumprod s) t).
Proof.
  intros H Ht.
  pose proof (init_table_lengths cfg s H ltac:(lia))
    as (Lb & La & Lac & Lacp & _). cbv zeta in Lb, La, Lac, Lacp.
  pose proof (init_inversion cfg s H)
    as (_ & _ & _ & _ & Ea & _ & _ & E1 & E2 & _ & _ &
        (n1 & Hn1 & Hc1) & (n2 & Hn2 & Hc2) & _).
  assert (Hi : (Z.to_nat t < Z.to_nat (cfg_num_timesteps cfg))%nat) by lia.
  split; [| split; [| split; [| split]]].
  - rewrite Ea at 1. apply coef_map. lia.
  - rewrite E1. apply coef_map. lia.
  - rewrite E2. apply (coef_map (fun a => sqrt (1 - a))). lia.
  - unfold mul1 in Hn1. rewrite broadcast_same_length in Hn1
      by (rewrite length_map; congruence).
    injection Hn1 as <-.
    unfold div1 in Hc1. rewrite broadcast_same_length in Hc1
      by (rewrite length_zip_with, length_map; rewrite ?length_map; congruence).
    injection Hc1 as <-.
    unfold coef at 1.
    rewrite (nth_zip_with Rdiv _ _ _ 0 0)
      by (rewrite length_zip_with, ?length_map; rewrite ?length_map; congruence || lia).
    rewrite (nth_zip_with Rmult _ _ _ 0 0)
      by (rewrite ?length_map; congruence || lia).
    fold (coef (betas s) t).
    fold (coef (map sqrt (alphas_cumprod_prev s)) t).
    fold (coef (map (fun a => 1 - a) (alphas_cumprod s)) t).
    rewrite coef_map by lia.
    rewrite (coef_map (fun a => 1 - a)) by lia. reflexivity.
  - unfold mul1 in Hn2. rewrite broadcast_same_length in Hn2
      by (rewrite !length_map; congruence).
    injection Hn2 as <-.
    unfold div1 in Hc2. rewrite broadcast_same_length in Hc2
      by (rewrite length_zip_with, !length_map; rewrite ?length_map; congruence).
    injection Hc2 as <-.
    unfold coef at 1.
    rewrite (nth_zip_with Rdiv _ _ _ 0 0)
      by (rewrite length_zip_with, ?length_map; rewrite ?length_map; congruence || lia).
    rewrite (nth_zip_with Rmult _ _ _ 0 0)
      by (rewrite ?length_map; congruence || lia).
    fold (coef (map (fun a => 1 - a) (alphas_cumprod_prev s)) t).
    fold (coef (map sqrt (alphas s)) t).
    fold (coef (map (fun a => 1 - a) (alphas_cumprod s)) t).
    rewrite (coef_map sqrt) by lia.
    rewrite !(coef_map (fun a => 1 - a)) by lia. reflexivity.
Qed.

Lemma init_coef_bounds (cfg : Config) (s : NoiseScheduler) (t : Z) :
  __init__ cfg = Ok s ->
  0 < cfg_beta_start cfg -> cfg_beta_start cfg <= cfg_beta_end cfg ->
  cfg_beta_end cfg < 1 ->
  (0 <= t < cfg_num_timesteps cfg)%Z ->
  0 < coef (betas s) t < 1 /\
  0 < coef (alphas s) t < 1 /\
  0 < coef (alphas_cumprod s) t < 1.
Proof.
  intros H H0 Hle H1 Ht.
  pose proof (init_table_lengths cfg s H ltac:(lia)) as (Lb & La & Lac & _).
  cbv zeta in Lb, La, Lac.
  pose proof (init_betas_bounds cfg s H H0 Hle) as [_ Hb].
  pose proof (init_alphas_cumprod_bounds cfg s H H0 Hle H1) as [Ha Hac].
  rewrite Forall_forall in Hb, Ha, Hac.
  assert (Hinb : In (coef (betas s) t) (betas s)) by (apply nth_In; lia).
  assert (Hina : In (coef (alphas s) t) (alphas s)) by (apply nth_In; lia).
  assert (Hinc : In (coef (alphas_cumprod s) t) (alphas_cumprod s)) by (apply nth_In; lia).
  apply Hb in Hinb. apply Ha in Hina. apply Hac in Hinc.
  repeat split; lra.
Qed.

(** X2. The forward process preserves variance: on the scheduler of a
    configuration with [0 < beta_start < beta_end < 1], the two scales of
    [add_noise] satisfy
    [sqrt_alphas_cumprod[t]^2 + sqrt_one_minus_alphas_cumprod[t]^2 = 1] at
    every timestep. *)
Theorem forward_scales_on_unit_circle (cfg : Config) (s : NoiseScheduler) (t : Z) :
  __init__ cfg = Ok s ->
  0 < cfg_beta_start cfg < cfg_beta_end cfg ->
  cfg_beta_end cfg < 1 ->
  (0 <= t < cfg_num_timesteps cfg)%Z ->
  coef (sqrt_alphas_cumprod s) t ^ 2 +
  coef (sqrt_one_minus_alphas_cumprod s) t ^ 2 = 1.
Proof.
  intros H [H0 Hlt] H1 Ht.
  pose proof (init_coef_values cfg s t H Ht) as (_ & -> & -> & _).
  pose proof (init_coef_bounds cfg s t H H0 (Rlt_le _ _ Hlt) H1 Ht) as (_ & _ & Hc).
  cbn [pow]. rewrite !Rmult_1_r.
  rewrite !sqrt_sqrt by lra. ring.
Qed.

Lemma forward_scales_on_unit_circle_witness :
  coef (sqrt_alphas_cumprod demo_scheduler) 1 ^ 2 +
  coef (sqrt_one_minus_alphas_cumprod demo_scheduler) 1 ^ 2 = 1.
Proof.
  apply (forward_scales_on_unit_circle demo_config demo_scheduler 1).
  - exact demo_init.
  - cbn. lra.
  - cbn. lra.
  - cbn. lia.
Defined.

Lemma init_prev_first (cfg : Config) (s : NoiseScheduler) :
  __init__ cfg = Ok s -> coef (alphas_cumprod_prev s) 0 = 1.
Proof.
  intros H. apply init_inversion in H as (_ & _ & _ & _ & _ & _ & -> & _).
  reflexivity.
Qed.

Lemma init_valid_ranges (cfg : Config) (s : NoiseScheduler) :
  __init__ cfg = Ok s -> valid_config cfg ->
  well_formed s /\ num_timesteps s = cfg_num_timesteps cfg /\
  (0 < cfg_num_timesteps cfg)%Z /\
  0 < cfg_beta_start cfg /\ cfg_beta_start cfg <= cfg_beta_end cfg /\
  cfg_beta_end cfg < 1.
Proof.
  intros H (HT & [Hb0 Hb1] & Hb2 & _ & Hc & Hf).
  pose proof (init_inversion cfg s H) as (_ & ET & _).
  repeat split; try assumption; try lra.
  all: eapply init_well_formed; eauto.
Qed.

Lemma init_posterior_coefs_at_zero (cfg : Config) (s : NoiseScheduler) :
  __init__ cfg = Ok s -> valid_config cfg ->
  coef (posterior_mean_coef1 s) 0 = 1 /\ coef (posterior_mean_coef2 s) 0 = 0.
Proof.
  intros H Hv.
  pose proof (init_valid_ranges cfg s H Hv) as (_ & _ & HT & Hb0 & Hle & Hb1).
  assert (Ht : (0 <= 0 < cfg_num_timesteps cfg)%Z) by lia.
  pose proof (init_coef_values cfg s 0 H Ht) as (Ea & _ & _ & -> & ->).
  pose proof (init_coef_bounds cfg s 0 H Hb0 Hle Hb1 Ht) as (Hb & _ & _).
  pose proof (init_prev_first cfg s H) as Ep.
  assert (Ec : coef (alphas_cumprod s) 0 = 1 - coef (betas s) 0).
  { pose proof (init_table_lengths cfg s H HT) as (_ & La & _). cbv zeta in La.
    pose proof (init_inversion cfg s H) as (_ & _ & _ & _ & _ & Eac & Eacp & _).
    rewrite <- Ea. rewrite Eac.
    unfold coef, cumprod. rewrite cumprod_from_step by lia. cbn. ring. }
  rewrite Ep, Ec, sqrt_1. split; field; lra.
Qed.

Lemma zip_with_keep_left (r x : points) :
  length r = length x ->
  zip_with (fun p q => (1 * fst p + 0 * fst q, 1 * snd p + 0 * snd q)) r x = r.
Proof.
  revert x. induction r as [| [a b] r IH]; intros [| q x] Hlen; cbn in *;
    try discriminate; [reflexivity |].
  rewrite IH by congruence. f_equal. f_equal; ring.
Qed.

(** X4. The last reverse step returns the predicted clean sample: on the
    scheduler of a valid configuration [posterior_mean_coef1[0]] is 1 and
    [posterior_mean_coef2[0]] is 0, so [step(model_output, 0, sample)]
    equals [reconstruct_x0(sample, 0, model_output)] and draws no noise. *)
Theorem final_step_is_reconstruction
    (cfg : Config) (s : NoiseScheduler) (model_output sample : points) (g : Generator) :
  __init__ cfg = Ok s ->
  valid_config cfg ->
  length model_output = length sample ->
  coef (posterior_mean_coef1 s) 0 = 1 /\
  coef (posterior_mean_coef2 s) 0 = 0 /\
  step model_output 0 sample (world s g) =
  reconstruct_x0 sample [0%Z] model_output (world s g).
Proof.
  intros H Hv Hlen.
  pose proof (init_posterior_coefs_at_zero cfg s H Hv) as [E1 E2].
  pose proof (init_valid_ranges cfg s H Hv) as (Hwf & ET & HT & _).
  assert (Ht : in_range s 0) by (unfold in_range; lia).
  split; [exact E1 | split; [exact E2 |]].
  pose proof (reconstruct_x0_runs_scalar s sample 0 model_output g Hwf Ht
                (eq_sym Hlen)) as Hrec.
  set (r := zip_with _ sample model_output) in Hrec.
  rewrite Hrec.
  rewrite (step_runs s model_output 0 sample r g Hwf Ht Hlen); [reflexivity |].
  erewrite bind_returns by exact Hrec.
  rewrite q_posterior_runs_scalar
    by (try assumption; unfold r; rewrite length_zip_with; congruence).
  rewrite E1, E2. rewrite zip_with_keep_left; [reflexivity |].
  unfold r. rewrite length_zip_with; congruence.
Qed.

Lemma final_step_is_reconstruction_witness :
  step [(1, 1)] 0 [(0, 0)] (world demo_scheduler demo_generator) =
  reconstruct_x0 [(0, 0)] [0%Z] [(1, 1)] (world demo_scheduler demo_generator).
Proof.
  apply (final_step_is_reconstruction demo_config demo_scheduler [(1, 1)] [(0, 0)]).
  - exact demo_init.
  - exact demo_valid_config.
  - reflexivity.
Defined.

Lemma zip_with_self_map {A B C} (f : A -> B -> C) (h : A -> B) (x : list A) :
  zip_with f x (map h x) = map (fun p => f p (h p)) x.
Proof. induction x as [| a x IH]; cbn; [reflexivity | now rewrite IH]. Qed.

(** X5. The posterior mean is consistent with the forward process: on the
    scheduler of a valid configuration,
    [posterior_mean_coef1[t] + posterior_mean_coef2[t] * sqrt_alphas_cumprod[t]]
    is [sqrt(alphas_cumprod_prev[t])], so [q_posterior] maps a clean batch
    [x0] and its noise-free image at timestep [t] to the noise-free image
    at timestep [t - 1]. *)
Theorem posterior_of_noise_free_sample
    (cfg : Config) (s : NoiseScheduler) (t : Z) (x0 : points) (g : Generator) :
  __init__ cfg = Ok s ->
  valid_config cfg ->
  (0 <= t < cfg_num_timesteps cfg)%Z ->
  coef (posterior_mean_coef1 s) t +
    coef (posterior_mean_coef2 s) t * coef (sqrt_alphas_cumprod s) t =
    sqrt (coef (alphas_cumprod_prev s) t) /\
  q_posterior x0 (scale_points (coef (sqrt_alphas_cumprod s) t) x0) [t] (world s g) =
  (Ok (scale_points (sqrt (coef (alphas_cumprod_prev s) t)) x0), world s g).
Proof.
  intros H Hv Ht.
  pose proof (init_valid_ranges cfg s H Hv) as (Hwf & ET & HT & Hb0 & Hle & Hb1).
  pose proof (init_coef_values cfg s t H Ht) as (Ea & E1 & _ & Ec1 & Ec2).
  pose proof (init_coef_bounds cfg s t H Hb0 Hle Hb1 Ht) as (Hb & Ha & Hc).
  pose proof (alphas_cumprod_step cfg s t H Ht) as Erec.
  assert (Hid : coef (posterior_mean_coef1 s) t +
                coef (posterior_mean_coef2 s) t * coef (sqrt_alphas_cumprod s) t =
                sqrt (coef (alphas_cumprod_prev s) t)).
  { rewrite Ec1, Ec2, E1. rewrite Erec at 3.
    rewrite sqrt_mult_alt by lra.
    set (p := sqrt (coef (alphas_cumprod_prev s) t)).
    set (a := sqrt (coef (alphas s) t)).
    assert (Haa : a * a = coef (alphas s) t) by (apply sqrt_sqrt; lra).
    assert (Hden : 1 - coef (alphas_cumprod s) t =
                   coef (betas s) t +
                   (1 - coef (alphas_cumprod_prev s) t) * (a * a)).
    { rewrite Haa, Erec, Ea. ring. }
    assert (Hnz : 1 - coef (alphas_cumprod s) t <> 0) by lra.
    rewrite Hden in Hnz |- *. field. exact Hnz. }
  split; [exact Hid |].
  rewrite q_posterior_runs_scalar;
    [| exact Hwf | unfold in_range; lia
     | unfold scale_points; now rewrite length_map].
  do 2 f_equal. unfold scale_points. rewrite zip_with_self_map.
  apply map_ext. intros [u v]. cbn [fst snd].
  f_equal; rewrite <- Hid; ring.
Qed.

Lemma posterior_of_noise_free_sample_witness :
  q_posterior [(1, 2)] (scale_points (coef (sqrt_alphas_cumprod demo_scheduler) 1) [(1, 2)])
    [1%Z] (world demo_scheduler demo_generator) =
  (Ok (scale_points (sqrt (coef (alphas_cumprod_prev demo_scheduler) 1)) [(1, 2)]),
   world demo_scheduler demo_generator).
Proof.
  apply (posterior_of_noise_free_sample demo_config demo_scheduler 1 [(1, 2)]).
  - exact demo_init.
  - exact demo_valid_config.
  - cbn. lia.
Defined.

(** ** Calls that raise *)

Lemma getitem_cases {A} (a : list A) (i : Z) :
  getitem a i = Raise (IndexError "index out of range") \/
  exists v, getitem a i = Ok v /\ In v a.
Proof.
  unfold getitem.
  destruct ((0 <=? _) && (_ <? _))%Z; [| now left].
  destruct (nth_error a _) as [v |] eqn:E; [| now left].
  right. exists v. split; [reflexivity |]. eapply nth_error_In; eauto.
Qed.

Lemma getitem_out_of_range {A} (a : list A) (i : Z) :
  (i < - Z.of_nat (length a) \/ Z.of_nat (length a) <= i)%Z ->
  getitem a i = Raise (IndexError "index out of range").
Proof.
  intros Hi. unfold getitem.
  destruct (Z.ltb_spec i 0).
  - destruct (Z.leb_spec 0 (i + Z.of_nat (length a))); [lia | reflexivity].
  - destruct (Z.leb_spec 0 i); [| lia].
    destruct (Z.ltb_spec i (Z.of_nat (length a))); [lia | reflexivity].
Qed.

Lemma mapM_raises {A B} (f : A -> result B) (e : exn) (l : list A) :
  (forall a, f a = Raise e \/ exists b, f a = Ok b) ->
  Exists (fun a => f a = Raise e) l ->
  mapM f l = Raise e.
Proof.
  intros Hf Hex. induction l as [| a l IH]; [inversion Hex |].
  cbn. destruct (Hf a) as [-> | (b & Hb)]; [reflexivity |].
  rewrite Hb. cbn. rewrite IH; [reflexivity |].
  inversion Hex as [? ? Hbad | ? ? Hrest]; subst; [congruence | exact Hrest].
Qed.

Lemma mapM_cases {A B} (f : A -> result B) (e : exn) (l : list A) :
  (forall a, f a = Raise e \/ exists b, f a = Ok b) ->
  mapM f l = Raise e \/ exists bs, mapM f l = Ok bs.
Proof.
  intros Hf. induction l as [| a l IH]; cbn; [right; eauto |].
  destruct (Hf a) as [-> | (b & ->)]; [now left |].
  cbn. destruct IH as [-> | (bs & ->)]; cbn; [now left | right; eauto].
Qed.

Lemma gather_cases {A} (a : list A) (idx : index_tensor) :
  gather a idx = Raise (IndexError "index out of range") \/
  exists vs, gather a idx = Ok vs.
Proof.
  apply mapM_cases. intros i.
  destruct (getitem_cases a i) as [-> | (v & -> & _)]; [now left | right; eauto].
Qed.

Lemma gather_out_of_range {A} (a : list A) (idx : index_tensor) :
  Exists (fun i => (i < - Z.of_nat (length a) \/ Z.of_nat (length a) <= i)%Z) idx ->
  gather a idx = Raise (IndexError "index out of range").
Proof.
  intros Hex. apply mapM_raises.
  - intros i. destruct (getitem_cases a i) as [-> | (v & -> & _)];
      [now left | right; eauto].
  - eapply Exists_impl; [| exact Hex]. intros i Hi. now apply getitem_out_of_range.
Qed.

(** X6. A timestep outside [-T, T) makes [add_noise] and [step] raise an
    [IndexError] at the first table lookup; the scheduler and the
    generator are left as they were. *)
Theorem timestep_out_of_range_raises (s : NoiseScheduler) (g : Generator) :
  well_formed s ->
  (forall x_start x_noise timesteps,
      Exists (fun t => (t < - num_timesteps s \/ num_timesteps s <= t)%Z) timesteps ->
      exists msg,
        add_noise x_start x_noise timesteps (world s g) =
        (Raise (IndexError msg), world s g)) /\
  (forall model_output t sample,
      (t < - num_timesteps s \/ num_timesteps s <= t)%Z ->
      exists msg,
        step model_output t sample (world s g) = (Raise (IndexError msg), world s g)).
Proof.
  intros Hwf.
  pose proof Hwf as (_ & _ & _ & _ & _ & _ & H1 & _ & H3 & _).
  split.
  - intros x n ts Hex. eexists.
    unfold add_noise. run_method.
    rewrite gather_out_of_range; [reflexivity |].
    eapply Exists_impl; [| exact Hex]. intros t Ht. cbn beta in *. rewrite H1. lia.
  - intros mo t xt Ht. eexists.
    unfold step, reconstruct_x0. cbv zeta. run_method.
    rewrite gather_out_of_range; [reflexivity |].
    constructor. rewrite H3. lia.
Qed.

Lemma timestep_out_of_range_raises_witness :
  exists msg,
    add_noise [(0, 0)] [(1, 1)] [2%Z] (world demo_scheduler demo_generator) =
    (Raise (IndexError msg), world demo_scheduler demo_generator).
Proof.
  destruct (timestep_out_of_range_raises demo_scheduler demo_generator demo_well_formed)
    as [Hadd _].
  apply Hadd. constructor. rewrite demo_num_timesteps. lia.
Defined.

Lemma broadcast_mismatch {A B C} (f : A -> B -> C) xs ys :
  length xs <> length ys -> length xs <> 1%nat -> length ys <> 1%nat ->
  broadcast f xs ys =
  Raise (RuntimeError "The size of tensor a must match the size of tensor b").
Proof.
  intros Hne Hx Hy. unfold broadcast.
  destruct (Nat.eqb_spec (length xs) (length ys)); [contradiction |].
  destruct xs as [| x [| x' xs]]; destruct ys as [| y [| y' ys]]; cbn in *;
    try reflexivity; contradiction.
Qed.

(** X9. Batch sizes that do not broadcast are refused: on a well-formed
    scheduler, [get_grid_noise_adjustment] and [add_noise] raise when the
    number of (in-range) timesteps differs from the number of points and
    neither is one; nothing is truncated silently and no state changes. *)
Theorem batch_size_mismatch_raises
    (s : NoiseScheduler) (g : Generator) (x x_noise : points) (timesteps : index_tensor) :
  well_formed s ->
  Forall (in_range s) timesteps ->
  length timesteps <> length x ->
  length timesteps <> 1%nat ->
  length x <> 1%nat ->
  exists e,
    get_grid_noise_adjustment timesteps x (world s g) = (Raise e, world s g) /\
    add_noise x x_noise timesteps (world s g) = (Raise e, world s g).
Proof.
  intros Hwf Hts Hne Ht1 Hx1.
  pose proof Hwf as (_ & _ & _ & _ & _ & _ & H1 & H2 & _).
  assert (Hgrid : get_grid_noise_adjustment timesteps x (world s g) =
                  (Raise (IndexError
                            "shape mismatch: indexing tensors could not be broadcast together"),
                   world s g)).
  { unfold get_grid_noise_adjustment. run_method. unfold gather3, broadcast_indices.
    rewrite broadcast_mismatch by (rewrite ?length_map; assumption).
    reflexivity. }
  eexists. split; [exact Hgrid |].
  unfold add_noise. run_method.
  rewrite (gather_table s) by assumption. run_method.
  rewrite (gather_table s) by assumption. run_method.
  now rewrite Hgrid.
Qed.

Lemma batch_size_mismatch_raises_witness :
  exists e,
    add_noise [(0, 0); (0, 0); (0, 0)] [(1, 1); (1, 1); (1, 1)] [0%Z; 1%Z]
      (world demo_scheduler demo_generator) =
    (Raise e, world demo_scheduler demo_generator).
Proof.
  destruct (batch_size_mismatch_raises demo_scheduler demo_generator
              [(0, 0); (0, 0); (0, 0)] [(1, 1); (1, 1); (1, 1)] [0%Z; 1%Z])
    as (e & _ & H).
  - exact demo_well_formed.
  - constructor; [exact demo_in_range_0 |].
    constructor; [exact demo_in_range_1 | constructor].
  - cbn. lia.
  - cbn. lia.
  - cbn. lia.
  - exists e. exact H.
Defined.

Lemma getitem3_empty_planes (g : tensor3) (tij : Z * Z * Z) :
  Forall (fun plane => plane = []) g ->
  getitem3 g tij = Raise (IndexError "index out of range").
Proof.
  intros Hg. destruct tij as [[t i] j]. unfold getitem3.
  destruct (getitem_cases g t) as [-> | (plane & -> & Hin)]; [reflexivity |].
  rewrite Forall_forall in Hg. rewrite (Hg _ Hin). cbn.
  rewrite getitem_out_of_range by (cbn; lia). reflexivity.
Qed.

Lemma gather3_empty_planes (g : tensor3) (ts : index_tensor) (x : points)
    (fi fj : R * R -> Z) :
  Forall (fun plane => plane = []) g ->
  length ts = length x -> x <> [] ->
  gather3 g ts (map fi x) (map fj x) = Raise (IndexError "index out of range").
Proof.
  intros Hg Hlen Hx. unfold gather3, broadcast_indices.
  rewrite broadcast_same_length by now rewrite length_map.
  cbn [rbind].
  rewrite broadcast_same_length
    by (rewrite length_zip_with, length_map; [exact Hlen | now rewrite length_map]).
  cbn [rbind].
  destruct x as [| p x]; [contradiction |].
  destruct ts as [| t ts]; [discriminate |].
  cbn [map zip_with mapM]. now rewrite getitem3_empty_planes.
Qed.

Lemma getitem3_cases (g : tensor3) (tij : Z * Z * Z) :
  getitem3 g tij = Raise (IndexError "index out of range") \/
  exists v, getitem3 g tij = Ok v.
Proof.
  destruct tij as [[t i] j]. unfold getitem3.
  destruct (getitem_cases g t) as [-> | (plane & -> & _)]; [now left |]. cbn.
  destruct (getitem_cases plane i) as [-> | (row & -> & _)]; [now left |]. cbn.
  destruct (getitem_cases row j) as [-> | (v & -> & _)]; [now left | right; eauto].
Qed.

Lemma gather3_cases (g : tensor3) (ts : index_tensor) (x : points)
    (fi fj : R * R -> Z) :
  length ts = length x ->
  gather3 g ts (map fi x) (map fj x) = Raise (IndexError "index out of range") \/
  exists vs, gather3 g ts (map fi x) (map fj x) = Ok vs.
Proof.
  intros Hlen. unfold gather3, broadcast_indices.
  rewrite broadcast_same_length by now rewrite length_map.
  cbn [rbind].
  rewrite broadcast_same_length
    by (rewrite length_zip_with, length_map; [exact Hlen | now rewrite length_map]).
  cbn [rbind]. apply mapM_cases. apply getitem3_cases.
Qed.

Lemma ones_zero_size_planes (d0 d2 : Z) (g : tensor3) :
  ones d0 0 d2 = Ok g -> Forall (fun plane => plane = []) g.
Proof.
  intros H. apply length_ones in H as (_ & _ & ->). cbn.
  apply Forall_forall. intros plane Hin. now apply repeat_spec in Hin.
Qed.

(** X8. A grid size of 0 is accepted by the constructor but makes the
    scheduler unusable: on a scheduler constructed with a coarse or a fine
    grid size of 0, [get_grid_noise_adjustment] and [add_noise] raise an
    [IndexError] for every non-empty batch, whatever the timesteps. *)
Theorem zero_grid_size_lookup_raises
    (cfg : Config) (s : NoiseScheduler) (g : Generator)
    (x x_noise : points) (timesteps : index_tensor) :
  __init__ cfg = Ok s ->
  cfg_coarse_grid_size cfg = 0%Z \/ cfg_fine_grid_size cfg = 0%Z ->
  length timesteps = length x ->
  x <> [] ->
  exists msg,
    get_grid_noise_adjustment timesteps x (world s g) =
      (Raise (IndexError msg), world s g) /\
    add_noise x x_noise timesteps (world s g) = (Raise (IndexError msg), world s g).
Proof.
  intros H Hzero Hlen Hx.
  pose proof (init_inversion cfg s H)
    as (_ & _ & Ec & Ef & _ & _ & _ & _ & _ & _ & _ & _ & _ & Hcg & Hfg).
  assert (Hgrid : get_grid_noise_adjustment timesteps x (world s g) =
                  (Raise (IndexError "index out of range"), world s g)).
  { unfold get_grid_noise_adjustment. run_method.
    destruct Hzero as [Hz | Hz].
    - rewrite Hz in Hcg. apply ones_zero_size_planes in Hcg.
      now rewrite gather3_empty_planes.
    - rewrite Hz in Hfg. apply ones_zero_size_planes in Hfg.
      destruct (gather3_cases (coarse_noise_grid s) timesteps x
                  (fun p => grid_cell (fst p) (coarse_grid_size s))
                  (fun p => grid_cell (snd p) (coarse_grid_size s)) Hlen)
        as [-> | (vs & ->)]; [reflexivity |].
      now rewrite gather3_empty_planes. }
  exists "index out of range"%string. split; [exact Hgrid |].
  unfold add_noise. run_method.
  destruct (gather_cases (sqrt_alphas_cumprod s) timesteps) as [-> | (v1 & ->)];
    [reflexivity |].
  destruct (gather_cases (sqrt_one_minus_alphas_cumprod s) timesteps)
    as [-> | (v2 & ->)]; [reflexivity |].
  now rewrite Hgrid.
Qed.

Lemma zero_grid_scheduler_init : __init__ zero_grid_config = Ok zero_grid_scheduler.
Proof. reflexivity. Qed.

Lemma zero_grid_size_lookup_raises_witness :
  exists msg,
    add_noise [(0, 0)] [(1, 1)] [1%Z] (world zero_grid_scheduler demo_generator) =
    (Raise (IndexError msg), world zero_grid_scheduler demo_generator).
Proof.
  destruct (zero_grid_size_lookup_raises zero_grid_config zero_grid_scheduler
              demo_generator [(0, 0)] [(1, 1)] [1%Z]) as (msg & _ & H).
  - exact zero_grid_scheduler_init.
  - left. reflexivity.
  - reflexivity.
  - discriminate.
  - exists msg. exact H.
Defined.

(** ** The sinusoidal embedding *)

Lemma embedding_rows (m : SinusoidalEmbedding.t) (x : tensor1) :
  (0 <= SinusoidalEmbedding.dim m / 2)%Z ->
  let h := Z.to_nat (SinusoidalEmbedding.dim m / 2) in
  let angle v k :=
    v * SinusoidalEmbedding.scale m *
    exp (- (ln 10000 / IZR (SinusoidalEmbedding.dim m / 2 - 1)) * INR k) in
  SinusoidalEmbedding.forward m x =
  Ok (map (fun v => map (fun k => sin (angle v k)) (seq 0 h) ++
                    map (fun k => cos (angle v k)) (seq 0 h)) x).
Proof.
  intros Hh h angle. unfold SinusoidalEmbedding.forward, arange. cbv zeta.
  destruct (Z.ltb_spec (SinusoidalEmbedding.dim m / 2) 0) as [Hneg | _]; [lia |].
  cbn [rbind]. f_equal. rewrite !map_map. apply map_ext. intros v.
  rewrite !map_map. reflexivity.
Qed.

Lemma nth_map_seq_any {A} (f : nat -> A) (n i : nat) (d : A) :
  (i < n)%nat -> nth i (map f (seq 0 n)) d = f i.
Proof.
  intros Hi.
  rewrite (nth_indep _ d (f 0%nat)) by (now rewrite length_map, length_seq).
  rewrite map_nth, seq_nth by exact Hi. reflexivity.
Qed.

(** X10. [SinusoidalEmbedding.forward] returns one row per input entry
    with [2 * (dim // 2)] columns, hence [dim] columns for an even [dim]
    and [dim - 1] for an odd one; a negative [dim // 2] is refused. *)
Theorem embedding_shape (m : SinusoidalEmbedding.t) (x : tensor1) :
  ((0 <= SinusoidalEmbedding.dim m)%Z ->
   exists rows,
     SinusoidalEmbedding.forward m x = Ok rows /\
     length rows = length x /\
     Forall (fun row => Z.of_nat (length row) = (2 * (SinusoidalEmbedding.dim m / 2))%Z)
            rows /\
     (Z.even (SinusoidalEmbedding.dim m) = true ->
      Forall (fun row => Z.of_nat (length row) = SinusoidalEmbedding.dim m) rows) /\
     (Z.odd (SinusoidalEmbedding.dim m) = true ->
      Forall (fun row => Z.of_nat (length row) = (SinusoidalEmbedding.dim m - 1)%Z) rows)) /\
  ((SinusoidalEmbedding.dim m < 0)%Z ->
   exists msg, SinusoidalEmbedding.forward m x = Raise (RuntimeError msg)).
Proof.
  split.
  - intros Hd.
    assert (Hh : (0 <= SinusoidalEmbedding.dim m / 2)%Z) by (apply Z.div_pos; lia).
    eexists. split; [apply embedding_rows; exact Hh |].
    assert (Hcols : Forall
              (fun row => Z.of_nat (length row) = (2 * (SinusoidalEmbedding.dim m / 2))%Z)
              (map (fun v =>
                      map (fun k => sin (v * SinusoidalEmbedding.scale m *
                             exp (- (ln 10000 / IZR (SinusoidalEmbedding.dim m / 2 - 1)) * INR k)))
                          (seq 0 (Z.to_nat (SinusoidalEmbedding.dim m / 2))) ++
                      map (fun k => cos (v * SinusoidalEmbedding.scale m *
                             exp (- (ln 10000 / IZR (SinusoidalEmbedding.dim m / 2 - 1)) * INR k)))
                          (seq 0 (Z.to_nat (SinusoidalEmbedding.dim m / 2)))) x)).
    { apply Forall_map, Forall_forall. intros v _.
      rewrite length_app, !length_map, !length_seq. lia. }
    split; [now rewrite length_map | split; [exact Hcols | split]].
    + intros He. eapply Forall_impl; [| exact Hcols]. intros row ->.
      pose proof (Zmod_even (SinusoidalEmbedding.dim m)) as Hm.
      rewrite He in Hm.
      pose proof (Z.div_mod (SinusoidalEmbedding.dim m) 2 ltac:(lia)). lia.
    + intros Ho. eapply Forall_impl; [| exact Hcols]. intros row ->.
      pose proof (Zmod_odd (SinusoidalEmbedding.dim m)) as Hm.
      rewrite Ho in Hm.
      pose proof (Z.div_mod (SinusoidalEmbedding.dim m) 2 ltac:(lia)). lia.
  - intros Hd. unfold SinusoidalEmbedding.forward, arange. cbv zeta.
    assert (SinusoidalEmbedding.dim m / 2 < 0)%Z by (apply Z.div_lt_upper_bound; lia).
    destruct (Z.ltb_spec (SinusoidalEmbedding.dim m / 2) 0); [| lia].
    cbn. eauto.
Qed.

Lemma embedding_shape_witness :
  exists rows,
    SinusoidalEmbedding.forward
      {| SinusoidalEmbedding.dim := 5; SinusoidalEmbedding.scale := 25 |} [0; 1] = Ok rows /\
    Forall (fun row => Z.of_nat (length row) = 4%Z) rows.
Proof.
  destruct (embedding_shape
              {| SinusoidalEmbedding.dim := 5; SinusoidalEmbedding.scale := 25 |} [0; 1])
    as [H _].
  destruct H as (rows & Hrun & _ & _ & _ & Hodd); [cbn; lia |].
  exists rows. split; [exact Hrun | apply Hodd; reflexivity].
Defined.

(** X11. With at least two frequencies ([dim // 2 >= 2]), every row of the
    embedding pairs a sine column [k] with the cosine column
    [dim // 2 + k] of the same angle: the two squares add up to 1, so
    every entry lies in [-1, 1]. The first frequency is 1 (column 0 is
    [sin(scale * x)]) and the last is 1 / 10000. *)
Theorem embedding_columns (m : SinusoidalEmbedding.t) (x : tensor1) (i k : nat) :
  (2 <= SinusoidalEmbedding.dim m / 2)%Z ->
  (i < length x)%nat ->
  (k < Z.to_nat (SinusoidalEmbedding.dim m / 2))%nat ->
  let h := Z.to_nat (SinusoidalEmbedding.dim m / 2) in
  let v := nth i x 0 * SinusoidalEmbedding.scale m in
  exists rows,
    SinusoidalEmbedding.forward m x = Ok rows /\
    let row := nth i rows [] in
    nth k row 0 ^ 2 + nth (h + k) row 0 ^ 2 = 1 /\
    -1 <= nth k row 0 <= 1 /\ -1 <= nth (h + k) row 0 <= 1 /\
    nth 0 row 0 = sin v /\ nth h row 0 = cos v /\
    nth (h - 1) row 0 = sin (v / 10000) /\
    nth (h + (h - 1)) row 0 = cos (v / 10000).
Proof.
  intros Hh Hi Hk h v.
  eexists. split; [apply embedding_rows; lia |]. cbv zeta.
  set (angle := fun (u : R) (j : nat) =>
         u * SinusoidalEmbedding.scale m *
         exp (- (ln 10000 / IZR (SinusoidalEmbedding.dim m / 2 - 1)) * INR j)).
  set (F := fun u => map (fun j => sin (angle u j)) (seq 0 (Z.to_nat (SinusoidalEmbedding.dim m / 2))) ++
                     map (fun j => cos (angle u j)) (seq 0 (Z.to_nat (SinusoidalEmbedding.dim m / 2)))).
  change (map _ x) with (map F x).
  rewrite (nth_indep _ [] (F 0)) by (now rewrite length_map).
  rewrite map_nth. fold h in F |- *.
  assert (Hsin : forall j, (j < h)%nat -> nth j (F (nth i x 0)) 0 = sin (angle (nth i x 0) j)).
  { intros j Hj. unfold F. rewrite app_nth1 by (now rewrite length_map, length_seq).
    now apply (nth_map_seq_any (fun j => sin (angle (nth i x 0) j))). }
  assert (Hcos : forall j, (j < h)%nat ->
                           nth (h + j) (F (nth i x 0)) 0 = cos (angle (nth i x 0) j)).
  { intros j Hj. unfold F. rewrite app_nth2 by (rewrite length_map, length_seq; lia).
    rewrite length_map, length_seq.
    replace (h + j - h)%nat with j by lia.
    now apply (nth_map_seq_any (fun j => cos (angle (nth i x 0) j))). }
  assert (Hh2 : (2 <= h)%nat) by (unfold h; lia).
  assert (A0 : angle (nth i x 0) 0%nat = v).
  { unfold angle, v. cbn [INR]. rewrite Rmult_0_r, exp_0. ring. }
  assert (Alast : angle (nth i x 0) (h - 1)%nat = v / 10000).
  { unfold angle, v.
    assert (E : INR (h - 1) = IZR (SinusoidalEmbedding.dim m / 2 - 1)).
    { rewrite INR_IZR_INZ. f_equal. unfold h. lia. }
    rewrite E.
    assert (Hnz : IZR (SinusoidalEmbedding.dim m / 2 - 1) <> 0).
    { apply not_0_IZR. lia. }
    replace (- (ln 10000 / IZR (SinusoidalEmbedding.dim m / 2 - 1)) *
             IZR (SinusoidalEmbedding.dim m / 2 - 1)) with (- ln 10000)
      by (field; exact Hnz).
    rewrite exp_Ropp, exp_ln by lra. field. }
  rewrite (Hsin k Hk), (Hcos k Hk).
  replace (nth 0 (F (nth i x 0)) 0) with (sin (angle (nth i x 0) 0%nat))
    by (symmetry; apply Hsin; lia).
  replace (nth h (F (nth i x 0)) 0) with (cos (angle (nth i x 0) 0%nat))
    by (symmetry; rewrite <- (Nat.add_0_r h) at 1; apply Hcos; lia).
  rewrite (Hsin (h - 1)%nat) by lia. rewrite (Hcos (h - 1)%nat) by lia.
  rewrite A0, Alast.
  pose proof (sin2_cos2 (angle (nth i x 0) k)) as Hsc. unfold Rsqr in Hsc.
  pose proof (SIN_bound (angle (nth i x 0) k)).
  pose proof (COS_bound (angle (nth i x 0) k)).
  repeat split; try lra; try tauto.
Qed.

Lemma embedding_columns_witness :
  exists rows,
    SinusoidalEmbedding.forward
      {| SinusoidalEmbedding.dim := 4; SinusoidalEmbedding.scale := 25 |} [1] = Ok rows /\
    nth 0 (nth 0 rows []) 0 = sin (1 * 25).
Proof.
  destruct (embedding_columns
              {| SinusoidalEmbedding.dim := 4; SinusoidalEmbedding.scale := 25 |}
              [1] 0 0) as (rows & Hrun & _ & _ & _ & H0 & _).
  - cbn. lia.
  - cbn. lia.
  - cbn. lia.
  - exists rows. split; [exact Hrun | exact H0].
Defined.

(** ** The denoiser network *)

Lemma Linear_init_shape (in_f out_f : Z) (w : nat -> nat -> R) (b : nat -> R) :
  (0 <= in_f)%Z -> (0 <= out_f)%Z ->
  exists l, Linear_init in_f out_f w b = Ok l /\
            linear_shape l (Z.to_nat in_f) (Z.to_nat out_f).
Proof.
  intros Hi Ho. unfold Linear_init.
  destruct (Z.ltb_spec in_f 0); [lia |]. destruct (Z.ltb_spec out_f 0); [lia |].
  cbn [orb]. eexists. split; [reflexivity |].
  unfold linear_shape, has_width. cbn.
  rewrite !length_map, !length_seq. repeat split.
  apply Forall_map, Forall_forall. intros j _. now rewrite length_map, length_seq.
Qed.

Lemma Linear_init_refused (in_f out_f : Z) (w : nat -> nat -> R) (b : nat -> R) :
  (in_f < 0 \/ out_f < 0)%Z ->
  exists msg, Linear_init in_f out_f w b = Raise (RuntimeError msg).
Proof.
  intros H. unfold Linear_init.
  destruct (Z.ltb_spec in_f 0); destruct (Z.ltb_spec out_f 0); cbn; eauto; lia.
Qed.

Lemma mapM_length {A B} (f : A -> result B) (l : list A) (bs : list B) :
  mapM f l = Ok bs -> length bs = length l.
Proof.
  revert bs. induction l as [| a l IH]; intros bs H; cbn in H.
  - injection H as <-. reflexivity.
  - destruct (f a) as [b | e]; cbn in H; [| discriminate].
    destruct (mapM f l) as [bs' | e]; cbn in H; [| discriminate].
    injection H as <-. cbn. f_equal. now apply IH.
Qed.

Lemma mapM_Forall {A B} (f : A -> result B) (P : B -> Prop) (l : list A) :
  (forall a, In a l -> exists b, f a = Ok b /\ P b) ->
  exists bs, mapM f l = Ok bs /\ Forall P bs /\ length bs = length l.
Proof.
  induction l as [| a l IH]; intros Hf; cbn.
  - exists []. repeat split. constructor.
  - destruct (Hf a (or_introl eq_refl)) as (b & -> & Hb).
    destruct IH as (bs & -> & Hbs & Hlen); [intros; apply Hf; now right |].
    cbn. exists (b :: bs). repeat split; [now constructor | cbn; congruence].
Qed.

Lemma Linear_forward_shape (l : Linear) (i o : nat) (x : matrix) :
  linear_shape l i o -> has_width x i ->
  exists y, Linear_forward l x = Ok y /\ has_width y o /\ length y = length x.
Proof.
  intros (Hin & _ & Hw & _ & Hb) Hx. unfold Linear_forward.
  apply mapM_Forall. intros row Hrow.
  unfold has_width in Hx. rewrite Forall_forall in Hx.
  rewrite (Hx _ Hrow), Hin, Nat.eqb_refl.
  eexists. split; [reflexivity |]. rewrite length_zip_with; congruence.
Qed.

Lemma relu_shape (x : matrix) (w : nat) :
  has_width x w -> has_width (relu x) w /\ length (relu x) = length x.
Proof.
  intros Hx. unfold relu. split; [| now rewrite length_map].
  apply Forall_map. eapply Forall_impl; [| exact Hx].
  intros row Hr. cbn beta. now rewrite length_map.
Qed.

Lemma add2_shape (x y : matrix) (w : nat) :
  has_width x w -> has_width y w -> length x = length y ->
  exists z, add2 x y = Ok z /\ has_width z w /\ length z = length x.
Proof.
  intros Hx Hy Hlen. unfold add2.
  rewrite broadcast_same_length by exact Hlen. cbn [rbind].
  revert y Hy Hlen. induction Hx as [| r x Hr Hx IH]; intros [| s y] Hy Hlen;
    cbn in Hlen; try discriminate.
  - exists []. cbn. repeat split. constructor.
  - inversion Hy as [| ? ? Hs Hy']; subst.
    destruct (IH y Hy' ltac:(congruence)) as (z & Hz & Hzw & Hzl).
    cbn [zip_with mapM].
    rewrite broadcast_same_length by congruence. cbn [rbind].
    rewrite Hz. cbn [rbind].
    eexists. split; [reflexivity |]. split; [| cbn; congruence].
    constructor; [| exact Hzw]. rewrite length_zip_with; congruence.
Qed.

Lemma Layer_forward_shape (layer : MLPDenoiser.Layer) (i o : nat) (x : matrix) :
  layer_shape layer i o -> has_width x i ->
  exists y, MLPDenoiser.Layer_forward layer x = Ok y /\
            has_width y o /\ length y = length x.
Proof.
  intros Hl Hx. destruct layer as [l | b |]; cbn in *.
  - now apply Linear_forward_shape with (i := i).
  - destruct Hl as [<- Hl]. unfold ResidualBlock.forward.
    destruct (relu_shape x i Hx) as [Hrw Hrl].
    destruct (Linear_forward_shape _ _ _ _ Hl Hrw) as (y & -> & Hyw & Hyl).
    cbn [rbind]. apply add2_shape; congruence.
  - subst o. destruct (relu_shape x i Hx) as [Hrw Hrl]. eauto.
Qed.

Lemma Sequential_forward_shape (layers : list MLPDenoiser.Layer) (i o : nat) (x : matrix) :
  network_shape layers i o -> has_width x i ->
  exists y, MLPDenoiser.Sequential_forward layers x = Ok y /\
            has_width y o /\ length y = length x.
Proof.
  revert i x. induction layers as [| layer rest IH]; intros i x Hn Hx; cbn in *.
  - subst o. eauto.
  - destruct Hn as (mid & Hl & Hrest).
    destruct (Layer_forward_shape layer i mid x Hl Hx) as (y & -> & Hyw & Hyl).
    cbn [rbind].
    destruct (IH mid y Hrest Hyw) as (z & -> & Hzw & Hzl).
    exists z. repeat split; [exact Hzw | congruence].
Qed.

Lemma network_shape_app (a b : list MLPDenoiser.Layer) (i mid o : nat) :
  network_shape a i mid -> network_shape b mid o -> network_shape (a ++ b) i o.
Proof.
  revert i. induction a as [| layer a IH]; intros i Ha Hb; cbn in *.
  - now subst.
  - destruct Ha as (m' & Hl & Ha). exists m'. split; [exact Hl | now apply IH].
Qed.

Lemma residual_blocks_shape (blocks : list ResidualBlock.t) (h : nat) :
  Forall (fun b => linear_shape (ResidualBlock.ff b) h h) blocks ->
  network_shape (map MLPDenoiser.ResidualLayer blocks) h h.
Proof.
  induction 1 as [| b blocks Hb _ IH]; cbn; [reflexivity |].
  exists h. cbn. split; [split; [reflexivity | exact Hb] | exact IH].
Qed.

Lemma residual_blocks_init (hidden_dim : Z) (init : MLPDenoiser.Initializer) (n : nat) :
  (0 <= hidden_dim)%Z ->
  exists blocks,
    mapM (fun k => ResidualBlock.__init__ hidden_dim (fst (init (S k))) (snd (init (S k))))
         (seq 0 n) = Ok blocks /\
    Forall (fun b => linear_shape (ResidualBlock.ff b) (Z.to_nat hidden_dim)
                       (Z.to_nat hidden_dim)) blocks /\
    length blocks = length (seq 0 n).
Proof.
  intros Hh. apply mapM_Forall. intros k _. unfold ResidualBlock.__init__.
  destruct (Linear_init_shape hidden_dim hidden_dim (fst (init (S k))) (snd (init (S k)))
              Hh Hh) as (l & -> & Hl).
  cbn. eauto.
Qed.

Lemma denoiser_init_shape
    (embedding_dim hidden_dim hidden_layers : Z) (init : MLPDenoiser.Initializer) :
  (0 <= embedding_dim)%Z -> (0 <= hidden_dim)%Z ->
  exists m,
    MLPDenoiser.__init__ embedding_dim hidden_dim hidden_layers init = Ok m /\
    denoiser_shape m embedding_dim /\
    length (MLPDenoiser.network m) = (Z.to_nat hidden_layers + 3)%nat.
Proof.
  intros He Hh. unfold MLPDenoiser.__init__. cbv zeta.
  destruct (Linear_init_shape (embedding_dim * 3 + 1) hidden_dim
              (fst (init 0%nat)) (snd (init 0%nat)) ltac:(lia) Hh) as (first & -> & Hfirst).
  cbn [rbind].
  destruct (residual_blocks_init hidden_dim init (Z.to_nat hidden_layers) Hh)
    as (blocks & -> & Hblocks & Hlen).
  cbn [rbind].
  destruct (Linear_init_shape hidden_dim 2
              (fst (init (S (Z.to_nat hidden_layers))))
              (snd (init (S (Z.to_nat hidden_layers)))) Hh ltac:(lia))
    as (last & -> & Hlast).
  cbn [rbind]. eexists. split; [reflexivity |]. split.
  - unfold denoiser_shape. cbn. repeat split.
    exists first, (map MLPDenoiser.ResidualLayer blocks ++
                   [MLPDenoiser.ReLULayer; MLPDenoiser.LinearLayer last]),
           (Z.to_nat hidden_dim).
    split; [reflexivity | split; [exact Hfirst |]].
    eapply network_shape_app; [apply residual_blocks_shape; exact Hblocks |].
    cbn. exists (Z.to_nat hidden_dim). split; [reflexivity |].
    exists 2%nat. split; [exact Hlast | reflexivity].
  - cbn. rewrite length_app, length_map, Hlen, length_seq. cbn. lia.
Qed.

(** X12. The constructor of the denoiser returns a network exactly when
    [embedding_dim] and [hidden_dim] are non-negative: then the network is
    a linear map on [3 * embedding_dim + 1] features, [hidden_layers]
    residual blocks (none for a negative count), a ReLU and a linear map to
    2 features, all of matching shapes. Otherwise the tensor library
    refuses a negative size. *)
Theorem denoiser_construction
    (embedding_dim hidden_dim hidden_layers : Z) (init : MLPDenoiser.Initializer) :
  ((0 <= embedding_dim)%Z -> (0 <= hidden_dim)%Z ->
   exists m,
     MLPDenoiser.__init__ embedding_dim hidden_dim hidden_layers init = Ok m /\
     denoiser_shape m embedding_dim /\
     length (MLPDenoiser.network m) = (Z.to_nat hidden_layers + 3)%nat) /\
  ((embedding_dim < 0 \/ hidden_dim < 0)%Z ->
   exists msg,
     MLPDenoiser.__init__ embedding_dim hidden_dim hidden_layers init =
     Raise (RuntimeError msg)).
Proof.
  split.
  - intros He Hh. now apply denoiser_init_shape.
  - intros Hneg. unfold MLPDenoiser.__init__. cbv zeta.
    destruct (Z.ltb_spec embedding_dim 0) as [He | He].
    + destruct (Linear_init_refused (embedding_dim * 3 + 1) hidden_dim
                  (fst (init 0%nat)) (snd (init 0%nat))) as (msg & ->); [lia |].
      cbn. eauto.
    + destruct (Linear_init_refused (embedding_dim * 3 + 1) hidden_dim
                  (fst (init 0%nat)) (snd (init 0%nat))) as (msg & ->); [lia |].
      cbn. eauto.
Qed.

Lemma denoiser_construction_witness :
  exists m,
    MLPDenoiser.__init__ 4 3 1 demo_initializer = Ok m /\ denoiser_shape m 4.
Proof.
  destruct (denoiser_construction 4 3 1 demo_initializer) as [H _].
  destruct H as (m & Hm & Hs & _); [lia | lia |].
  exists m. split; [exact Hm | exact Hs].
Defined.

Lemma embedding_forward_shape (m : SinusoidalEmbedding.t) (x : tensor1) :
  (0 <= SinusoidalEmbedding.dim m)%Z ->
  exists rows,
    SinusoidalEmbedding.forward m x = Ok rows /\
    has_width rows (2 * Z.to_nat (SinusoidalEmbedding.dim m / 2)) /\
    length rows = length x.
Proof.
  intros Hd.
  assert (Hh : (0 <= SinusoidalEmbedding.dim m / 2)%Z) by (apply Z.div_pos; lia).
  eexists. split; [apply embedding_rows; exact Hh |].
  split; [| now rewrite length_map].
  apply Forall_map, Forall_forall. intros v _.
  rewrite length_app, !length_map, !length_seq. lia.
Qed.

Lemma cat_last_shape (a b : matrix) (wa wb : nat) :
  length a = length b -> has_width a wa -> has_width b wb ->
  exists c, cat_last a b = Ok c /\ has_width c (wa + wb) /\ length c = length a.
Proof.
  intros Hlen Ha Hb. unfold cat_last. rewrite Hlen, Nat.eqb_refl.
  eexists. split; [reflexivity |]. split; [| rewrite length_zip_with; exact Hlen].
  clear Hlen. revert b Hb. induction Ha as [| r a Hr _ IH]; intros b Hb.
  - constructor.
  - destruct Hb as [| s b Hs Hb]; cbn; constructor.
    + rewrite length_app. congruence.
    + now apply IH.
Qed.

Lemma unsqueeze1_shape (a : tensor1) :
  has_width (unsqueeze1 a) 1 /\ length (unsqueeze1 a) = length a.
Proof.
  unfold unsqueeze1. split; [| now rewrite length_map].
  apply Forall_map, Forall_forall. now intros.
Qed.

Lemma denoiser_features (m : MLPDenoiser.t) (embedding_dim : Z)
    (x : points) (t_ : index_tensor) (noise_adjustment : tensor1) :
  denoiser_shape m embedding_dim ->
  (0 <= embedding_dim)%Z ->
  length t_ = length x -> length noise_adjustment = length x ->
  exists emb,
    has_width emb (3 * (2 * Z.to_nat (embedding_dim / 2)) + 1) /\
    length emb = length x /\
    MLPDenoiser.forward m x t_ noise_adjustment =
    MLPDenoiser.Sequential_forward (MLPDenoiser.network m) emb.
Proof.
  intros (Ht & H1 & H2 & _) He Hlt Hla. unfold MLPDenoiser.forward.
  destruct (embedding_forward_shape (MLPDenoiser.input_mlp1 m) (map fst x))
    as (e1 & -> & W1 & L1); [lia |].
  destruct (embedding_forward_shape (MLPDenoiser.input_mlp2 m) (map snd x))
    as (e2 & -> & W2 & L2); [lia |].
  destruct (embedding_forward_shape (MLPDenoiser.time_mlp m) (map IZR t_))
    as (e3 & -> & W3 & L3); [lia |].
  cbn [rbind]. rewrite length_map in L1, L2, L3. rewrite H1 in W1. rewrite H2 in W2.
  rewrite Ht in W3.
  destruct (cat_last_shape e1 e2 _ _ ltac:(congruence) W1 W2) as (e12 & -> & W12 & L12).
  cbn [rbind].
  destruct (cat_last_shape e12 e3 _ _ ltac:(congruence) W12 W3) as (e123 & -> & W123 & L123).
  cbn [rbind].
  destruct (unsqueeze1_shape noise_adjustment) as [Wu Lu].
  destruct (cat_last_shape e123 (unsqueeze1 noise_adjustment) _ _ ltac:(congruence) W123 Wu)
    as (emb & -> & Wemb & Lemb).
  cbn [rbind]. exists emb. split; [| split; [congruence | reflexivity]].
  eapply Forall_impl; [| exact Wemb]. intros row Hr. cbn beta in *. lia.
Qed.

Lemma as_points_shape (rows : matrix) :
  has_width rows 2 ->
  exists pts, as_points rows = Ok pts /\ length pts = length rows.
Proof.
  intros Hw. unfold as_points.
  destruct (mapM_Forall
              (fun row => match row with
                          | [a; b] => Ok (a, b)
                          | _ => Raise (RuntimeError
                                   "The size of tensor a must match the size of tensor b")
                          end)
              (fun _ : R * R => True) rows) as (pts & Hp & _ & Hl).
  - intros row Hin. unfold has_width in Hw. rewrite Forall_forall in Hw.
    specialize (Hw _ Hin). destruct row as [| a [| b [| c row]]]; try discriminate.
    eauto.
  - eauto.
Qed.

Lemma denoiser_forward_runs (m : MLPDenoiser.t) (embedding_dim : Z)
    (x : points) (t_ : index_tensor) (noise_adjustment : tensor1) :
  denoiser_shape m embedding_dim ->
  (0 <= embedding_dim)%Z ->
  Z.even embedding_dim = true ->
  length t_ = length x -> length noise_adjustment = length x ->
  exists rows pts,
    MLPDenoiser.forward m x t_ noise_adjustment = Ok rows /\
    length rows = length x /\ has_width rows 2 /\
    mlp_denoiser m x t_ noise_adjustment = Ok pts /\ length pts = length x.
Proof.
  intros Hs He Heven Hlt Hla.
  destruct (denoiser_features m embedding_dim x t_ noise_adjustment Hs He Hlt Hla)
    as (emb & Wemb & Lemb & Hfw).
  destruct Hs as (_ & _ & _ & first & rest & hidden & Hnet & Hfirst & Hrest).
  assert (Hwidth : (3 * (2 * Z.to_nat (embedding_dim / 2)) + 1)%nat =
                   Z.to_nat (embedding_dim * 3 + 1)).
  { pose proof (Zmod_even embedding_dim) as Hm. rewrite Heven in Hm.
    pose proof (Z.div_mod embedding_dim 2 ltac:(lia)). lia. }
  rewrite Hwidth in Wemb.
  assert (Hshape : network_shape (MLPDenoiser.network m)
                     (Z.to_nat (embedding_dim * 3 + 1)) 2).
  { rewrite Hnet. cbn. exists hidden. split; assumption. }
  destruct (Sequential_forward_shape _ _ _ emb Hshape Wemb) as (rows & Hrows & Wr & Lr).
  destruct (as_points_shape rows Wr) as (pts & Hpts & Lp).
  exists rows, pts. unfold mlp_denoiser. rewrite Hfw, Hrows. cbn [rbind].
  repeat split; try assumption; congruence.
Qed.

(** X13. A denoiser of the constructor's shape with an even, non-negative
    embedding dimension accepts every batch whose timesteps and adjustment
    factors are as many as its points: [forward] returns one row of two
    entries per point, the shape [step] and the loss expect. *)
Theorem denoiser_forward_shape (m : MLPDenoiser.t) (embedding_dim : Z)
    (x : points) (t_ : index_tensor) (noise_adjustment : tensor1) :
  denoiser_shape m embedding_dim ->
  (0 <= embedding_dim)%Z ->
  Z.even embedding_dim = true ->
  length t_ = length x -> length noise_adjustment = length x ->
  exists rows pts,
    MLPDenoiser.forward m x t_ noise_adjustment = Ok rows /\
    length rows = length x /\ has_width rows 2 /\
    mlp_denoiser m x t_ noise_adjustment = Ok pts /\ length pts = length x.
Proof. apply denoiser_forward_runs. Qed.

(** X14. An odd embedding dimension does not fit the network: the three
    embeddings then have [embedding_dim - 1] columns each, the features
    have [3 * embedding_dim - 2] columns, and the first linear map, built
    for [3 * embedding_dim + 1], refuses every non-empty batch. *)
Theorem denoiser_forward_odd_dimension (m : MLPDenoiser.t) (embedding_dim : Z)
    (x : points) (t_ : index_tensor) (noise_adjustment : tensor1) :
  denoiser_shape m embedding_dim ->
  (0 <= embedding_dim)%Z ->
  Z.odd embedding_dim = true ->
  x <> [] ->
  length t_ = length x -> length noise_adjustment = length x ->
  exists msg, MLPDenoiser.forward m x t_ noise_adjustment = Raise (RuntimeError msg).
Proof.
  intros Hs He Hodd Hx Hlt Hla.
  destruct (denoiser_features m embedding_dim x t_ noise_adjustment Hs He Hlt Hla)
    as (emb & Wemb & Lemb & ->).
  destruct Hs as (_ & _ & _ & first & rest & hidden & -> & (Hin & _) & _).
  destruct emb as [| row emb]; [destruct x; [contradiction | discriminate] |].
  inversion Wemb as [| ? ? Hrow _]; subst.
  cbn [MLPDenoiser.Sequential_forward MLPDenoiser.Layer_forward].
  unfold Linear_forward. cbn [mapM].
  destruct (Nat.eqb_spec (length row) (in_features first)) as [E | _].
  - exfalso. rewrite Hin, Hrow in E.
    pose proof (Zmod_odd embedding_dim) as Hm. rewrite Hodd in Hm.
    pose proof (Z.div_mod embedding_dim 2 ltac:(lia)). lia.
  - cbn. eauto.
Qed.

Lemma demo_denoiser_init : MLPDenoiser.__init__ 4 3 1 demo_initializer = Ok demo_denoiser.
Proof. reflexivity. Qed.

Lemma demo_denoiser_shape : denoiser_shape demo_denoiser 4.
Proof.
  destruct (denoiser_init_shape 4 3 1 demo_initializer) as (m & Hm & Hs & _); try lia.
  rewrite demo_denoiser_init in Hm. injection Hm as <-. exact Hs.
Qed.

Lemma odd_denoiser_init : MLPDenoiser.__init__ 5 3 0 demo_initializer = Ok odd_denoiser.
Proof. reflexivity. Qed.

Lemma odd_denoiser_shape : denoiser_shape odd_denoiser 5.
Proof.
  destruct (denoiser_init_shape 5 3 0 demo_initializer) as (m & Hm & Hs & _); try lia.
  rewrite odd_denoiser_init in Hm. injection Hm as <-. exact Hs.
Qed.

Lemma denoiser_forward_odd_dimension_witness :
  exists msg,
    MLPDenoiser.forward odd_denoiser [(0, 0)] [1%Z] [1] = Raise (RuntimeError msg).
Proof.
  apply (denoiser_forward_odd_dimension odd_denoiser 5 [(0, 0)] [1%Z] [1]).
  - exact odd_denoiser_shape.
  - lia.
  - reflexivity.
  - discriminate.
  - reflexivity.
  - reflexivity.
Defined.

Lemma denoiser_forward_shape_witness :
  exists pts,
    mlp_denoiser demo_denoiser [(0, 0)] [1%Z] [1] = Ok pts /\ length pts = 1%nat.
Proof.
  destruct (denoiser_forward_shape demo_denoiser 4 [(0, 0)] [1%Z] [1])
    as (rows & pts & _ & _ & _ & Hp & Hl).
  - exact demo_denoiser_shape.
  - lia.
  - reflexivity.
  - reflexivity.
  - reflexivity.
  - exists pts. split; [exact Hp | exact Hl].
Defined.

(** ** The sampling loop *)

Lemma step_effect (s : NoiseScheduler) (model_output : points) (t : Z)
    (sample : points) (g : Generator) :
  well_formed s ->
  in_range s t ->
  length model_output = length sample ->
  exists out,
    step model_output t sample (world s g) =
    (Ok out, world s (if (0 <? t)%Z then snd (randn_like model_output g) else g)) /\
    length out = length sample.
Proof.
  intros Hwf Ht Hlen.
  destruct (posterior_of_reconstruction_runs s model_output t sample Hwf Ht Hlen)
    as (mu & Hlmu & Hmu).
  rewrite (step_runs s model_output t sample mu g Hwf Ht Hlen (Hmu g)).
  destruct (0 <? t)%Z; eexists; (split; [reflexivity |]); [| exact Hlmu].
  rewrite length_zip_with; [exact Hlmu |].
  unfold scale_points. rewrite length_map, length_randn_like. congruence.
Qed.

Lemma sampling_loop_runs (model : Denoiser) (s : NoiseScheduler) (n : Z)
    (timesteps : list Z) :
  well_formed s ->
  batch_preserving model ->
  (1 <= n)%Z ->
  Forall (in_range s) timesteps ->
  forall (sample : points) (g : Generator),
    length sample = Z.to_nat n ->
    exists out g',
      sampling_loop model n timesteps sample (world s g) = (Ok out, world s g') /\
      length out = Z.to_nat n /\
      draws g' = draws g /\
      offset g' =
        (offset g +
         2 * Z.to_nat n * length (filter (fun t => (0 <? t)%Z) timesteps))%nat.
Proof.
  intros Hwf Hmodel Hn Hts.
  induction Hts as [| t ts Ht _ IH]; intros sample g Hlen.
  - exists sample, g. cbn. repeat split; [exact Hlen | lia].
  - cbn [sampling_loop]. unfold np_repeat.
    destruct (Z.ltb_spec n 0); [lia |].
    unfold bind at 1. unfold lift at 1.
    assert (Lrep : length (repeat t (Z.to_nat n)) = length sample)
      by (rewrite repeat_length; congruence).
    assert (Hrep : Forall (in_range s) (repeat t (Z.to_nat n))).
    { apply Forall_forall. intros u Hu. now apply repeat_spec in Hu as ->. }
    unfold bind at 1.
    rewrite (get_grid_noise_adjustment_runs s _ sample g Hwf Lrep Hrep).
    destruct (Hmodel sample (repeat t (Z.to_nat n))
                (zip_with (adjustment_at s) (repeat t (Z.to_nat n)) sample))
      as (r & Hr & Lr); [exact Lrep | rewrite length_zip_with; congruence |].
    unfold bind at 1. unfold lift at 1. rewrite Hr.
    unfold bind at 1. unfold lift at 1.
    assert (Hget : getitem (repeat t (Z.to_nat n)) 0 = Ok t).
    { rewrite (getitem_in_range _ 0 t) by (rewrite repeat_length; lia).
      destruct (Z.to_nat n) eqn:E; [lia | reflexivity]. }
    rewrite Hget.
    destruct (step_effect s r t sample g Hwf Ht Lr) as (out1 & Hstep & Lout1).
    unfold bind at 1. rewrite Hstep.
    destruct (IH out1 (if (0 <? t)%Z then snd (randn_like r g) else g)
                ltac:(congruence)) as (out & g' & Hloop & Lout & Hd & Ho).
    exists out, g'. split; [exact Hloop | split; [exact Lout |]].
    cbn [filter]. destruct (0 <? t)%Z; cbn [length].
    + cbn in Hd, Ho. split; [exact Hd | lia].
    + split; [exact Hd | lia].
Qed.

Lemma reversed_range_in_range (s : NoiseScheduler) :
  Forall (in_range s) (reversed_range (num_timesteps s)).
Proof.
  apply Forall_forall. intros t Ht. unfold reversed_range in Ht.
  apply in_rev in Ht. apply in_map_iff in Ht as (k & <- & Hk).
  apply in_seq in Hk. unfold in_range. lia.
Qed.

Lemma count_positive_from (a m : nat) :
  (1 <= a)%nat ->
  length (filter (fun t => (0 <? t)%Z) (map Z.of_nat (seq a m))) = m.
Proof.
  revert a. induction m as [| m IH]; intros a Ha; cbn; [reflexivity |].
  destruct (Z.ltb_spec 0 (Z.of_nat a)); [| lia].
  cbn. f_equal. apply IH. lia.
Qed.

Lemma length_filter_rev {A} (f : A -> bool) (l : list A) :
  length (filter f (rev l)) = length (filter f l).
Proof.
  induction l as [| a l IH]; cbn; [reflexivity |].
  rewrite filter_app, length_app, IH. cbn.
  destruct (f a); cbn; lia.
Qed.

Lemma count_positive_reversed_range (T : Z) :
  length (filter (fun t => (0 <? t)%Z) (reversed_range T)) = (Z.to_nat T - 1)%nat.
Proof.
  unfold reversed_range. rewrite length_filter_rev.
  destruct (Z.to_nat T) as [| m]; [reflexivity |].
  cbn. rewrite count_positive_from by lia. lia.
Qed.

Lemma sample_points_runs (model : Denoiser) (s : NoiseScheduler) (n : Z) (g : Generator) :
  well_formed s ->
  (0 <= num_timesteps s)%Z ->
  batch_preserving model ->
  (1 <= n)%Z ->
  exists out g',
    sample_points model n (world s g) = (Ok out, world s g') /\
    length out = Z.to_nat n /\
    draws g' = draws g /\
    offset g' = (offset g + 2 * Z.to_nat n * Z.to_nat (Z.max 1 (num_timesteps s)))%nat.
Proof.
  intros Hwf HT Hmodel Hn.
  unfold sample_points, randn_m, randn, len, __len__.
  unfold bind at 1. cbn [generator world self].
  destruct (Z.ltb_spec n 0); [lia |].
  change (randn_like (repeat (0, 0) (Z.to_nat n)) g)
    with (fst (randn_like (repeat (0, 0) (Z.to_nat n)) g),
          snd (randn_like (repeat (0, 0) (Z.to_nat n)) g)).
  cbv iota beta.
  unfold bind at 1. unfold bind at 1. unfold attr at 1. cbn [self].
  destruct (Z.ltb_spec (num_timesteps s) 0); [lia |].
  unfold ret at 1.
  destruct (sampling_loop_runs model s n (reversed_range (num_timesteps s))
              Hwf Hmodel Hn (reversed_range_in_range s)
              (fst (randn_like (repeat (0, 0) (Z.to_nat n)) g))
              (snd (randn_like (repeat (0, 0) (Z.to_nat n)) g)))
    as (out & g' & Hloop & Lout & Hd & Ho).
  { now rewrite length_randn_like, repeat_length. }
  exists out, g'. split; [exact Hloop | split; [exact Lout | split]].
  - exact Hd.
  - rewrite Ho, count_positive_reversed_range. cbn [randn_like snd offset].
    rewrite repeat_length. nia.
Qed.

(** X15. Sampling runs to the end: on a well-formed scheduler, with a
    denoiser that returns one point per sample and a batch size of at
    least 1, the sampling loop visits the timesteps T-1, ..., 0, never
    raises and returns as many points as the batch size. It leaves the
    scheduler as it was and consumes exactly [2 * N] standard-normal draws
    for the initial batch and [2 * N] for every step but the last. *)
Theorem sampling_returns_batch
    (model : Denoiser) (s : NoiseScheduler) (eval_batch_size : Z) (g : Generator) :
  well_formed s ->
  (0 <= num_timesteps s)%Z ->
  batch_preserving model ->
  (1 <= eval_batch_size)%Z ->
  exists out g',
    sample_points model eval_batch_size (world s g) = (Ok out, world s g') /\
    length out = Z.to_nat eval_batch_size /\
    draws g' = draws g /\
    offset g' =
      (offset g +
       2 * Z.to_nat eval_batch_size * Z.to_nat (Z.max 1 (num_timesteps s)))%nat.
Proof. apply sample_points_runs. Qed.

Lemma mlp_denoiser_batch_preserving (m : MLPDenoiser.t) (embedding_dim : Z) :
  denoiser_shape m embedding_dim ->
  (0 <= embedding_dim)%Z ->
  Z.even embedding_dim = true ->
  batch_preserving (mlp_denoiser m).
Proof.
  intros Hs He Heven x t_ a Hlt Hla.
  destruct (denoiser_forward_runs m embedding_dim x t_ a Hs He Heven Hlt Hla)
    as (rows & pts & _ & _ & _ & Hp & Hl).
  eauto.
Qed.

Lemma sampling_returns_batch_witness :
  exists out g',
    sample_points (mlp_denoiser demo_denoiser) 3 (world demo_scheduler demo_generator) =
    (Ok out, world demo_scheduler g') /\
    length out = 3%nat /\ offset g' = 12%nat.
Proof.
  destruct (sampling_returns_batch (mlp_denoiser demo_denoiser) demo_scheduler 3
              demo_generator) as (out & g' & Hrun & Hlen & _ & Hoff).
  - exact demo_well_formed.
  - rewrite demo_num_timesteps. lia.
  - apply (mlp_denoiser_batch_preserving demo_denoiser 4);
      [exact demo_denoiser_shape | lia | reflexivity].
  - lia.
  - exists out, g'. split; [exact Hrun | split; [exact Hlen |]].
    rewrite Hoff, demo_num_timesteps. reflexivity.
Defined.

(** X16. The pieces the main program builds fit together: with the
    scheduler of a valid configuration and the denoiser the constructor
    returns for a non-negative even [embedding_dim] and a non-negative
    [hidden_dim], sampling a batch of one point or more returns that many
    points and raises nothing. *)
Theorem sampling_with_constructed_objects
    (cfg : Config) (s : NoiseScheduler)
    (embedding_dim hidden_dim hidden_layers : Z) (init : MLPDenoiser.Initializer)
    (m : MLPDenoiser.t) (eval_batch_size : Z) (g : Generator) :
  __init__ cfg = Ok s ->
  valid_config cfg ->
  MLPDenoiser.__init__ embedding_dim hidden_dim hidden_layers init = Ok m ->
  (0 <= embedding_dim)%Z -> Z.even embedding_dim = true -> (0 <= hidden_dim)%Z ->
  (1 <= eval_batch_size)%Z ->
  exists out g',
    sample_points (mlp_denoiser m) eval_batch_size (world s g) = (Ok out, world s g') /\
    length out = Z.to_nat eval_batch_size.
Proof.
  intros Hs Hv Hm He Heven Hh Hn.
  pose proof (init_valid_ranges cfg s Hs Hv) as (Hwf & ET & HT & _).
  destruct (denoiser_init_shape embedding_dim hidden_dim hidden_layers init He Hh)
    as (m' & Hm' & Hshape & _).
  rewrite Hm in Hm'. injection Hm' as <-.
  destruct (sample_points_runs (mlp_denoiser m) s eval_batch_size g Hwf ltac:(lia)
              (mlp_denoiser_batch_preserving m embedding_dim Hshape He Heven) Hn)
    as (out & g' & Hrun & Hlen & _).
  eauto.
Qed.

Lemma sampling_with_constructed_objects_witness :
  exists out g',
    sample_points (mlp_denoiser demo_denoiser) 2 (world demo_scheduler demo_generator) =
    (Ok out, world demo_scheduler g') /\
    length out = 2%nat.
Proof.
  apply (sampling_with_constructed_objects demo_config demo_scheduler 4 3 1
           demo_initializer demo_denoiser 2 demo_generator).
  - exact demo_init.
  - exact demo_valid_config.
  - exact demo_denoiser_init.
  - lia.
  - reflexivity.
  - lia.
  - lia.
Defined.

Lemma reversed_range_head (T : Z) :
  (0 < T)%Z -> exists rest, reversed_range T = (T - 1)%Z :: rest.
Proof.
  intros HT. unfold reversed_range.
  replace (Z.to_nat T) with (S (Z.to_nat (T - 1))) by lia.
  rewrite seq_S, map_app, rev_app_distr. cbn.
  eexists. f_equal. lia.
Qed.

(** X17. An empty batch stops the sampling loop at its first step: with a
    batch size of 0 and at least one timestep, [t[0]] on the empty
    timestep tensor raises an [IndexError] (provided the denoiser accepts
    the empty batch); no random number is drawn and the scheduler is
    untouched. *)
Theorem sampling_empty_batch_raises
    (model : Denoiser) (s : NoiseScheduler) (g : Generator) (r : points) :
  well_formed s ->
  (0 < num_timesteps s)%Z ->
  model [] [] [] = Ok r ->
  exists msg g',
    sample_points model 0 (world s g) = (Raise (IndexError msg), world s g') /\
    draws g' = draws g /\ offset g' = offset g.
Proof.
  intros Hwf HT Hmodel.
  destruct (reversed_range_head (num_timesteps s) HT) as (rest & Hrev).
  unfold sample_points, randn_m, randn, len, __len__.
  unfold bind at 1. cbn.
  unfold bind at 1. unfold bind at 1. unfold attr at 1. cbn [self].
  destruct (Z.ltb_spec (num_timesteps s) 0); [lia |].
  unfold ret. cbv beta iota. rewrite Hrev. cbn [sampling_loop]. unfold np_repeat.
  change (0 <? 0)%Z with false. cbv iota. change (Z.to_nat 0) with 0%nat. cbn [repeat].
  unfold bind at 1. unfold lift at 1. cbv beta iota.
  unfold bind at 1.
  change {| self := s; generator := {| draws := draws g; offset := offset g + 0 |} |}
    with (world s {| draws := draws g; offset := offset g + 0 |}).
  rewrite (get_grid_noise_adjustment_runs s [] [] _ Hwf eq_refl (Forall_nil _)).
  cbn [zip_with].
  unfold bind at 1. unfold lift at 1. rewrite Hmodel.
  unfold bind at 1. unfold lift at 1.
  change (getitem (@nil Z) 0) with (@Raise Z (IndexError "index out of range")).
  cbv beta iota.
  eexists _, _. split; [reflexivity |]. cbn. split; [reflexivity | lia].
Qed.

Lemma sampling_empty_batch_raises_witness :
  exists msg g',
    sample_points (mlp_denoiser demo_denoiser) 0 (world demo_scheduler demo_generator) =
    (Raise (IndexError msg), world demo_scheduler g').
Proof.
  destruct (sampling_empty_batch_raises (mlp_denoiser demo_denoiser) demo_scheduler
              demo_generator []) as (msg & g' & H & _).
  - exact demo_well_formed.
  - rewrite demo_num_timesteps. lia.
  - reflexivity.
  - exists msg, g'. exact H.
Defined.

(** ** The grid metric and the training loss *)

Lemma tensor_sum_nonneg (a : tensor1) :
  Forall (fun v => 0 <= v) a -> 0 <= tensor_sum a.
Proof.
  induction 1 as [| v a Hv _ IH]; cbn; [lra |]. unfold tensor_sum in IH. lra.
Qed.

Lemma tensor_sum_zero (a : tensor1) :
  Forall (fun v => 0 <= v) a -> tensor_sum a = 0 -> Forall (fun v => v = 0) a.
Proof.
  induction 1 as [| v a Hv Ha IH]; intros Hsum; [constructor |].
  cbn in Hsum. pose proof (tensor_sum_nonneg a Ha) as Hge. unfold tensor_sum in *.
  constructor; [lra | apply IH; lra].
Qed.

Lemma tensor_sum_all_zero (a : tensor1) :
  Forall (fun v => v = 0) a -> tensor_sum a = 0.
Proof.
  induction 1 as [| v a Hv _ IH]; cbn; [reflexivity |].
  unfold tensor_sum in IH. lra.
Qed.

Lemma tensor_sum_constant (a : tensor1) (c : R) :
  Forall (fun v => v = c) a -> tensor_sum a = INR (length a) * c.
Proof.
  induction 1 as [| v a Hv _ IH]; [cbn; ring |].
  cbn [tensor_sum fold_right length]. unfold tensor_sum in IH.
  rewrite IH, S_INR, Hv. ring.
Qed.

Lemma squares_nonneg (a : tensor1) (c : R) :
  Forall (fun v => 0 <= v) (map (fun v => (v - c) ^ 2) a).
Proof.
  apply Forall_map, Forall_forall. intros v _. cbn beta. apply pow2_ge_0.
Qed.

Lemma flatten_all_ones (g : tensor3) :
  all_ones g <-> Forall (fun v => v = 1) (flatten g).
Proof.
  unfold all_ones, flatten. rewrite 2!Forall_concat. tauto.
Qed.

(** X18. [calculate_grid_variance] is non-negative and is 0 exactly on a
    constant grid (for a grid of two entries or more): in particular it is
    0 on an untrained, all-ones grid and positive as soon as two entries
    differ. *)
Theorem grid_variance_zero_iff_constant (grid : tensor3) :
  (2 <= length (flatten grid))%nat ->
  0 <= calculate_grid_variance grid /\
  (calculate_grid_variance grid = 0 <->
   exists c, Forall (fun v => v = c) (flatten grid)) /\
  (all_ones grid -> calculate_grid_variance grid = 0).
Proof.
  intros Hn. unfold calculate_grid_variance, var.
  set (a := flatten grid) in *.
  assert (Hden : 0 < INR (length a) - 1).
  { apply le_INR in Hn. cbn in Hn. lra. }
  pose proof (squares_nonneg a (mean a)) as Hsq.
  pose proof (tensor_sum_nonneg _ Hsq) as HS.
  assert (Hconst : forall c, Forall (fun v => v = c) a ->
            tensor_sum (map (fun v => (v - mean a) ^ 2) a) / (INR (length a) - 1) = 0).
  { intros c Hc.
    assert (Hmean : mean a = c).
    { unfold mean. rewrite (tensor_sum_constant a c Hc). field. lra. }
    rewrite tensor_sum_all_zero; [unfold Rdiv; ring |].
    apply Forall_map. eapply Forall_impl; [| exact Hc].
    intros v ->. cbn beta. rewrite Hmean. ring. }
  split; [| split].
  - apply Rmult_le_pos; [exact HS |]. left. now apply Rinv_0_lt_compat.
  - split.
    + intros Hz. exists (mean a).
      assert (HS0 : tensor_sum (map (fun v => (v - mean a) ^ 2) a) = 0).
      { apply Rmult_eq_reg_r with (/ (INR (length a) - 1)).
        - rewrite Rmult_0_l. exact Hz.
        - apply Rinv_neq_0_compat. lra. }
      pose proof (tensor_sum_zero _ Hsq HS0) as Hall.
      rewrite Forall_map in Hall. eapply Forall_impl; [| exact Hall].
      intros v Hv. cbn beta in Hv. nra.
    + intros (c & Hc). exact (Hconst c Hc).
  - intros Hones. apply (Hconst 1). now apply flatten_all_ones.
Qed.

Lemma demo_fine_grid :
  fine_noise_grid demo_scheduler = [[[1; 1]; [1; 1]]; [[1; 1]; [1; 1]]].
Proof. reflexivity. Qed.

Lemma grid_variance_zero_iff_constant_witness :
  calculate_grid_variance (fine_noise_grid demo_scheduler) = 0.
Proof.
  destruct (grid_variance_zero_iff_constant (fine_noise_grid demo_scheduler))
    as (_ & _ & H).
  - rewrite demo_fine_grid. cbn. lia.
  - apply H. rewrite demo_fine_grid. unfold all_ones. repeat constructor.
Defined.

Lemma flatten_ones_like (g : tensor3) :
  flatten (ones_like g) = map (fun _ => 1) (flatten g).
Proof.
  unfold flatten, ones_like. rewrite !concat_map. reflexivity.
Qed.

Lemma l1_penalty_sum (g : tensor3) :
  l1_loss_sum g (ones_like g) = tensor_sum (map (fun v => Rabs (v - 1)) (flatten g)).
Proof.
  unfold l1_loss_sum. rewrite flatten_ones_like, zip_with_self_map. reflexivity.
Qed.

Lemma l1_penalty_properties (g : tensor3) :
  0 <= l1_loss_sum g (ones_like g) /\
  (l1_loss_sum g (ones_like g) = 0 <-> all_ones g).
Proof.
  rewrite l1_penalty_sum.
  assert (Hnn : Forall (fun v => 0 <= v) (map (fun v => Rabs (v - 1)) (flatten g))).
  { apply Forall_map, Forall_forall. intros v _. apply Rabs_pos. }
  split; [now apply tensor_sum_nonneg | split].
  - intros Hz. apply flatten_all_ones.
    pose proof (tensor_sum_zero _ Hnn Hz) as Hall. rewrite Forall_map in Hall.
    eapply Forall_impl; [| exact Hall]. intros v Hv. cbn beta in Hv.
    destruct (Req_dec (v - 1) 0) as [E | E]; [lra |].
    apply Rabs_no_R0 in E. contradiction.
  - intros Hones. apply tensor_sum_all_zero, Forall_map.
    apply flatten_all_ones in Hones.
    eapply Forall_impl; [| exact Hones]. intros v ->. cbn beta.
    replace (1 - 1) with 0 by ring. apply Rabs_R0.
Qed.

Lemma mse_loss_properties (input target : points) :
  length input = length target -> input <> [] ->
  exists mse,
    mse_loss input target = Ok mse /\ 0 <= mse /\ (mse = 0 <-> input = target).
Proof.
  intros Hlen Hne. unfold mse_loss.
  rewrite broadcast_same_length by exact Hlen. cbn [rbind].
  set (d := zip_with (fun p q => (fst p - fst q) ^ 2 + (snd p - snd q) ^ 2) input target).
  assert (Ld : length d = length input) by (unfold d; now apply length_zip_with).
  assert (Hpos : 0 < INR (2 * length d)).
  { apply lt_0_INR. rewrite Ld. destruct input; [contradiction | cbn; lia]. }
  assert (Hnn : Forall (fun v => 0 <= v) d).
  { unfold d. clear. revert target.
    induction input as [| p input IH]; intros [| q target]; cbn; constructor.
    - pose proof (pow2_ge_0 (fst p - fst q)). pose proof (pow2_ge_0 (snd p - snd q)). lra.
    - apply IH. }
  eexists. split; [reflexivity |].
  pose proof (tensor_sum_nonneg d Hnn) as HS.
  split; [apply Rmult_le_pos; [exact HS | left; now apply Rinv_0_lt_compat] |].
  split.
  - intros Hz.
    assert (HS0 : tensor_sum d = 0).
    { apply Rmult_eq_reg_r with (/ INR (2 * length d)).
      - rewrite Rmult_0_l. exact Hz.
      - apply Rinv_neq_0_compat. lra. }
    pose proof (tensor_sum_zero d Hnn HS0) as Hall. unfold d in Hall.
    clear - Hall Hlen. revert target Hlen Hall.
    induction input as [| [a b] input IH]; intros [| [a' b'] target] Hlen Hall;
      cbn in *; try discriminate; [reflexivity |].
    inversion Hall as [| ? ? Hhead Htail]; subst.
    pose proof (pow2_ge_0 (a - a')). pose proof (pow2_ge_0 (b - b')).
    assert (Ea : (a - a') ^ 2 = 0) by lra. assert (Eb : (b - b') ^ 2 = 0) by lra.
    f_equal; [f_equal; nra | apply IH; [congruence | exact Htail]].
  - intros <-.
    assert (Hall : Forall (fun v => v = 0) d).
    { unfold d. clear. induction input as [| p input IH]; cbn; constructor.
      - ring.
      - exact IH. }
    rewrite (tensor_sum_all_zero d Hall). unfold Rdiv. ring.
Qed.

(** X19. The loss of a training step. On a well-formed scheduler, for a
    non-empty batch with as many noise samples and in-range timesteps as
    points and a denoiser that returns one point per sample, the loss is
    computed without raising and without touching the scheduler or the
    generator. It is the mean squared error of the prediction plus the
    weight times the L1 distance of the fine grid from the all-ones grid;
    both terms are non-negative, the first is 0 exactly when the noise is
    predicted exactly, the second exactly when the fine grid is all ones,
    as it is after construction. *)
Theorem training_loss_decomposition
    (model : Denoiser) (s : NoiseScheduler) (g : Generator) (weight : R)
    (batch noise : points) (timesteps : index_tensor) :
  well_formed s ->
  batch_preserving model ->
  batch <> [] ->
  length timesteps = length batch ->
  length timesteps = length noise ->
  Forall (in_range s) timesteps ->
  exists noisy adjustment noise_pred mse,
    add_noise batch noise timesteps (world s g) = (Ok noisy, world s g) /\
    get_grid_noise_adjustment timesteps batch (world s g) = (Ok adjustment, world s g) /\
    model noisy timesteps adjustment = Ok noise_pred /\
    mse_loss noise_pred noise = Ok mse /\
    let l1 := l1_loss_sum (fine_noise_grid s) (ones_like (fine_noise_grid s)) in
    training_loss model weight batch noise timesteps (world s g) =
      (Ok (mse + weight * l1), world s g) /\
    0 <= mse /\ (mse = 0 <-> noise_pred = noise) /\
    0 <= l1 /\ (l1 = 0 <-> all_ones (fine_noise_grid s)) /\
    (0 <= weight -> 0 <= mse + weight * l1).
Proof.
  intros Hwf Hmodel Hne Hb Hn Hts.
  pose proof (add_noise_runs s batch noise timesteps g Hwf Hb Hn Hts) as Hadd.
  pose proof (get_grid_noise_adjustment_runs s timesteps batch g Hwf Hb Hts) as Hadj.
  set (noisy := zip3_with _ timesteps batch noise) in Hadd.
  assert (Lnoisy : length noisy = length batch).
  { unfold noisy. rewrite length_zip3_with; congruence. }
  destruct (Hmodel noisy timesteps (zip_with (adjustment_at s) timesteps batch))
    as (pred & Hpred & Lpred); [congruence | rewrite length_zip_with; congruence |].
  destruct (mse_loss_properties pred noise) as (mse & Hmse & Hge & Hiff).
  { congruence. }
  { destruct pred; [| discriminate]. destruct batch; [contradiction | ].
    cbn in Lpred, Lnoisy. rewrite Lnoisy in Lpred. discriminate. }
  destruct (l1_penalty_properties (fine_noise_grid s)) as [Hl1 Hl1iff].
  exists noisy, (zip_with (adjustment_at s) timesteps batch), pred, mse.
  split; [exact Hadd | split; [exact Hadj | split; [exact Hpred | split; [exact Hmse |]]]].
  cbv zeta. split; [| repeat split; try tauto; try assumption; try apply Hiff].
  - unfold training_loss.
    erewrite bind_returns by exact Hadd.
    erewrite bind_returns by exact Hadj.
    unfold bind at 1. unfold lift at 1. rewrite Hpred.
    unfold bind at 1. unfold lift at 1. rewrite Hmse.
    reflexivity.
  - intros Hw. pose proof (Rmult_le_pos _ _ Hw Hl1). lra.
Qed.

Lemma training_loss_decomposition_witness :
  exists noise_pred mse,
    mse_loss noise_pred [(1, 1)] = Ok mse /\
    training_loss (mlp_denoiser demo_denoiser) (1 / 100) [(0, 0)] [(1, 1)] [1%Z]
      (world demo_scheduler demo_generator) =
    (Ok (mse + 1 / 100 *
           l1_loss_sum (fine_noise_grid demo_scheduler)
             (ones_like (fine_noise_grid demo_scheduler))),
     world demo_scheduler demo_generator).
Proof.
  destruct (training_loss_decomposition (mlp_denoiser demo_denoiser) demo_scheduler
              demo_generator (1 / 100) [(0, 0)] [(1, 1)] [1%Z])
    as (noisy & adj & pred & mse & _ & _ & _ & Hmse & Hloss & _).
  - exact demo_well_formed.
  - apply (mlp_denoiser_batch_preserving demo_denoiser 4);
      [exact demo_denoiser_shape | lia | reflexivity].
  - discriminate.
  - reflexivity.
  - reflexivity.
  - constructor; [exact demo_in_range_1 | constructor].
  - exists pred, mse. split; [exact Hmse | exact Hloss].
Defined.

(** ** Negative timesteps *)

Lemma getitem_negative {A} (a : list A) (i : Z) :
  (- Z.of_nat (length a) <= i < 0)%Z ->
  getitem a i = getitem a (i + Z.of_nat (length a)).
Proof.
  intros Hi. unfold getitem.
  destruct (Z.ltb_spec i 0); [| lia].
  destruct (Z.ltb_spec (i + Z.of_nat (length a)) 0); [lia | reflexivity].
Qed.

Lemma gather_negative_scalar (s : NoiseScheduler) (table : tensor1) (t : Z) :
  length table = Z.to_nat (num_timesteps s) ->
  (- num_timesteps s <= t < 0)%Z ->
  gather table [t] = gather table [(t + num_timesteps s)%Z].
Proof.
  intros Hlen Ht. unfold gather. cbn [mapM].
  rewrite getitem_negative by lia.
  replace (Z.of_nat (length table)) with (num_timesteps s) by lia. reflexivity.
Qed.

Lemma reconstruct_x0_negative (s : NoiseScheduler) (g : Generator)
    (x_t noise : points) (t : Z) :
  well_formed s ->
  (- num_timesteps s <= t < 0)%Z ->
  reconstruct_x0 x_t [t] noise (world s g) =
  reconstruct_x0 x_t [(t + num_timesteps s)%Z] noise (world s g).
Proof.
  intros Hwf Ht.
  pose proof Hwf as (_ & _ & _ & _ & _ & _ & _ & _ & H1 & H2 & _).
  unfold reconstruct_x0. run_method.
  rewrite (gather_negative_scalar s (sqrt_inv_alphas_cumprod s) t H1 Ht).
  rewrite (gather_negative_scalar s (sqrt_inv_alphas_cumprod_minus_one s) t H2 Ht).
  reflexivity.
Qed.

Lemma q_posterior_negative (s : NoiseScheduler) (g : Generator)
    (x_0 x_t : points) (t : Z) :
  well_formed s ->
  (- num_timesteps s <= t < 0)%Z ->
  q_posterior x_0 x_t [t] (world s g) =
  q_posterior x_0 x_t [(t + num_timesteps s)%Z] (world s g).
Proof.
  intros Hwf Ht.
  pose proof Hwf as (_ & _ & _ & _ & _ & _ & _ & _ & _ & _ & H1 & H2 & _).
  unfold q_posterior. run_method.
  rewrite (gather_negative_scalar s (posterior_mean_coef1 s) t H1 Ht).
  rewrite (gather_negative_scalar s (posterior_mean_coef2 s) t H2 Ht).
  reflexivity.
Qed.

Lemma bind_apply {A B} (c : M A) (k : A -> M B) (w : World) :
  bind c k w =
  match c w with
  | (Ok a, w') => k a w'
  | (Raise e, w') => (Raise e, w')
  end.
Proof. reflexivity. Qed.

Lemma bind_add_zero (c : M points) (w : World) :
  bind c (fun mu =>
            bind (ret (Number 0))
                 (fun variance =>
                    bind (lift (add_any mu variance)) (fun p => ret p))) w = c w.
Proof.
  unfold bind at 1. destruct (c w) as [[mu | e] w']; [| reflexivity].
  unfold bind, lift, ret, add_any. now rewrite add_zero_points.
Qed.

(** X7. A negative timestep is not refused: for [-T <= t < 0] the tables
    are read from the end, so [step(model_output, t, sample)] is the
    posterior mean of the reconstruction at timestep [t + T]; as [t > 0]
    fails, no noise is drawn or added, also where [t + T > 0]. *)
Theorem step_negative_timestep
    (s : NoiseScheduler) (g : Generator) (model_output sample : points) (t : Z) :
  well_formed s ->
  (- num_timesteps s <= t < 0)%Z ->
  step model_output t sample (world s g) =
  bind (reconstruct_x0 sample [(t + num_timesteps s)%Z] model_output)
       (fun x_0 => q_posterior x_0 sample [(t + num_timesteps s)%Z]) (world s g).
Proof.
  intros Hwf Ht. unfold step. cbv zeta.
  destruct (Z.ltb_spec 0 t); [lia |].
  rewrite (bind_apply (reconstruct_x0 sample [t] model_output)).
  rewrite (bind_apply (reconstruct_x0 sample [(t + num_timesteps s)%Z] model_output)).
  rewrite reconstruct_x0_negative by assumption.
  pose proof (keeps_self_reconstruct_x0 sample [(t + num_timesteps s)%Z] model_output
                (world s g)) as Hself.
  destruct (reconstruct_x0 sample [(t + num_timesteps s)%Z] model_output (world s g))
    as [[x_0 | e] [s1 g1]]; [| reflexivity].
  cbn in Hself. subst s1.
  change {| self := s; generator := g1 |} with (world s g1).
  rewrite bind_add_zero. now apply q_posterior_negative.
Qed.

Lemma step_negative_timestep_witness :
  step [(1, 1)] (-1) [(0, 0)] (world demo_scheduler demo_generator) =
  bind (reconstruct_x0 [(0, 0)] [1%Z] [(1, 1)])
       (fun x_0 => q_posterior x_0 [(0, 0)] [1%Z]) (world demo_scheduler demo_generator).
Proof.
  apply (step_negative_timestep demo_scheduler demo_generator [(1, 1)] [(0, 0)] (-1)).
  - exact demo_well_formed.
  - rewrite demo_num_timesteps. lia.
Defined.

(** ** The residual block *)

Lemma Linear_forward_rows (l : Linear) (i o : nat) (x : matrix) :
  linear_shape l i o -> has_width x i ->
  Linear_forward l x =
  Ok (map (fun row => zip_with (fun w b => dot row w + b) (weight l) (bias l)) x).
Proof.
  intros (Hin & _) Hx. unfold Linear_forward. apply mapM_pointwise.
  eapply Forall_impl; [| exact Hx]. intros row Hr. cbn beta.
  now rewrite Hr, Hin, Nat.eqb_refl.
Qed.

Lemma add2_rows (x y : matrix) (w : nat) :
  has_width x w -> has_width y w -> length x = length y ->
  add2 x y = Ok (zip_with (zip_with Rplus) x y).
Proof.
  intros Hx Hy Hlen. unfold add2.
  rewrite broadcast_same_length by exact Hlen. cbn [rbind].
  revert y Hy Hlen. induction Hx as [| r x Hr Hx IH]; intros [| s y] Hy Hlen;
    cbn in Hlen; try discriminate; [reflexivity |].
  inversion Hy as [| ? ? Hs Hy']; subst.
  cbn [zip_with mapM].
  rewrite broadcast_same_length by congruence. cbn [rbind].
  rewrite (IH y Hy') by congruence. reflexivity.
Qed.

Lemma dot_zero_weights (row w : tensor1) :
  Forall (fun v => v = 0) w -> dot row w = 0.
Proof.
  intros Hw. unfold dot. apply tensor_sum_all_zero.
  revert row. induction Hw as [| v w Hv _ IH]; intros [| r row]; cbn;
    constructor; [subst; ring | apply IH].
Qed.

Lemma add_zero_row (row zeros : tensor1) :
  length zeros = length row -> Forall (fun v => v = 0) zeros ->
  zip_with Rplus row zeros = row.
Proof.
  revert zeros. induction row as [| r row IH]; intros [| z zeros] Hlen Hz;
    cbn in *; try discriminate; [reflexivity |].
  inversion Hz; subst. rewrite IH by (congruence || assumption).
  f_equal. ring.
Qed.

Lemma zip_with_diag {A B} (f : A -> A -> B) (x : list A) :
  zip_with f x x = map (fun a => f a a) x.
Proof. induction x as [| a x IH]; cbn; [reflexivity | now rewrite IH]. Qed.

Lemma map_id_Forall {A} (f : A -> A) (x : list A) :
  Forall (fun a => f a = a) x -> map f x = x.
Proof. induction 1 as [| a x Ha _ IH]; cbn; [reflexivity | now rewrite Ha, IH]. Qed.

(** X20. A residual block of width [w] keeps the shape of a batch of
    width [w] and refuses a non-empty batch whose first row has another
    width; with a zero weight and a zero bias only the skip connection is
    left and the block is the identity. *)
Theorem residual_block_skip_connection (m : ResidualBlock.t) (w : nat) (x : matrix) :
  linear_shape (ResidualBlock.ff m) w w ->
  (has_width x w ->
   exists y,
     ResidualBlock.forward m x = Ok y /\ length y = length x /\ has_width y w /\
     (Forall (Forall (fun v => v = 0)) (weight (ResidualBlock.ff m)) ->
      Forall (fun v => v = 0) (bias (ResidualBlock.ff m)) ->
      y = x)) /\
  (forall row rest,
      x = row :: rest -> length row <> w ->
      exists msg, ResidualBlock.forward m x = Raise (RuntimeError msg)).
Proof.
  intros Hl. split.
  - intros Hx.
    destruct (relu_shape x w Hx) as [Hrw Hrl].
    pose proof (Linear_forward_rows _ _ _ _ Hl Hrw) as Hlin.
    destruct (Linear_forward_shape _ _ _ _ Hl Hrw) as (y0 & Hy0 & Wy0 & Ly0).
    rewrite Hlin in Hy0. injection Hy0 as <-.
    unfold ResidualBlock.forward. rewrite Hlin. cbn [rbind].
    rewrite (add2_rows x _ w Hx Wy0) by congruence.
    eexists. split; [reflexivity |].
    destruct (add2_shape x _ w Hx Wy0 ltac:(congruence)) as (z & Hz & Wz & Lz).
    rewrite (add2_rows x _ w Hx Wy0) in Hz by congruence. injection Hz as <-.
    split; [exact Lz | split; [exact Wz |]].
    intros HW HB.
    destruct Hl as (_ & _ & LW & _ & LB).
    rewrite zip_with_map_r. unfold relu. rewrite zip_with_map_r, zip_with_diag.
    apply map_id_Forall. eapply Forall_impl; [| exact Hx].
    intros row Hr. cbn beta. apply add_zero_row.
    + rewrite length_zip_with; congruence.
    + clear - HW HB. revert HB. generalize (bias (ResidualBlock.ff m)).
      induction HW as [| wr W Hwr _ IHW]; intros [| b B] HB; cbn; constructor.
      * inversion HB; subst. rewrite dot_zero_weights by exact Hwr. ring.
      * apply IHW. now inversion HB.
  - intros row rest -> Hrow. unfold ResidualBlock.forward, Linear_forward, relu.
    cbn [map mapM]. rewrite length_map.
    destruct Hl as (-> & _).
    destruct (Nat.eqb_spec (length row) w); [contradiction |].
    cbn. eauto.
Qed.

Lemma residual_block_skip_connection_witness :
  ResidualBlock.forward
    {| ResidualBlock.ff :=
         {| in_features := 2; out_features := 2;
            weight := [[0; 0]; [0; 0]]; bias := [0; 0] |} |}
    [[1; -2]] = Ok [[1; -2]].
Proof.
  destruct (residual_block_skip_connection
              {| ResidualBlock.ff :=
                   {| in_features := 2; out_features := 2;
                      weight := [[0; 0]; [0; 0]]; bias := [0; 0] |} |}
              2 [[1; -2]]) as [H _].
  - unfold linear_shape, has_width. cbn. repeat split. repeat constructor.
  - destruct H as (y & Hy & _ & _ & Hid).
    + repeat constructor.
    + rewrite Hy. f_equal. apply Hid; cbn; repeat constructor.
Defined.
